(** * PyBlock: the edit-buffering and commit engine of [pyblock/editor.py]

    A shallow embedding of the [Editor] class: the pending-write buffer
    ([set_block]), the read path ([get_block], [get_section]), the copy and
    relocation engine ([copy_blocks]) and the commit ([done]).

    Python objects that the editor shares and mutates (Section objects,
    block-entity records) live in an explicit store and are referred to by
    location; Python dictionaries are insertion-ordered association lists. *)

From stdpp Require Import base list list_numbers strings.
From Stdlib Require Import ZArith Lia.

Local Open Scope Z_scope.

(** ** Python dictionaries

    A [dict] keeps its keys in insertion order: assigning to an existing key
    replaces the value where it stands, assigning to a new key appends. *)

Module Dict.
Section dict.
Context {K V : Type} `{EqDecision K}.

Definition t := list (K * V).

Definition empty : t := [].

Fixpoint get (d : t) (k : K) : option V :=
  match d with
  | [] => None
  | (k', v) :: d' => if decide (k = k') then Some v else get d' k
  end.

Fixpoint set (d : t) (k : K) (v : V) : t :=
  match d with
  | [] => [(k, v)]
  | (k', v') :: d' =>
      if decide (k = k') then (k', v) :: d' else (k', v') :: set d' k v
  end.

Definition mem (d : t) (k : K) : bool :=
  match get d k with Some _ => true | None => false end.

Definition keys (d : t) : list K := d.*1.

Definition values (d : t) : list V := d.*2.

End dict.
Global Arguments t : clear implicits.
End Dict.

(** ** Coordinates and addresses *)

Definition region_coord : Type := Z * Z.
Definition chunk_coord : Type := Z * Z.
Definition section_id : Type := region_coord * chunk_coord * Z.
Definition chunk_id : Type := region_coord * chunk_coord.

(** The 4-tuple returned by the indexer: region, chunk inside the region,
    vertical level, index inside the section. *)
Definition Address : Type := region_coord * chunk_coord * Z * Z.

Module tools.
Section extents.
(** The fixed extents of the storage format, which the sources at hand do
    not give: side of a chunk in blocks, side of a region in chunks, height
    of a section in blocks. *)
Variables (chunk_extent region_chunks section_height : Z).

(** Modelled from the spec: the side of a region in blocks. *)
Definition region_extent : Z := region_chunks * chunk_extent.

(** Modelled from the spec: one horizontal axis of [tools.block_to_id_index],
    which is not part of the sources at hand: region, chunk inside the
    region, block inside the chunk, all by floor division. *)
Definition block_to_region_chunk (a : Z) : Z * Z * Z :=
  (a `div` region_extent,
   (a `mod` region_extent) `div` chunk_extent,
   a `mod` chunk_extent).

(** Modelled from the spec: [tools.block_to_id_index] is not part of the
    sources at hand.  Region and chunk ids come from floor division of the
    world coordinates by the region and chunk extents, the chunk id being
    relative to its region; the vertical level is the floor division of
    [y] by the section height; the intra-section index enumerates the
    voxels of the section, layer by layer, row by row. *)
Definition block_to_id_index (x y z : Z) : Address :=
  let '(rx, cx, bx) := block_to_region_chunk x in
  let '(rz, cz, bz) := block_to_region_chunk z in
  let ylevel := y `div` section_height in
  let by_ := y `mod` section_height in
  ((rx, rz), (cx, cz), ylevel, (by_ * chunk_extent + bz) * chunk_extent + bx).

(** Modelled from the spec: the recomposition of the absolute position
    from region, chunk, vertical level and intra-section index. *)
Definition id_index_to_block (a : Address) : Z * Z * Z :=
  let '((rx, rz), (cx, cz), ylevel, index) := a in
  let bx := index `mod` chunk_extent in
  let bz := (index `div` chunk_extent) `mod` chunk_extent in
  let by_ := index `div` (chunk_extent * chunk_extent) in
  (rx * region_extent + cx * chunk_extent + bx,
   ylevel * section_height + by_,
   rz * region_extent + cz * chunk_extent + bz).

(** Modelled from the spec: the addresses the indexer can produce, with the
    chunk id inside its region and the index inside its section. *)
Definition in_address_range (a : Address) : Prop :=
  let '((rx, rz), (cx, cz), ylevel, index) := a in
  0 <= cx < region_chunks ∧ 0 <= cz < region_chunks ∧
  0 <= index < section_height * chunk_extent * chunk_extent.

End extents.
End tools.

(** ** The collaborators: blocks, block entities, sections, chunks, regions *)

(** Modelled from the spec: [pyblock.Block] is not part of the sources at
    hand.  The editor treats a block as an opaque value that can be
    compared; it is modelled by its name. *)
Definition Block : Type := string.

(** Modelled from the spec: a block entity of [nbt_data["block_entities"]]
    (an NBT compound), with its absolute position, its kind [id] and the
    rest of its tags as an opaque payload. *)
Record Entity := mk_entity {
  ent_x : Z;
  ent_y : Z;
  ent_z : Z;
  ent_id : string;
  ent_payload : string
}.

Global Instance Entity_eq_dec : EqDecision Entity.
Proof. solve_decision. Defined.

(** Modelled from the spec: the payload of a section, the block at each
    intra-section index. *)
Definition SectionData : Type := Z → Block.

(** Modelled from the spec: a chunk as the storage holds it, the payload of
    its sections by vertical level and its block entities. *)
Record ChunkData := mk_chunk_data {
  cd_sections : Z → SectionData;
  cd_block_entities : list Entity
}.

(** Locations of Python objects in the store. *)
Abbreviation loc := nat (only parsing).

(** Modelled from the spec: a decoded [pyblock.Chunk] object, with the
    payload of its sections and [nbt_data["block_entities"]], a list of
    (mutable, shared) entity objects. *)
Record Chunk := mk_chunk {
  nbt_sections : Z → SectionData;
  nbt_block_entities : list loc
}.

(** What the editor asks of the storage collaborator, in order. *)
Inductive Event :=
  | EvRegion (path : string) (rc : region_coord)
  | EvReadChunk (path : string) (rc : region_coord) (cc : chunk_coord)
  | EvGetChunk (path : string) (rc : region_coord) (cc : chunk_coord)
  | EvWrite (path : string) (rc : region_coord)
            (updated_chunks : Dict.t chunk_coord ChunkData).

(** The world outside the editor object: the store of Section objects, the
    store of entity objects, the region files, and the calls made to the
    storage collaborator so far. *)
Record World := mk_world {
  sec_heap : list SectionData;
  ent_heap : list Entity;
  disk : string → region_coord → chunk_coord → ChunkData;
  trace : list Event
}.

Definition set_sec_heap (h : list SectionData) (w : World) : World :=
  mk_world h (ent_heap w) (disk w) (trace w).
Definition set_ent_heap (h : list Entity) (w : World) : World :=
  mk_world (sec_heap w) h (disk w) (trace w).
Definition set_disk (d : string → region_coord → chunk_coord → ChunkData)
    (w : World) : World :=
  mk_world (sec_heap w) (ent_heap w) d (trace w).
Definition emit (ev : Event) (w : World) : World :=
  mk_world (sec_heap w) (ent_heap w) (disk w) (trace w ++ [ev]).

(** Dereferencing.  A location always comes from an allocation, so the
    default is never reached from a state the editor builds. *)
Definition no_section : SectionData := λ _, EmptyString.
Definition no_entity : Entity := mk_entity 0 0 0 EmptyString EmptyString.

Definition section_at (w : World) (l : loc) : SectionData :=
  default no_section (sec_heap w !! l).
Definition entity_at (w : World) (l : loc) : Entity :=
  default no_entity (ent_heap w !! l).

(** Modelled from the spec: the [Section] class is not part of the sources
    at hand.  It exposes [get_block(index)], [set_block(block, index)],
    which replaces the block at that one index, and [get_nbt()], the
    payload handed to the chunk. *)
Definition Section_get_block (w : World) (l : loc) (index : Z) : Block :=
  section_at w l index.

(** Modelled from the spec: [Section.set_block(block, index)] changes the
    Section object where it is, at that one index. *)
Definition Section_set_block (w : World) (l : loc) (block : Block) (index : Z)
    : World :=
  set_sec_heap
    (alter (λ s i, if decide (i = index) then block else s i) l (sec_heap w)) w.

(** Modelled from the spec: [Section.get_nbt()], the payload of the
    section as it is now. *)
Definition Section_get_nbt (w : World) (l : loc) : SectionData :=
  section_at w l.

(** Modelled from the spec: the [Chunk] class is not part of the sources at
    hand.  [get_section(ylevel)] derives a Section from the chunk's data,
    a new object at every call; [set_section(ylevel, payload)] replaces the
    payload of one vertical level; [get_bytes(entities)] encodes the chunk,
    the given block entities merged in after its own. *)
Definition Chunk_get_section (w : World) (chunk : Chunk) (ylevel : Z)
    : World * loc :=
  (set_sec_heap (sec_heap w ++ [nbt_sections chunk ylevel]) w,
   length (sec_heap w)).

(** Modelled from the spec: [Chunk.set_section(ylevel, payload)], on the
    chunk the commit got for itself. *)
Definition Chunk_set_section (c : ChunkData) (ylevel : Z) (payload : SectionData)
    : ChunkData :=
  mk_chunk_data
    (λ yl, if decide (yl = ylevel) then payload else cd_sections c yl)
    (cd_block_entities c).

(** Modelled from the spec: [Chunk.get_bytes(entities)], the encoded chunk
    with the given block entities, as they are now, after its own. *)
Definition Chunk_get_bytes (w : World) (c : ChunkData) (entities : list loc)
    : ChunkData :=
  mk_chunk_data (cd_sections c)
    (cd_block_entities c ++ (entity_at w <$> entities)).

(** Modelled from the spec: the [Region] class is not part of the sources at
    hand.  [Region(path, rc)] opens a region; [read_chunk(cc)] decodes a
    chunk, its block entities becoming new objects; [get_chunk(cc)] gives
    the commit a chunk of its own to change; [write(updated_chunks)] is the
    one persistence call of a region and replaces the chunks it is given. *)
Definition Region (w : World) (path : string) (rc : region_coord) : World :=
  emit (EvRegion path rc) w.

(** Modelled from the spec: [Region.read_chunk(cc)] decodes the chunk the
    storage holds; its block entities are new objects. *)
Definition Region_read_chunk (w : World) (path : string) (rc : region_coord)
    (cc : chunk_coord) : World * Chunk :=
  let c := disk w path rc cc in
  let ents := cd_block_entities c in
  (emit (EvReadChunk path rc cc) (set_ent_heap (ent_heap w ++ ents) w),
   mk_chunk (cd_sections c) (seq (length (ent_heap w)) (length ents))).

(** Modelled from the spec: [Region.get_chunk(cc)], the chunk the storage
    holds, for the commit to change and encode. *)
Definition Region_get_chunk (w : World) (path : string) (rc : region_coord)
    (cc : chunk_coord) : World * ChunkData :=
  (emit (EvGetChunk path rc cc) w, disk w path rc cc).

(** Modelled from the spec: [Region.write(updated_chunks)] replaces, in
    the region file, the chunks it is given. *)
Definition Region_write (w : World) (path : string) (rc : region_coord)
    (updated_chunks : Dict.t chunk_coord ChunkData) : World :=
  emit (EvWrite path rc updated_chunks)
    (set_disk
       (λ p r c,
          if decide (p = path ∧ r = rc)
          then default (disk w p r c) (Dict.get updated_chunks c)
          else disk w p r c) w).

(** ** The editor *)

(** The attributes of an [Editor] object. *)
Record Editor := mk_editor {
  path : string;
  blocks_map : Dict.t section_id (list (Block * Z));
  sections : Dict.t section_id loc;
  chunks : Dict.t chunk_id Chunk;
  write_sections : Dict.t section_id loc;
  entities : Dict.t chunk_id (list loc)
}.

Definition set_blocks_map (m : Dict.t section_id (list (Block * Z))) (e : Editor) :=
  mk_editor (path e) m (sections e) (chunks e) (write_sections e) (entities e).
Definition set_sections (m : Dict.t section_id loc) (e : Editor) :=
  mk_editor (path e) (blocks_map e) m (chunks e) (write_sections e) (entities e).
Definition set_chunks (m : Dict.t chunk_id Chunk) (e : Editor) :=
  mk_editor (path e) (blocks_map e) (sections e) m (write_sections e) (entities e).
Definition set_write_sections (m : Dict.t section_id loc) (e : Editor) :=
  mk_editor (path e) (blocks_map e) (sections e) (chunks e) m (entities e).
Definition set_entities (m : Dict.t chunk_id (list loc)) (e : Editor) :=
  mk_editor (path e) (blocks_map e) (sections e) (chunks e) (write_sections e) m.

(** [str(path).endswith("region")] *)
Definition endswith (s suffix : string) : bool :=
  String.prefix (String.rev suffix) (String.rev s).

(** [pathlib.Path], as it is on a POSIX system.  A path is a root and a
    list of components.  [Path(s)] splits [s] at the separator and drops the
    empty components and the components ["."]; one leading separator or
    three and more give the root ["/"], exactly two give the root ["//"].
    [str] joins the components behind the root and gives ["."] for the
    path without root and components.  [p / s] appends the components of
    [s] when [s] has no root and is [Path(s)] otherwise. *)

(** The separator, the character [/]. *)
Definition slash : Ascii.ascii := Eval cbv in Ascii.ascii_of_nat 47.

(** [s.split("/")] *)
Fixpoint split_slash (s : string) : list string :=
  match s with
  | EmptyString => [EmptyString]
  | String c s' =>
      if Ascii.eqb c slash then EmptyString :: split_slash s'
      else match split_slash s' with
           | x :: xs => String c x :: xs
           | [] => [String c EmptyString]
           end
  end.

Record PurePath := mk_path { path_root : string; path_parts : list string }.

Definition starts_slash (s : string) : bool :=
  match s with String c _ => Ascii.eqb c slash | EmptyString => false end.

Definition string_tail (s : string) : string :=
  match s with String _ s' => s' | EmptyString => EmptyString end.

Definition Path_root (s : string) : string :=
  if starts_slash s then
    if starts_slash (string_tail s) then
      if starts_slash (string_tail (string_tail s)) then "/" else "//"
    else "/"
  else "".

Definition Path_parts (s : string) : list string :=
  filter (λ x, x ≠ EmptyString ∧ x ≠ "."%string) (split_slash s).

(** [Path(s)] *)
Definition Path (s : string) : PurePath := mk_path (Path_root s) (Path_parts s).

(** [p / s] *)
Definition Path_div (p : PurePath) (s : string) : PurePath :=
  if decide (Path_root s = EmptyString)
  then mk_path (path_root p) (path_parts p ++ Path_parts s)
  else Path s.

(** [str(p)] *)
Definition Path_str (p : PurePath) : string :=
  if decide (path_root p = EmptyString ∧ path_parts p = [])
  then "."
  else path_root p +:+ String.concat "/" (path_parts p).

(** A path as [Path] and [/] build it: one of the three roots, and
    components without separator that are neither empty nor ["."]. *)
Definition Path_normal (p : PurePath) : Prop :=
  (path_root p = EmptyString ∨ path_root p = "/"%string ∨ path_root p = "//"%string) ∧
  Forall (λ x, split_slash x = [x] ∧ x ≠ EmptyString ∧ x ≠ "."%string) (path_parts p).

(** [Editor.__init__].  [self.path] is a [Path]; the editor keeps it as
    the string [str(self.path)], which determines it. *)
Definition Editor_init (p : string) : Editor :=
  mk_editor
    (Path_str (if endswith p "region" then Path p else Path_div (Path p) "region"))
    Dict.empty Dict.empty Dict.empty Dict.empty Dict.empty.

(** The levels of the [logging] module that the editor uses. *)
Inductive LogLevel := WARNING | INFO | DEBUG.

(** [t[i]] on a Python tuple: a negative index counts from the end, an
    index out of range raises [IndexError] (here [None]). *)
Definition py_index {A} (t : list A) (i : Z) : option A :=
  if decide (0 <= i) then t !! Z.to_nat i
  else if decide (- Z.of_nat (length t) <= i) then t !! Z.to_nat (Z.of_nat (length t) + i)
  else None.

(** [Editor.set_verbosity]: the level handed to [L.setLevel], or [None]
    when the indexing raises. *)
Definition set_verbosity (verbose : Z) : option LogLevel :=
  py_index [WARNING; INFO; DEBUG] (Z.min verbose 2).

(** [d[k].append(x)] on a dictionary of lists, the list being created when
    the key is new. *)
Definition dict_append {K V} `{EqDecision K} (d : Dict.t K (list V)) (k : K) (x : V)
    : Dict.t K (list V) :=
  match Dict.get d k with
  | Some l => Dict.set d k (l ++ [x])
  | None => Dict.set d k [x]
  end.

Section editor.
Variables (chunk_extent region_chunks section_height : Z).

Local Abbreviation block_to_id_index :=
  (tools.block_to_id_index chunk_extent region_chunks section_height).

(** [Editor.set_block] *)
Definition set_block (e : Editor) (block : Block) (x y z : Z) : Editor :=
  let '(region_coord, chunk_coord, ylevel, block_index) := block_to_id_index x y z in
  let section_id := (region_coord, chunk_coord, ylevel) in
  let change := (block, block_index) in
  match Dict.get (blocks_map e) section_id with
  | Some l => set_blocks_map (Dict.set (blocks_map e) section_id (l ++ [change])) e
  | None => set_blocks_map (Dict.set (blocks_map e) section_id [change]) e
  end.

(** [Editor.get_section] *)
Definition get_section (w : World) (e : Editor) (sid : section_id)
    : World * Editor * loc :=
  let '(region_coord, chunk_coord, ylevel) := sid in
  let chunk_id := (region_coord, chunk_coord) in
  let '(w1, e1, chunk) :=
    match Dict.get (chunks e) chunk_id with
    | Some chunk => (w, e, chunk)
    | None =>
        let w' := Region w (path e) region_coord in
        let '(w'', chunk) := Region_read_chunk w' (path e) region_coord chunk_coord in
        (w'', set_chunks (Dict.set (chunks e) chunk_id chunk) e, chunk)
    end in
  let '(w2, section) := Chunk_get_section w1 chunk ylevel in
  (w2, e1, section).

(** [Editor.get_block].  At the last line [self.sections[section_id]] is
    there: the key was in the cache or has just been set. *)
Definition get_block (w : World) (e : Editor) (x y z : Z)
    : World * Editor * Block :=
  let '(region_coord, chunk_coord, ylevel, block_index) := block_to_id_index x y z in
  let section_id := (region_coord, chunk_coord, ylevel) in
  let '(w1, e1) :=
    if Dict.mem (sections e) section_id then (w, e)
    else
      let '(w', e', section) := get_section w e section_id in
      (w', set_sections (Dict.set (sections e') section_id section) e') in
  (w1, e1,
   Section_get_block w1 (default 0%nat (Dict.get (sections e1) section_id)) block_index).

(** Python truthiness of an optional list and of an optional string:
    [None] and the empty value are false. *)
Definition truthy_list {A} (l : option (list A)) : bool :=
  match l with Some (_ :: _) => true | _ => false end.

Definition truthy_str (s : option string) : bool :=
  match s with Some (String _ _) => true | _ => false end.

(** [source_world] is [self] or a second editor; reads go through it and
    change its caches. *)
Definition source_world (self : Editor) (other : option Editor) : Editor :=
  default self other.

Definition put_source_world (self : Editor) (other : option Editor) (s : Editor)
    : Editor * option Editor :=
  match other with
  | Some _ => (self, Some s)
  | None => (s, None)
  end.

(** The body of the three nested loops of [copy_blocks]. *)
Definition copy_block (source dest : Z * Z * Z) (rep : option (list (Z * Z * Z)))
    (st : World * Editor * option Editor) (dx dy dz : Z)
    : World * Editor * option Editor :=
  let '(w, self, other) := st in
  let '(sx, sy, sz) := source in
  let '(tx, ty, tz) := dest in
  let '(w1, src, block) :=
    get_block w (source_world self other) (sx + dx) (sy + dy) (sz + dz) in
  let '(self1, other1) := put_source_world self other src in
  let self2 :=
    if truthy_list rep then
      foldl (λ s '(rx, ry, rz),
               set_block s block (tx + dx + rx) (ty + dy + ry) (tz + dz + rz))
            self1 (default [] rep)
    else set_block self1 block (tx + dx) (ty + dy) (tz + dz) in
  (w1, self2, other1).

(** [for dx in range(wx): for dy in range(wy): for dz in range(wz): ...] *)
Definition copy_loop (source dest size : Z * Z * Z) (rep : option (list (Z * Z * Z)))
    (st : World * Editor * option Editor) : World * Editor * option Editor :=
  let '(wx, wy, wz) := size in
  foldl (λ st dx,
    foldl (λ st dy,
      foldl (λ st dz, copy_block source dest rep st dx dy dz)
            st (seqZ 0 wz))
          st (seqZ 0 wy))
        st (seqZ 0 wx).

(** [entity["x"].value = x] and likewise for [y] and [z]: the entity object
    is changed where it is. *)
Definition Entity_set_pos (w : World) (entity : loc) (x y z : Z) : World :=
  set_ent_heap
    (alter (λ en, mk_entity x y z (ent_id en) (ent_payload en)) entity (ent_heap w))
    w.

Definition in_area (source size : Z * Z * Z) (x y z : Z) : bool :=
  let '(sx, sy, sz) := source in
  let '(wx, wy, wz) := size in
  (sx <=? x) && (x <? sx + wx) &&
  ((sy <=? y) && (y <? sy + wy)) &&
  ((sz <=? z) && (z <? sz + wz)).

(** The body of the loop over the block entities of the source chunks. *)
Definition extract_entity (source dest size : Z * Z * Z)
    (st : World * Dict.t chunk_id (list loc)) (entity : loc)
    : World * Dict.t chunk_id (list loc) :=
  let '(w, ents) := st in
  let '(sx, sy, sz) := source in
  let '(tx, ty, tz) := dest in
  let shift_x := tx - sx in
  let shift_y := ty - sy in
  let shift_z := tz - sz in
  let x := ent_x (entity_at w entity) in
  let y := ent_y (entity_at w entity) in
  let z := ent_z (entity_at w entity) in
  if in_area source size x y z then
    let x := x + shift_x in
    let y := y + shift_y in
    let z := z + shift_z in
    let '(region_coord, chunk_coord, _, _) := block_to_id_index x y z in
    let key := (region_coord, chunk_coord) in
    let w' := Entity_set_pos w entity x y z in
    (w', dict_append ents key entity)
  else st.

(** [for chunk_coord, chunk in source_world.chunks.items(): for entity in
    chunk.nbt_data["block_entities"]: ...], starting from an empty
    [self.entities]. *)
Definition extract_entities (source dest size : Z * Z * Z) (w : World)
    (source_chunks : Dict.t chunk_id Chunk) : World * Dict.t chunk_id (list loc) :=
  foldl (λ st item,
           foldl (extract_entity source dest size) st (nbt_block_entities item.2))
        (w, Dict.empty) source_chunks.

(** [copy.deepcopy] of one entity: a new object with the same tags. *)
Definition deepcopy_entity (w : World) (entity : loc) : World * loc :=
  (set_ent_heap (ent_heap w ++ [entity_at w entity]) w, length (ent_heap w)).

(** [copy.deepcopy(self.entities)]: every entity object reached is copied
    once (the memo maps an object to its copy), the keys are kept. *)
Definition deepcopy_ref (st : World * Dict.t loc loc) (entity : loc)
    : World * Dict.t loc loc * loc :=
  let '(w, memo) := st in
  match Dict.get memo entity with
  | Some entity' => (w, memo, entity')
  | None =>
      let '(w', entity') := deepcopy_entity w entity in
      (w', Dict.set memo entity entity', entity')
  end.

Definition deepcopy_list (st : World * Dict.t loc loc) (l : list loc)
    : World * Dict.t loc loc * list loc :=
  foldl (λ '(st, acc) entity,
           let '(st', entity') := deepcopy_ref st entity in (st', acc ++ [entity']))
        (st, []) l.

Definition deepcopy_entities (w : World) (d : Dict.t chunk_id (list loc))
    : World * Dict.t chunk_id (list loc) :=
  let '(w', _, d') :=
    foldl (λ '(st, acc) item,
             let '(st', l') := deepcopy_list st item.2 in
             (st', acc ++ [(item.1, l')]))
          (w, Dict.empty, []) d in
  (w', d').

(** The body of [for orig_entity in entities].  The variable [key] is the
    one of the enclosing [for key, entities in ...] and is assigned again
    inside the repetition loop, so it is threaded through. *)
Definition repeat_entity (rep : list (Z * Z * Z))
    (st : World * Dict.t chunk_id (list loc) * chunk_id) (orig_entity : loc)
    : World * Dict.t chunk_id (list loc) * chunk_id :=
  let '(w, ents, key) := st in
  let ents := dict_append ents key orig_entity in
  foldl (λ '(w, ents, key) '(rx, ry, rz),
           let '(w, entity) := deepcopy_entity w orig_entity in
           let x := ent_x (entity_at w entity) + rx in
           let y := ent_y (entity_at w entity) + ry in
           let z := ent_z (entity_at w entity) + rz in
           let '(region_coord, chunk_coord, _, _) := block_to_id_index x y z in
           let key := (region_coord, chunk_coord) in
           let w := Entity_set_pos w entity x y z in
           (w, dict_append ents key entity, key))
        (w, ents, key) rep.

(** [for key, entities in copy_entities.items(): ...], starting from an
    empty [self.entities]. *)
Definition repeat_entities (rep : list (Z * Z * Z)) (w : World)
    (copy_entities : Dict.t chunk_id (list loc)) : World * Dict.t chunk_id (list loc) :=
  foldl (λ '(w, ents) item,
           let '(w', ents', _) :=
             foldl (repeat_entity rep) (w, ents, item.1) item.2 in
           (w', ents'))
        (w, Dict.empty) copy_entities.

(** [Editor.copy_blocks] *)
Definition copy_blocks (w : World) (self : Editor) (source dest size : Z * Z * Z)
    (rep : option (list (Z * Z * Z))) (world_source : option string)
    : World * Editor :=
  let other :=
    if truthy_str world_source
    then Some (Editor_init (default EmptyString world_source))
    else None in
  let '(w1, self1, other1) := copy_loop source dest size rep (w, self, other) in
  let '(w2, ents) :=
    extract_entities source dest size w1 (chunks (source_world self1 other1)) in
  let self2 := set_entities ents self1 in
  if truthy_list rep then
    let '(w3, copy_entities) := deepcopy_entities w2 (entities self2) in
    let '(w4, ents') := repeat_entities (default [] rep) w3 copy_entities in
    (w4, set_entities ents' self2)
  else (w2, self2).

(** The first loop of [done]: the body for one entry of [blocks_map].
    [self.write_sections[section_id]] is there when the updates are
    applied. *)
Definition done_section
    (st : World * Editor * Dict.t region_coord (list (chunk_coord * Z)))
    (item : section_id * list (Block * Z))
    : World * Editor * Dict.t region_coord (list (chunk_coord * Z)) :=
  let '(w, e, regions) := st in
  let '(section_id, updates) := item in
  let '(region_coord, chunk_coord, ylevel) := section_id in
  let '(w1, e1) :=
    if Dict.mem (write_sections e) section_id then (w, e)
    else
      let '(w', e', section) := get_section w e section_id in
      (w', set_write_sections (Dict.set (write_sections e') section_id section) e') in
  let w2 :=
    foldl (λ w update,
             Section_set_block w
               (default 0%nat (Dict.get (write_sections e1) section_id))
               update.1 update.2)
          w1 updates in
  (w2, e1, dict_append regions region_coord (chunk_coord, ylevel)).

(** [for section_id, updates in self.blocks_map.items(): ...] *)
Definition done_apply (w : World) (e : Editor)
    : World * Editor * Dict.t region_coord (list (chunk_coord * Z)) :=
  foldl done_section (w, e, Dict.empty) (blocks_map e).

(** The chunk indices of one region: [chunks[chunk_coord]] lists the
    vertical levels touched. *)
Definition chunk_levels (chunk_id : list (chunk_coord * Z))
    : Dict.t chunk_coord (list Z) :=
  foldl (λ chunks item, dict_append chunks item.1 item.2) Dict.empty chunk_id.

(** The body of [for chunk_coord, ylevels in chunks.items()]. *)
Definition done_chunk (e : Editor) (region_coord : region_coord)
    (st : World * Dict.t chunk_coord ChunkData) (item : chunk_coord * list Z)
    : World * Dict.t chunk_coord ChunkData :=
  let '(w, updated_chunks) := st in
  let '(chunk_coord, ylevels) := item in
  let key := (region_coord, chunk_coord) in
  let entities_to_update :=
    match Dict.get (entities e) key with
    | Some l => l
    | None => []
    end in
  let '(w1, chunk) := Region_get_chunk w (path e) region_coord chunk_coord in
  let chunk :=
    foldl (λ chunk ylevel,
             let section_id := (region_coord, chunk_coord, ylevel) in
             let section := default 0%nat (Dict.get (write_sections e) section_id) in
             Chunk_set_section chunk ylevel (Section_get_nbt w1 section))
          chunk ylevels in
  (w1, Dict.set updated_chunks chunk_coord (Chunk_get_bytes w1 chunk entities_to_update)).

(** The body of [for region_coord, chunk_id in regions.items()]. *)
Definition done_region (e : Editor) (w : World)
    (item : region_coord * list (chunk_coord * Z)) : World :=
  let '(region_coord, chunk_id) := item in
  let w1 := Region w (path e) region_coord in
  let chunks := chunk_levels chunk_id in
  let '(w2, updated_chunks) :=
    foldl (done_chunk e region_coord) (w1, Dict.empty) chunks in
  Region_write w2 (path e) region_coord updated_chunks.

Definition done_flush (w : World) (e : Editor)
    (regions : Dict.t region_coord (list (chunk_coord * Z))) : World :=
  foldl (done_region e) w regions.

(** [Editor.done] *)
Definition done (w : World) (e : Editor) : World * Editor :=
  let '(w1, e1, regions) := done_apply w e in
  (done_flush w1 e1 regions, e1).

End editor.

(** ** Vocabulary of the properties *)

Section vocabulary.
Variables (chunk_extent region_chunks section_height : Z).

(** The block the storage holds at a coordinate for the world at [p]. *)
Definition stored_block (w : World) (p : string) (x y z : Z) : Block :=
  let '(rc, cc, ylevel, index) :=
    tools.block_to_id_index chunk_extent region_chunks section_height x y z in
  cd_sections (disk w p rc cc) ylevel index.

(** The address of a coordinate: section and index inside the section. *)
Definition address_of (c : Z * Z * Z) : section_id * Z :=
  let '(rc, cc, ylevel, index) :=
    tools.block_to_id_index chunk_extent region_chunks section_height
      c.1.1 c.1.2 c.2 in
  ((rc, cc, ylevel), index).

(** The number of writes pending at an address. *)
Definition pending_at (e : Editor) (a : section_id * Z) : nat :=
  length (filter (λ update : Block * Z, update.2 = a.2)
                 (default [] (Dict.get (blocks_map e) a.1))).

(** The offsets of a cuboid, in the order of the three loops. *)
Definition cuboid (size : Z * Z * Z) : list (Z * Z * Z) :=
  dx ← seqZ 0 size.1.1; dy ← seqZ 0 size.1.2; dz ← seqZ 0 size.2; [(dx, dy, dz)].

(** The offsets a copy writes at, relative to [dest] plus the offset in the
    cuboid: the repetition offsets if there are any, the null offset
    otherwise. *)
Definition write_offsets (rep : option (list (Z * Z * Z))) : list (Z * Z * Z) :=
  if truthy_list rep then default [] rep else [(0, 0, 0)].

(** The coordinates a copy writes at, in order. *)
Definition copy_targets (dest size : Z * Z * Z) (rep : option (list (Z * Z * Z)))
    : list (Z * Z * Z) :=
  d ← cuboid size; r ← write_offsets rep;
  [(dest.1.1 + d.1.1 + r.1.1, dest.1.2 + d.1.2 + r.1.2, dest.2 + d.2 + r.2)].

(** The writes pending for a section, in the order they were buffered. *)
Definition pending (e : Editor) (sid : section_id) : list (Block * Z) :=
  default [] (Dict.get (blocks_map e) sid).

(** Of a list of blocks to place at coordinates, the writes that fall into
    a section, as [set_block] buffers them. *)
Definition writes_at (sid : section_id) (placements : list (Block * (Z * Z * Z)))
    : list (Block * Z) :=
  omap (λ bc : Block * (Z * Z * Z),
          if decide ((address_of bc.2).1 = sid)
          then Some (bc.1, (address_of bc.2).2) else None)
       placements.

(** The session the reads of a copy go through: a new editor on the other
    world if one is named, the session itself otherwise. *)
Definition source_session (e : Editor) (world_source : option string) : Editor :=
  if truthy_str world_source
  then Editor_init (default EmptyString world_source) else e.

(** The blocks a copy places, in order: for each offset of the cuboid and
    each write offset, the block of the source at the offset of the
    cuboid. *)
Definition copy_placements (source_block : Z * Z * Z → Block)
    (source dest size : Z * Z * Z) (rep : option (list (Z * Z * Z)))
    : list (Block * (Z * Z * Z)) :=
  d ← cuboid size; r ← write_offsets rep;
  [(source_block (source.1.1 + d.1.1, source.1.2 + d.1.2, source.2 + d.2),
    (dest.1.1 + d.1.1 + r.1.1, dest.1.2 + d.1.2 + r.1.2, dest.2 + d.2 + r.2))].

(** The sessions an editor goes through: created by [Editor_init] in some
    world, then driven by its four operations. *)
Inductive session : World → Editor → Prop :=
  | session_init w p : session w (Editor_init p)
  | session_get_block w e x y z :
      session w e →
      session (get_block chunk_extent region_chunks section_height w e x y z).1.1
              (get_block chunk_extent region_chunks section_height w e x y z).1.2
  | session_set_block w e block x y z :
      session w e →
      session w (set_block chunk_extent region_chunks section_height e block x y z)
  | session_copy_blocks w e source dest size rep world_source :
      session w e →
      session (copy_blocks chunk_extent region_chunks section_height
                 w e source dest size rep world_source).1
              (copy_blocks chunk_extent region_chunks section_height
                 w e source dest size rep world_source).2
  | session_done w e :
      session w e → session (done w e).1 (done w e).2.

End vocabulary.

(** The section data of a chunk as the read path sees it: the chunk cache
    first, the region otherwise. *)
Definition chunk_sections_of (w : World) (e : Editor) (rc : region_coord)
    (cc : chunk_coord) : Z → SectionData :=
  match Dict.get (chunks e) (rc, cc) with
  | Some chunk => nbt_sections chunk
  | None => cd_sections (disk w (path e) rc cc)
  end.

(** What [get_block] reads at an address: the cached read-side section if
    there is one, the chunk's data otherwise. *)
Definition read_view (w : World) (e : Editor) (sid : section_id) : SectionData :=
  match Dict.get (sections e) sid with
  | Some l => section_at w l
  | None => chunk_sections_of w e sid.1.1 sid.1.2 sid.2
  end.

(** The payload of the write-side section of an address: the one in
    [write_sections] if there is one, otherwise the chunk's data, from
    which the commit derives it. *)
Definition write_view (w : World) (e : Editor) (sid : section_id) : SectionData :=
  match Dict.get (write_sections e) sid with
  | Some l => section_at w l
  | None => chunk_sections_of w e sid.1.1 sid.1.2 sid.2
  end.

(** A session whose section caches refer to objects of the store, the
    write-side sections being objects of their own: distinct from one
    another and from every read-side section. *)
Definition session_wf (w : World) (e : Editor) : Prop :=
  NoDup (Dict.keys (blocks_map e)) ∧
  Forall (λ l, (l < length (sec_heap w))%nat) (Dict.values (sections e)) ∧
  Forall (λ l, (l < length (sec_heap w))%nat) (Dict.values (write_sections e)) ∧
  NoDup (Dict.values (write_sections e)) ∧
  Forall (λ l, l ∉ Dict.values (sections e)) (Dict.values (write_sections e)).

Global Instance session_wf_dec w e : Decision (session_wf w e).
Proof. unfold session_wf. apply _. Defined.

(** The number of block entities staged, over all destination chunks. *)
Definition staged_count (d : Dict.t chunk_id (list loc)) : nat :=
  sum_list (length <$> Dict.values d).

(** An editor without its pending writes; two sessions with the same
    [strip] differ at most in their pending-write buffer. *)
Definition strip (e : Editor) : Editor := set_blocks_map Dict.empty e.

(** Two states of the loops of [copy_blocks] with the same world, the same
    second editor, and sessions that agree up to their pending writes. *)
Definition copy_states_agree (st1 st2 : World * Editor * option Editor) : Prop :=
  st1.1.1 = st2.1.1 ∧ st1.2 = st2.2 ∧ strip st1.1.2 = strip st2.1.2.

(** Two worlds that differ at most in the store of entity objects. *)
Definition only_entities (w w' : World) : Prop :=
  sec_heap w' = sec_heap w ∧ disk w' = disk w ∧ trace w' = trace w.

(** A call to the storage collaborator, without the encoded chunks: a
    write is kept with the chunks it persists. *)
Inductive Call :=
  | CRegion (path : string) (rc : region_coord)
  | CReadChunk (path : string) (rc : region_coord) (cc : chunk_coord)
  | CGetChunk (path : string) (rc : region_coord) (cc : chunk_coord)
  | CWrite (path : string) (rc : region_coord) (chunk_ids : list chunk_coord).

Definition call_of (ev : Event) : Call :=
  match ev with
  | EvRegion p rc => CRegion p rc
  | EvReadChunk p rc cc => CReadChunk p rc cc
  | EvGetChunk p rc cc => CGetChunk p rc cc
  | EvWrite p rc updated_chunks => CWrite p rc (Dict.keys updated_chunks)
  end.

(** The write calls of a trace, in order. *)
Definition write_calls (t : list Event)
    : list (string * region_coord * list chunk_coord) :=
  omap (λ ev, match ev with
              | EvWrite p rc updated_chunks => Some (p, rc, Dict.keys updated_chunks)
              | _ => None
              end) t.

(** An event of the read path, for the world at [p], in a region that has
    one of the given section addresses. *)
Definition read_of (p : string) (sids : list section_id) (ev : Event) : Prop :=
  match ev with
  | EvRegion p' rc | EvReadChunk p' rc _ =>
      p' = p ∧ ∃ cc ylevel, (rc, cc, ylevel) ∈ sids
  | _ => False
  end.

(** The updates of one address applied to a section payload, in the order
    of the list. *)
Definition apply_updates (updates : list (Block * Z)) (s : SectionData)
    : SectionData :=
  foldl (λ s update i, if decide (i = update.2) then update.1 else s i) s updates.

(** The last block written to an index by a list of updates, if any. *)
Definition last_write (updates : list (Block * Z)) (index : Z) : option Block :=
  fst <$> last (filter (λ update, update.2 = index) updates).

(** The regions touched by the pending writes, each with the chunks and
    vertical levels touched in it, as the first loop of [done] groups
    them. *)
Definition regions_of (bm : Dict.t section_id (list (Block * Z)))
    : Dict.t region_coord (list (chunk_coord * Z)) :=
  foldl (λ regions item, dict_append regions item.1.1.1 (item.1.1.2, item.1.2))
        Dict.empty bm.

(** The calls of the second loop of [done]: for each region, the region is
    opened, each touched chunk is fetched, and one write persists them. *)
Definition commit_calls (p : string)
    (regions : Dict.t region_coord (list (chunk_coord * Z))) : list Call :=
  flat_map (λ item,
              let chunk_ids := Dict.keys (chunk_levels item.2) in
              CRegion p item.1 :: (CGetChunk p item.1 <$> chunk_ids)
                ++ [CWrite p item.1 chunk_ids])
           regions.

(** An event of the read path for the world at [p]: a region opened or a
    chunk read there. *)
Definition read_at (p : string) (ev : Event) : Prop :=
  match ev with
  | EvRegion p' _ | EvReadChunk p' _ _ => p' = p
  | _ => False
  end.

(** The state of the loops of a copy, against the state [(w, e, other)]
    they started from. *)
Definition copy_loop_inv (w : World) (e : Editor) (other : option Editor)
    (st : World * Editor * option Editor) : Prop :=
  (∃ evs, trace st.1.1 = trace w ++ evs ∧
          Forall (read_at (path (source_world e other))) evs) ∧
  disk st.1.1 = disk w ∧
  path st.1.2 = path e ∧ write_sections st.1.2 = write_sections e ∧
  path (source_world st.1.2 st.2) = path (source_world e other) ∧
  match other with
  | Some _ => is_Some st.2 ∧ sections st.1.2 = sections e ∧ chunks st.1.2 = chunks e
  | None => st.2 = None
  end.

(** A session in which the chunk of every write-side section is in the
    chunk cache, where [get_section] puts it. *)
Definition write_sections_cached (e : Editor) : Prop :=
  Forall (λ sid : section_id, Dict.mem (chunks e) (sid.1.1, sid.1.2) = true)
         (Dict.keys (write_sections e)).

Global Instance write_sections_cached_dec e : Decision (write_sections_cached e).
Proof. unfold write_sections_cached. apply _. Defined.

(** Whether a block entity lies in the area of a copy. *)
Definition entity_in_area (source size : Z * Z * Z) (en : Entity) : bool :=
  in_area source size (ent_x en) (ent_y en) (ent_z en).

(** A block entity moved by the shift from the source of a copy to its
    destination. *)
Definition entity_moved (source dest : Z * Z * Z) (en : Entity) : Entity :=
  mk_entity (ent_x en + (dest.1.1 - source.1.1))
            (ent_y en + (dest.1.2 - source.1.2))
            (ent_z en + (dest.2 - source.2))
            (ent_id en) (ent_payload en).

(** The chunk a block entity lies in. *)
Definition entity_chunk (chunk_extent region_chunks section_height : Z)
    (en : Entity) : chunk_id :=
  (address_of chunk_extent region_chunks section_height
     (ent_x en, ent_y en, ent_z en)).1.1.

(** The entity objects of the chunks of a chunk cache, in the order the
    entity pass of a copy meets them. *)
Definition cached_entities (chs : Dict.t chunk_id Chunk) : list loc :=
  chs ≫= (λ item, nbt_block_entities item.2).

(** The number of writes pending, over all addresses. *)
Definition pending_total (e : Editor) : nat :=
  sum_list (length <$> Dict.values (blocks_map e)).

(** A block entity displaced by a repetition offset. *)
Definition entity_shifted (r : Z * Z * Z) (en : Entity) : Entity :=
  mk_entity (ent_x en + r.1.1) (ent_y en + r.1.2) (ent_z en + r.2)
            (ent_id en) (ent_payload en).

(** The entity objects staged, in the order of the chunks and, for each
    chunk, of its list. *)
Definition staged_entities (d : Dict.t chunk_id (list loc)) : list loc :=
  d ≫= (λ item, item.2).

(** The body of [for repetition in rep] in the repetition pass, for the
    entity [orig_entity]. *)
Definition repeat_copy (chunk_extent region_chunks section_height : Z)
    (orig_entity : loc) (st : World * Dict.t chunk_id (list loc) * chunk_id)
    (repetition : Z * Z * Z) : World * Dict.t chunk_id (list loc) * chunk_id :=
  let '(w, ents, key) := st in
  let '(rx, ry, rz) := repetition in
  let '(w, entity) := deepcopy_entity w orig_entity in
  let x := ent_x (entity_at w entity) + rx in
  let y := ent_y (entity_at w entity) + ry in
  let z := ent_z (entity_at w entity) + rz in
  let '(region_coord, chunk_coord, _, _) :=
    tools.block_to_id_index chunk_extent region_chunks section_height x y z in
  let key := (region_coord, chunk_coord) in
  let w := Entity_set_pos w entity x y z in
  (w, dict_append ents key entity, key).

(** The state of the repetition pass, against the store of entity objects
    [h] it started from: the objects made so far are [news], and each of
    them that is staged is staged under the chunk it lies in. *)
Definition repetition_inv (chunk_extent region_chunks section_height : Z)
    (h news : list Entity) (w : World) (ents : Dict.t chunk_id (list loc)) : Prop :=
  ent_heap w = h ++ news ∧
  ∀ key l, l ∈ default [] (Dict.get ents key) → (length h ≤ l)%nat →
    (l < length (ent_heap w))%nat ∧
    entity_chunk chunk_extent region_chunks section_height (entity_at w l) = key.

(** ** A small world

    One region file of stone with a chest at (5, 10, 5), holding gold, and
    an editor session on it; chunks are 16 blocks wide, regions 32 chunks
    wide, sections 16 blocks high. *)

Module Example.

Definition disk : string → region_coord → chunk_coord → ChunkData :=
  λ p rc cc,
    mk_chunk_data
      (λ ylevel index,
         if decide (rc = (0, 0) ∧ cc = (0, 0) ∧ ylevel = 0 ∧ index = 2645)
         then "chest"%string else "stone"%string)
      (if decide (rc = (0, 0) ∧ cc = (0, 0))
       then [mk_entity 5 10 5 "chest" "gold"] else []).

Definition world : World := mk_world [] [] disk [].

Definition editor : Editor := Editor_init "world".

(** The chest copied 95 blocks along [x], within the same world. *)
Definition copy_chest : World * Editor :=
  copy_blocks 16 32 16 world editor (5, 10, 5) (100, 10, 5) (1, 1, 1) None None.

(** The same copy, repeated once 16 blocks further. *)
Definition copy_chest_repeated : World * Editor :=
  copy_blocks 16 32 16 world editor (5, 10, 5) (100, 10, 5) (1, 1, 1)
    (Some [(16, 0, 0)]) None.

(** The same copy, repeated once on the next block along [x]. *)
Definition copy_chest_repeated_near : World * Editor :=
  copy_blocks 16 32 16 world editor (5, 10, 5) (100, 10, 5) (1, 1, 1)
    (Some [(1, 0, 0)]) None.

(** After the copy of the chest, the copy of a stone block elsewhere. *)
Definition copy_chest_then_stone : World * Editor :=
  copy_blocks 16 32 16 copy_chest.1 copy_chest.2
    (40, 10, 5) (200, 10, 5) (1, 1, 1) None None.

(** A second world, with two chests side by side in the same chunk, at
    (5, 10, 5) holding gold and at (6, 10, 5) holding iron; both copied 95
    blocks along [x] and repeated once 16 blocks further. *)
Definition disk_two_chests : string → region_coord → chunk_coord → ChunkData :=
  λ p rc cc,
    mk_chunk_data
      (λ ylevel index, "stone"%string)
      (if decide (rc = (0, 0) ∧ cc = (0, 0))
       then [mk_entity 5 10 5 "chest" "gold"; mk_entity 6 10 5 "chest" "iron"]
       else []).

Definition copy_two_chests_repeated : World * Editor :=
  copy_blocks 16 32 16 (mk_world [] [] disk_two_chests []) editor
    (5, 10, 5) (100, 10, 5) (2, 1, 1) (Some [(16, 0, 0)]) None.

End Example.

(** * Properties *)

(** ** Dictionaries *)

Section dict_facts.
Context {K V : Type} `{EqDecision K}.
Implicit Types (d : Dict.t K V) (k : K) (v : V).

Lemma dict_get_set_eq d k v : Dict.get (Dict.set d k v) k = Some v.
Proof.
  induction d as [|[k' v'] d IH]; simpl.
  - by rewrite decide_True.
  - destruct (decide (k = k')) as [->|Hne]; simpl.
    + by rewrite decide_True.
    + by rewrite decide_False.
Qed.

Lemma dict_get_set_ne d k k' v : k ≠ k' → Dict.get (Dict.set d k v) k' = Dict.get d k'.
Proof.
  intros Hne. induction d as [|[k0 v0] d IH]; simpl.
  - by rewrite decide_False.
  - destruct (decide (k = k0)) as [->|Hk]; simpl.
    + by rewrite !decide_False.
    + by rewrite IH.
Qed.

Lemma dict_get_None_keys d k : Dict.get d k = None ↔ k ∉ Dict.keys d.
Proof.
  induction d as [|[k' v'] d IH]; simpl.
  - split; [intros _; apply not_elem_of_nil | done].
  - rewrite not_elem_of_cons. destruct (decide (k = k')) as [->|Hne].
    + split; [done | intros [? _]; done].
    + rewrite IH. split; [by split | by intros [_ ?]].
Qed.

Lemma dict_get_Some_elem d k v : Dict.get d k = Some v → (k, v) ∈ d.
Proof.
  induction d as [|[k' v'] d IH]; simpl; [done|].
  destruct (decide (k = k')) as [->|]; intros H.
  - injection H as ->. apply elem_of_cons. by left.
  - apply elem_of_cons. right. by apply IH.
Qed.

Lemma dict_elem_get_Some d k v : NoDup (Dict.keys d) → (k, v) ∈ d → Dict.get d k = Some v.
Proof.
  induction d as [|[k' v'] d IH]; simpl; intros Hnd Hin.
  - by apply elem_of_nil in Hin.
  - apply NoDup_cons in Hnd as [Hk Hnd].
    apply elem_of_cons in Hin as [Heq|Hin].
    + injection Heq as -> ->. by rewrite decide_True.
    + destruct (decide (k = k')) as [->|]; [|by apply IH].
      exfalso. apply Hk. apply list_elem_of_fmap. by exists (k', v).
Qed.

Lemma dict_keys_set_mem d k v : is_Some (Dict.get d k) → Dict.keys (Dict.set d k v) = Dict.keys d.
Proof.
  unfold Dict.keys.
  induction d as [|[k' v'] d IH]; simpl; intros [x Hx]; [done|].
  destruct (decide (k = k')); simpl; [done|].
  f_equal. apply IH. eauto.
Qed.

Lemma dict_keys_set_new d k v : Dict.get d k = None → Dict.keys (Dict.set d k v) = Dict.keys d ++ [k].
Proof.
  unfold Dict.keys.
  induction d as [|[k' v'] d IH]; simpl; intros Hx; [done|].
  destruct (decide (k = k')); simpl; [done|].
  f_equal. by apply IH.
Qed.

Lemma dict_keys_set_NoDup d k v : NoDup (Dict.keys d) → NoDup (Dict.keys (Dict.set d k v)).
Proof.
  intros Hnd. destruct (Dict.get d k) as [x|] eqn:Hg.
  - rewrite dict_keys_set_mem; eauto.
  - rewrite dict_keys_set_new by done.
    apply NoDup_app. split_and!; [done| |apply NoDup_singleton].
    intros k' Hk' ->%list_elem_of_singleton. by apply dict_get_None_keys in Hg.
Qed.
Lemma dict_get_values d k v : Dict.get d k = Some v → v ∈ Dict.values d.
Proof.
  intros Hg%dict_get_Some_elem. apply list_elem_of_fmap. by exists (k, v).
Qed.

Lemma dict_values_set_new d k v :
  Dict.get d k = None → Dict.values (Dict.set d k v) = Dict.values d ++ [v].
Proof.
  unfold Dict.values.
  induction d as [|[k' v'] d IH]; simpl; intros Hx; [done|].
  destruct (decide (k = k')); simpl; [done|].
  f_equal. by apply IH.
Qed.

Lemma dict_values_inj d k k' v :
  NoDup (Dict.values d) → Dict.get d k = Some v → Dict.get d k' = Some v → k = k'.
Proof.
  induction d as [|[k0 v0] d IH]; simpl; [done|].
  intros [Hv Hnd]%NoDup_cons.
  destruct (decide (k = k0)) as [->|], (decide (k' = k0)) as [->|];
    intros H1 H2; [done| | |by apply IH].
  - injection H1 as ->. by apply dict_get_values in H2.
  - injection H2 as ->. by apply dict_get_values in H1.
Qed.
End dict_facts.

Section dict_append_facts.
Context {K V : Type} `{EqDecision K}.
Implicit Types (d : Dict.t K (list V)) (k : K) (x : V).

Lemma dict_get_append_eq d k x :
  Dict.get (dict_append d k x) k = Some (default [] (Dict.get d k) ++ [x]).
Proof.
  unfold dict_append. destruct (Dict.get d k); simpl; apply dict_get_set_eq.
Qed.

Lemma dict_get_append_ne d k k' x :
  k ≠ k' → Dict.get (dict_append d k x) k' = Dict.get d k'.
Proof.
  intros Hne. unfold dict_append.
  destruct (Dict.get d k); by apply dict_get_set_ne.
Qed.

Lemma dict_append_keys_NoDup d k x :
  NoDup (Dict.keys d) → NoDup (Dict.keys (dict_append d k x)).
Proof.
  unfold dict_append. destruct (Dict.get d k); apply dict_keys_set_NoDup.
Qed.

Lemma dict_append_keys_elem d k k' x :
  k' ∈ Dict.keys (dict_append d k x) ↔ k' = k ∨ k' ∈ Dict.keys d.
Proof.
  unfold dict_append. destruct (Dict.get d k) as [l|] eqn:Hg.
  - rewrite dict_keys_set_mem by eauto. split; [by right|].
    intros [->|?]; [|done].
    destruct (decide (k ∈ Dict.keys d)) as [|Hn]; [done|].
    apply dict_get_None_keys in Hn. congruence.
  - rewrite dict_keys_set_new by done.
    rewrite elem_of_app, list_elem_of_singleton. tauto.
Qed.

(** Grouping a list by key with [dict_append]: under a key stand, in order,
    the values of the elements with that key. *)
Lemma dict_group_get {A} (kf : A → K) (vf : A → V) (l : list A) d k :
  Dict.get (foldl (λ d a, dict_append d (kf a) (vf a)) d l) k =
  match Dict.get d k, vf <$> filter (λ a, kf a = k) l with
  | Some vs, new => Some (vs ++ new)
  | None, [] => None
  | None, new => Some new
  end.
Proof.
  revert d. induction l as [|a l IH]; intros d; simpl.
  - destruct (Dict.get d k); by rewrite ?app_nil_r.
  - rewrite IH. rewrite filter_cons. destruct (decide (kf a = k)) as [<-|Hne].
    + rewrite dict_get_append_eq. destruct (Dict.get d (kf a)); simpl.
      * by rewrite <- app_assoc.
      * done.
    + by rewrite dict_get_append_ne.
Qed.

Lemma dict_group_keys_NoDup {A} (kf : A → K) (vf : A → V) (l : list A) d :
  NoDup (Dict.keys d) →
  NoDup (Dict.keys (foldl (λ d a, dict_append d (kf a) (vf a)) d l)).
Proof.
  revert d. induction l as [|a l IH]; intros d Hd; simpl; [done|].
  apply IH. by apply dict_append_keys_NoDup.
Qed.

Lemma dict_group_keys_elem {A} (kf : A → K) (vf : A → V) (l : list A) d k :
  k ∈ Dict.keys (foldl (λ d a, dict_append d (kf a) (vf a)) d l) ↔
  k ∈ Dict.keys d ∨ k ∈ kf <$> l.
Proof.
  revert d. induction l as [|a l IH]; intros d; simpl.
  - rewrite elem_of_nil. tauto.
  - rewrite IH, dict_append_keys_elem, elem_of_cons. tauto.
Qed.
End dict_append_facts.

(** ** The coordinate indexer *)

Section indexer_facts.
Variables (chunk_extent region_chunks section_height : Z).

Local Abbreviation region_extent := (tools.region_extent chunk_extent region_chunks).
Local Abbreviation block_to_region_chunk :=
  (tools.block_to_region_chunk chunk_extent region_chunks).
Local Abbreviation block_to_id_index :=
  (tools.block_to_id_index chunk_extent region_chunks section_height).
Local Abbreviation id_index_to_block :=
  (tools.id_index_to_block chunk_extent region_chunks section_height).
Local Abbreviation in_address_range :=
  (tools.in_address_range chunk_extent region_chunks section_height).

Hypothesis chunk_extent_pos : 0 < chunk_extent.
Hypothesis region_chunks_pos : 0 < region_chunks.
Hypothesis section_height_pos : 0 < section_height.

Lemma axis_recompose a :
  let '(r, c, b) := block_to_region_chunk a in
  r * region_extent + c * chunk_extent + b = a.
Proof.
  unfold tools.block_to_region_chunk, tools.region_extent.
  assert (Hre : 0 < region_chunks * chunk_extent) by lia.
  pose proof (Z.div_mod a (region_chunks * chunk_extent)) as H1.
  pose proof (Z.div_mod (a `mod` (region_chunks * chunk_extent)) chunk_extent) as H2.
  assert (Hmm : (a `mod` (region_chunks * chunk_extent)) `mod` chunk_extent
                = a `mod` chunk_extent).
  { rewrite (Z.mul_comm region_chunks chunk_extent).
    rewrite Z.rem_mul_r by lia.
    rewrite (Z.mul_comm chunk_extent (_ `mod` _)).
    rewrite Z.mod_add by lia. apply Z.mod_mod. lia. }
  rewrite Hmm in H2. lia.
Qed.

Lemma axis_range a :
  let '(r, c, b) := block_to_region_chunk a in
  0 <= c < region_chunks ∧ 0 <= b < chunk_extent.
Proof.
  unfold tools.block_to_region_chunk, tools.region_extent.
  assert (Hre : 0 < region_chunks * chunk_extent) by lia.
  pose proof (Z.mod_pos_bound a (region_chunks * chunk_extent) Hre) as Hb.
  split; [|apply Z.mod_pos_bound; lia].
  split; [apply Z.div_pos; lia|].
  apply Z.div_lt_upper_bound; lia.
Qed.

Lemma axis_compose r c b :
  0 <= c < region_chunks → 0 <= b < chunk_extent →
  block_to_region_chunk (r * region_extent + c * chunk_extent + b) = (r, c, b).
Proof.
  intros Hc Hb. unfold tools.block_to_region_chunk, tools.region_extent.
  assert (Hin : 0 <= c * chunk_extent + b < region_chunks * chunk_extent) by nia.
  assert (Hdiv : (r * (region_chunks * chunk_extent) + c * chunk_extent + b)
                   `div` (region_chunks * chunk_extent) = r).
  { rewrite <- Z.add_assoc, Z.add_comm, Z.div_add by lia.
    rewrite Z.div_small by lia. lia. }
  assert (Hmod : (r * (region_chunks * chunk_extent) + c * chunk_extent + b)
                   `mod` (region_chunks * chunk_extent) = c * chunk_extent + b).
  { rewrite <- Z.add_assoc, Z.add_comm, Z.mod_add by lia.
    apply Z.mod_small. lia. }
  rewrite Hdiv, Hmod. f_equal; [f_equal|].
  - rewrite Z.add_comm, Z.div_add by lia. rewrite Z.div_small by lia. lia.
  - replace (r * (region_chunks * chunk_extent) + c * chunk_extent + b)
      with (b + (r * region_chunks + c) * chunk_extent) by lia.
    rewrite Z.mod_add by lia. apply Z.mod_small. lia.
Qed.

Lemma index_decompose by_ bz bx :
  0 <= bz < chunk_extent → 0 <= bx < chunk_extent →
  let index := (by_ * chunk_extent + bz) * chunk_extent + bx in
  index `mod` chunk_extent = bx ∧
  (index `div` chunk_extent) `mod` chunk_extent = bz ∧
  index `div` (chunk_extent * chunk_extent) = by_.
Proof.
  intros Hz Hx. cbv zeta.
  assert (Hd : ((by_ * chunk_extent + bz) * chunk_extent + bx) `div` chunk_extent
               = by_ * chunk_extent + bz).
  { rewrite Z.add_comm, Z.div_add by lia. rewrite Z.div_small by lia. lia. }
  split_and!.
  - rewrite Z.add_comm, Z.mod_add by lia. apply Z.mod_small. lia.
  - rewrite Hd. rewrite Z.add_comm, Z.mod_add by lia. apply Z.mod_small. lia.
  - rewrite <- Z.div_div by lia. rewrite Hd.
    rewrite Z.add_comm, Z.div_add by lia. rewrite Z.div_small by lia. lia.
Qed.

(** C9.  Decomposing a world coordinate (negative [x] and [z] included)
    into its address and recomposing the position gives the coordinate
    back; the address lies in the address range, and every address of
    the range is the address of the position it recomposes to: the
    indexer is a bijection onto its address range. *)
Theorem address_round_trip :
  (∀ x y z, id_index_to_block (block_to_id_index x y z) = (x, y, z)) ∧
  (∀ x y z, in_address_range (block_to_id_index x y z)) ∧
  (∀ a, in_address_range a →
        let '(x, y, z) := id_index_to_block a in block_to_id_index x y z = a).
Proof.
  split_and!.
  - intros x y z. unfold tools.block_to_id_index, tools.id_index_to_block.
    pose proof (axis_recompose x) as Hx. pose proof (axis_range x) as Hxr.
    pose proof (axis_recompose z) as Hz. pose proof (axis_range z) as Hzr.
    destruct (block_to_region_chunk x) as [[rx cx] bx].
    destruct (block_to_region_chunk z) as [[rz cz] bz].
    destruct Hxr as [_ Hbx]. destruct Hzr as [_ Hbz].
    destruct (index_decompose (y `mod` section_height) bz bx Hbz Hbx)
      as (-> & -> & ->).
    rewrite Hx, Hz. do 2 f_equal.
    pose proof (Z.div_mod y section_height). lia.
  - intros x y z. unfold tools.block_to_id_index, tools.in_address_range.
    pose proof (axis_range x) as Hxr. pose proof (axis_range z) as Hzr.
    destruct (block_to_region_chunk x) as [[rx cx] bx].
    destruct (block_to_region_chunk z) as [[rz cz] bz].
    destruct Hxr as [Hcx Hbx]. destruct Hzr as [Hcz Hbz].
    pose proof (Z.mod_pos_bound y section_height section_height_pos).
    split_and!; try lia; nia.
  - intros [[[[rx rz] [cx cz]] ylevel] index] (Hcx & Hcz & Hidx).
    unfold tools.id_index_to_block, tools.block_to_id_index.
    assert (Hbx : 0 <= index `mod` chunk_extent < chunk_extent)
      by (apply Z.mod_pos_bound; lia).
    assert (Hbz : 0 <= (index `div` chunk_extent) `mod` chunk_extent < chunk_extent)
      by (apply Z.mod_pos_bound; lia).
    rewrite !axis_compose by done.
    assert (Hby : 0 <= index `div` (chunk_extent * chunk_extent) < section_height).
    { split; [apply Z.div_pos; nia|]. apply Z.div_lt_upper_bound; nia. }
    assert (Hy1 : (ylevel * section_height + index `div` (chunk_extent * chunk_extent))
                    `div` section_height = ylevel).
    { rewrite Z.add_comm, Z.div_add by lia. rewrite Z.div_small by lia. lia. }
    assert (Hy2 : (ylevel * section_height + index `div` (chunk_extent * chunk_extent))
                    `mod` section_height = index `div` (chunk_extent * chunk_extent)).
    { rewrite Z.add_comm, Z.mod_add by lia. apply Z.mod_small. lia. }
    rewrite Hy1, Hy2. f_equal.
    pose proof (Z.div_mod index chunk_extent) as H1.
    pose proof (Z.div_mod (index `div` chunk_extent) chunk_extent) as H2.
    rewrite Z.div_div in H2 by lia.
    rewrite (Z.mul_comm chunk_extent (index `div` chunk_extent)) in H1.
    rewrite (Z.mul_comm chunk_extent (index `div` (chunk_extent * chunk_extent))) in H2.
    rewrite <- H2 by lia. lia.
Qed.
End indexer_facts.

(** ** Setting up a session *)

Lemma string_app_assoc (s1 s2 s3 : string) : s1 +:+ s2 +:+ s3 = (s1 +:+ s2) +:+ s3.
Proof.
  induction s1 as [|a s1 IH]; [done|].
  change (String a (s1 +:+ s2 +:+ s3) = String a ((s1 +:+ s2) +:+ s3)).
  by rewrite IH.
Qed.

Lemma string_length_app (s1 s2 : string) :
  String.length (s1 +:+ s2) = (String.length s1 + String.length s2)%nat.
Proof. induction s1 as [|a s1 IH]; [done|]. simpl. by rewrite IH. Qed.

Lemma split_slash_cons c s :
  split_slash (String c s) =
  if Ascii.eqb c slash then EmptyString :: split_slash s
  else match split_slash s with
       | x :: xs => String c x :: xs
       | [] => [String c EmptyString]
       end.
Proof. done. Qed.

Lemma split_slash_not_nil s : split_slash s ≠ [].
Proof.
  induction s as [|c s IH]; [done|]. rewrite split_slash_cons.
  destruct (Ascii.eqb c slash); [done|]. by destruct (split_slash s).
Qed.

(** A string without separator: it is its only component. *)
Lemma split_slash_single_cons c x :
  split_slash (String c x) = [String c x] ↔
  Ascii.eqb c slash = false ∧ split_slash x = [x].
Proof.
  rewrite split_slash_cons. pose proof (split_slash_not_nil x) as Hx.
  destruct (Ascii.eqb c slash).
  - split; [by intros [=]|by intros [? _]].
  - destruct (split_slash x) as [|y ys]; [done|]. split.
    + by intros [= -> ->].
    + by intros [_ [= -> ->]].
Qed.

Lemma split_slash_components s : Forall (λ x, split_slash x = [x]) (split_slash s).
Proof.
  induction s as [|c s IH]; [by repeat constructor|]. rewrite split_slash_cons.
  destruct (Ascii.eqb c slash) eqn:Hc; [by constructor|].
  pose proof (split_slash_not_nil s) as Hne.
  destruct (split_slash s) as [|y ys]; [done|].
  apply Forall_cons in IH as [Hy Hys]. constructor; [|done].
  by apply split_slash_single_cons.
Qed.

(** Appending a string without separator extends the last component. *)
Lemma split_slash_app_single t u :
  split_slash u = [u] →
  ∃ xs x, split_slash t = xs ++ [x] ∧ split_slash (t +:+ u) = xs ++ [x +:+ u].
Proof.
  intros Hu. induction t as [|c t (xs & x & Ht & Htu)].
  - by exists [], EmptyString.
  - change (String c t +:+ u) with (String c (t +:+ u)).
    rewrite !split_slash_cons, Ht, Htu.
    destruct (Ascii.eqb c slash).
    + by exists (EmptyString :: xs), x.
    + destruct xs as [|y ys]; simpl.
      * by exists [], (String c x).
      * by exists (String c y :: ys), x.
Qed.

(** A component followed by a separator is the first component. *)
Lemma split_slash_app_sep x s :
  split_slash x = [x] → split_slash (x +:+ "/" +:+ s) = x :: split_slash s.
Proof.
  induction x as [|c x IH]; intros Hx; [done|].
  apply split_slash_single_cons in Hx as [Hc Hx].
  change (String c x +:+ "/" +:+ s) with (String c (x +:+ "/" +:+ s)).
  by rewrite split_slash_cons, Hc, IH.
Qed.

Lemma concat_cons2 x y (ys : list string) :
  String.concat "/" (x :: y :: ys) = x +:+ "/" +:+ String.concat "/" (y :: ys).
Proof. done. Qed.

Lemma split_slash_concat (parts : list string) :
  parts ≠ [] → Forall (λ x, split_slash x = [x]) parts →
  split_slash (String.concat "/" parts) = parts.
Proof.
  induction parts as [|x [|y ys] IH]; intros Hne Hall; [done| |].
  - apply Forall_cons in Hall as [Hx _]. exact Hx.
  - apply Forall_cons in Hall as [Hx Hall].
    rewrite concat_cons2, split_slash_app_sep by done. by rewrite IH.
Qed.

Lemma concat_snoc (parts : list string) y :
  ∃ t, String.concat "/" (parts ++ [y]) = t +:+ y.
Proof.
  induction parts as [|x [|x' xs] (t & IH)].
  - by exists EmptyString.
  - exists (x +:+ "/"). simpl. by rewrite string_app_assoc.
  - exists (x +:+ "/" +:+ t). change ((x :: x' :: xs) ++ [y]) with (x :: (x' :: xs) ++ [y]).
    simpl in IH |- *. rewrite IH. by rewrite !string_app_assoc.
Qed.

Lemma rev_app_spec (s acc : string) : String.rev_app s acc = String.rev s +:+ acc.
Proof.
  unfold String.rev. revert acc. induction s as [|a s IH]; intros acc; [done|].
  simpl. rewrite (IH (String a acc)), (IH (String a EmptyString)).
  by rewrite <- string_app_assoc.
Qed.

Lemma rev_app (s1 s2 : string) :
  String.rev (s1 +:+ s2) = String.rev s2 +:+ String.rev s1.
Proof.
  unfold String.rev at 1 3. generalize EmptyString.
  induction s1 as [|a s1 IH]; intros acc; simpl.
  - apply rev_app_spec.
  - rewrite IH. done.
Qed.

Lemma rev_involutive (s : string) : String.rev (String.rev s) = s.
Proof.
  induction s as [|a s IH]; [done|].
  change (String a s) with (String a EmptyString +:+ s) at 1.
  rewrite rev_app, rev_app, IH. done.
Qed.

Lemma prefix_app_iff (s1 s2 : string) :
  String.prefix s1 s2 = true ↔ ∃ t, s2 = s1 +:+ t.
Proof.
  revert s2. induction s1 as [|a s1 IH]; intros s2.
  - split; [intros _; by exists s2|]. intros _. by destruct s2.
  - destruct s2 as [|b s2]; simpl.
    + split; [done|]. by intros [t Ht].
    + destruct (Ascii.ascii_dec a b) as [->|Hne].
      * rewrite IH. split; intros [t Ht]; exists t; [by rewrite Ht|].
        by injection Ht.
      * split; [done|]. intros [t Ht]. by injection Ht.
Qed.

Lemma endswith_iff (s suffix : string) :
  endswith s suffix = true ↔ ∃ t, s = t +:+ suffix.
Proof.
  unfold endswith. rewrite prefix_app_iff. split.
  - intros [t Ht]. exists (String.rev t).
    by rewrite <- (rev_involutive s), Ht, rev_app, rev_involutive.
  - intros [t ->]. exists (String.rev t). apply rev_app.
Qed.

(** Parsing gives a normal path. *)
Lemma Path_normal_Path s : Path_normal (Path s).
Proof.
  split.
  - unfold Path, Path_root. cbn [path_root].
    repeat case_match; auto.
  - unfold Path, Path_parts. cbn [path_parts].
    pose proof (split_slash_components s) as H.
    induction H as [|x xs Hx Hxs IH]; [constructor|].
    rewrite filter_cons. case_decide; [|done]. by constructor.
Qed.

Lemma Path_div_region p :
  Path_div p "region" = mk_path (path_root p) (path_parts p ++ ["region"%string]).
Proof. reflexivity. Qed.

Lemma Path_normal_div_region p : Path_normal p → Path_normal (Path_div p "region").
Proof.
  intros [Hr Hp]. rewrite Path_div_region. split; [done|].
  cbn [path_parts]. apply Forall_app. split; [done|]. by repeat constructor.
Qed.

Lemma filter_skip_empty (l : list string) :
  filter (λ x, x ≠ EmptyString ∧ x ≠ "."%string) (EmptyString :: l)
  = filter (λ x, x ≠ EmptyString ∧ x ≠ "."%string) l.
Proof. rewrite filter_cons, decide_False; [done|]. by intros [? _]. Qed.

(** Printing a normal path and parsing it again gives the path. *)
Lemma Path_str_inv p : Path_normal p → Path (Path_str p) = p.
Proof.
  destruct p as [root parts]. intros [Hr Hp]. cbn [path_root path_parts] in *.
  unfold Path_str. cbn [path_root path_parts].
  assert (Hparts : Forall (λ x, split_slash x = [x]) parts).
  { eapply Forall_impl; [exact Hp|]. by intros x [? _]. }
  assert (Hfilter : filter (λ x, x ≠ EmptyString ∧ x ≠ "."%string) parts = parts).
  { clear -Hp. induction Hp as [|x xs [_ Hx] Hxs IH]; [done|].
    rewrite filter_cons, decide_True by done. by rewrite IH. }
  assert (Hhead : ∀ x xs, parts = x :: xs →
            ∃ c s, String.concat "/" parts = String c s ∧ Ascii.eqb c slash = false).
  { intros x xs ->. apply Forall_cons in Hp as [(Hx & Hne & _) _].
    destruct x as [|c x]; [done|]. apply split_slash_single_cons in Hx as [Hc _].
    destruct xs; [by exists c, x|]. rewrite concat_cons2. by exists c, (x +:+ "/" +:+ String.concat "/" (s :: xs)). }
  destruct parts as [|x xs].
  - by destruct Hr as [->|[->| ->]].
  - rewrite decide_False by (by intros [_ ?]).
    destruct (Hhead x xs eq_refl) as (c & s & Hcs & Hc).
    pose proof (split_slash_concat (x :: xs)) as Hsplit.
    rewrite Hcs in *.
    destruct Hr as [->|[->| ->]].
    + unfold Path, Path_root, Path_parts.
      change (EmptyString +:+ String c s) with (String c s).
      cbn [starts_slash string_tail]. rewrite Hc, Hsplit by done. by rewrite Hfilter.
    + unfold Path, Path_root, Path_parts.
      change ("/" +:+ String c s) with (String slash (String c s)).
      rewrite (split_slash_cons slash (String c s)).
      cbn [starts_slash string_tail].
      change (Ascii.eqb slash slash) with true. cbn match. rewrite Hc.
      rewrite Hsplit by done.
      rewrite filter_skip_empty. by rewrite Hfilter.
    + unfold Path, Path_root, Path_parts.
      change ("//" +:+ String c s) with (String slash (String slash (String c s))).
      rewrite (split_slash_cons slash (String slash (String c s))),
        (split_slash_cons slash (String c s)).
      cbn [starts_slash string_tail].
      change (Ascii.eqb slash slash) with true. cbn match. rewrite Hc.
      rewrite Hsplit by done.
      rewrite !filter_skip_empty. by rewrite Hfilter.
Qed.

Lemma Path_str_snoc root parts y :
  ∃ t, Path_str (mk_path root (parts ++ [y])) = t +:+ y.
Proof.
  unfold Path_str. cbn [path_root path_parts].
  rewrite decide_False by (intros [_ H]; by destruct parts).
  destruct (concat_snoc parts y) as [t ->]. exists (root +:+ t).
  by rewrite string_app_assoc.
Qed.

Lemma Path_parts_endswith t :
  ∃ ps x, Path_parts (t +:+ "region") = ps ++ [x +:+ "region"].
Proof.
  destruct (split_slash_app_single t "region" eq_refl) as (xs & x & _ & H).
  unfold Path_parts. rewrite H, filter_app, filter_cons, filter_nil.
  rewrite decide_True; [by eexists _, _|].
  split; intros Hx; apply (f_equal String.length) in Hx;
    rewrite string_length_app in Hx; simpl in Hx; lia.
Qed.

(** The region directories of some paths, as [pathlib] gives them. *)
Lemma Editor_init_examples :
  (λ p, path (Editor_init p))
    <$> [""; "world"; "world/"; "./myregion"; "/"; "//srv//w/."; "a/region/"]%string
  = ["region"; "world/region"; "world/region"; "myregion"; "/region";
     "//srv/w/region"; "a/region/region"]%string.
Proof. vm_compute. reflexivity. Qed.

(** X1. The region directory of a new editor always ends in ["region"],
    and setting up an editor on the region directory of another gives the
    same directory: the component ["region"] is appended at most once.  The
    directory is a path in normal form, printed. *)
Theorem Editor_init_path :
  (∀ p, endswith (path (Editor_init p)) "region" = true) ∧
  (∀ p, path (Editor_init (path (Editor_init p))) = path (Editor_init p)) ∧
  (∀ p, ∃ P, Path_normal P ∧ path (Editor_init p) = Path_str P).
Proof.
  assert (H3 : ∀ p, ∃ P, Path_normal P ∧ path (Editor_init p) = Path_str P).
  { intros p. unfold Editor_init. cbn [path]. destruct (endswith p "region").
    - exists (Path p). split; [apply Path_normal_Path|done].
    - exists (Path_div (Path p) "region"). split; [|done].
      apply Path_normal_div_region, Path_normal_Path. }
  assert (H1 : ∀ p, endswith (path (Editor_init p)) "region" = true).
  { intros p. unfold Editor_init. cbn [path].
    destruct (endswith p "region") eqn:He.
    - apply endswith_iff in He as [t ->].
      destruct (Path_parts_endswith t) as (ps & x & Hps).
      unfold Path. rewrite Hps.
      destruct (Path_str_snoc (Path_root (t +:+ "region")) ps (x +:+ "region"))
        as [t' ->].
      apply endswith_iff. exists (t' +:+ x). by rewrite string_app_assoc.
    - rewrite Path_div_region.
      destruct (Path_str_snoc (path_root (Path p)) (path_parts (Path p)) "region")
        as [t' ->].
      apply endswith_iff. by exists t'. }
  split_and!; [done| |done].
  intros p. destruct (H3 p) as (P & HP & Hp). specialize (H1 p).
  revert H1. rewrite Hp. intros H1.
  unfold Editor_init. cbn [path]. rewrite H1. by rewrite Path_str_inv.
Qed.

(** X2. The verbosity is clamped from above, wraps once for negative values
    and fails below: [set_verbosity] raises exactly for [verbose < -3];
    every value from 2 on selects [DEBUG], and so does -1. *)
Theorem set_verbosity_levels (verbose : Z) :
  (set_verbosity verbose = None ↔ verbose < -3) ∧
  (2 <= verbose ∨ verbose = -1 ↔ set_verbosity verbose = Some DEBUG) ∧
  (verbose = 1 ∨ verbose = -2 ↔ set_verbosity verbose = Some INFO) ∧
  (verbose = 0 ∨ verbose = -3 ↔ set_verbosity verbose = Some WARNING).
Proof.
  unfold set_verbosity, py_index.
  destruct (decide (verbose < -3)) as [Hlt|Hge].
  - rewrite Z.min_l by lia. rewrite decide_False by lia.
    rewrite decide_False by (simpl; lia). split_and!; split; try done; lia.
  - destruct (decide (2 <= verbose)) as [H2|H2].
    + rewrite Z.min_r by lia. simpl. split_and!; split; try done; try lia; auto.
    + rewrite Z.min_l by lia.
      assert (verbose = -3 ∨ verbose = -2 ∨ verbose = -1 ∨ verbose = 0 ∨ verbose = 1)
        as [->|[->|[->|[->| ->]]]] by lia;
        simpl; split_and!; split; try done; try lia; auto.
Qed.

(** ** The editor *)

Section editor_facts.
Variables (chunk_extent region_chunks section_height : Z).

Local Abbreviation index_of :=
  (tools.block_to_id_index chunk_extent region_chunks section_height).
Local Abbreviation set_block := (set_block chunk_extent region_chunks section_height).
Local Abbreviation get_block := (get_block chunk_extent region_chunks section_height).
Local Abbreviation copy_blocks :=
  (copy_blocks chunk_extent region_chunks section_height).

Local Arguments tools.block_to_id_index : simpl never.

(** Name the components of the address an indexer call computes. *)
Local Ltac destruct_index :=
  match goal with
  | |- context [tools.block_to_id_index ?a ?b ?c ?x ?y ?z] =>
      destruct (tools.block_to_id_index a b c x y z) as [[[? ?] ?] ?]
  end.

(** *** How the pending-write buffer and the read path are separated *)

(** The read path does not look at the pending-write buffer. *)
Lemma get_section_set_blocks_map w e m sid :
  get_section w (set_blocks_map m e) sid =
  let '(w', e', l) := get_section w e sid in (w', set_blocks_map m e', l).
Proof.
  destruct sid as [[rc cc] yl]. unfold get_section. simpl.
  destruct (Dict.get (chunks e) (rc, cc)); reflexivity.
Qed.

Lemma get_section_blocks_map w e sid :
  blocks_map (get_section w e sid).1.2 = blocks_map e.
Proof.
  destruct sid as [[rc cc] yl]. unfold get_section.
  destruct (Dict.get (chunks e) (rc, cc)); reflexivity.
Qed.

Lemma get_block_set_blocks_map w e m x y z :
  get_block w (set_blocks_map m e) x y z =
  let '(w', e', b) := get_block w e x y z in (w', set_blocks_map m e', b).
Proof.
  unfold get_block.
  destruct (index_of x y z) as [[[rc cc] yl] idx].
  change (sections (set_blocks_map m e)) with (sections e).
  destruct (Dict.mem (sections e) (rc, cc, yl)); [reflexivity|].
  rewrite get_section_set_blocks_map.
  destruct (get_section w e (rc, cc, yl)) as [[w' e'] l]. reflexivity.
Qed.

Lemma get_block_blocks_map w e x y z :
  blocks_map (get_block w e x y z).1.2 = blocks_map e.
Proof.
  unfold get_block.
  destruct (index_of x y z) as [[[rc cc] yl] idx].
  destruct (Dict.mem (sections e) (rc, cc, yl)); [reflexivity|].
  pose proof (get_section_blocks_map w e (rc, cc, yl)) as H.
  destruct (get_section w e (rc, cc, yl)) as [[w' e'] l]. exact H.
Qed.

(** Reading and buffering a write commute: the read gives the same block and
    leaves the same world, whether the write is buffered before or after. *)
Lemma get_block_set_block w e v x y z x' y' z' :
  get_block w (set_block e v x y z) x' y' z' =
  let '(w', e', b) := get_block w e x' y' z' in (w', set_block e' v x y z, b).
Proof.
  pose proof (get_block_blocks_map w e x' y' z') as Hbm.
  unfold set_block.
  destruct (index_of x y z) as [[[rc cc] yl] idx].
  destruct (Dict.get (blocks_map e) (rc, cc, yl)) as [l|] eqn:Hg;
    rewrite get_block_set_blocks_map;
    destruct (get_block w e x' y' z') as [[w' e'] b]; simpl in Hbm;
    rewrite Hbm, Hg; reflexivity.
Qed.

Lemma lookup_alloc {A} (h : list A) (a : A) : (h ++ [a]) !! length h = Some a.
Proof. by rewrite lookup_app_r, Nat.sub_diag. Qed.

(** C5.  After [set_block v x y z] and before the commit, [get_block x y z]
    returns what it returned without the buffered write, and leaves the
    world outside the editor as it would have; [set_block] changes neither
    the section cache nor the chunk cache, it appends to the pending
    buffer; in a new session the block returned is the stored one. *)
Theorem set_block_invisible_to_get_block :
  (∀ w e v x y z,
     (get_block w (set_block e v x y z) x y z).2 = (get_block w e x y z).2 ∧
     (get_block w (set_block e v x y z) x y z).1.1 = (get_block w e x y z).1.1) ∧
  (∀ e v x y z,
     sections (set_block e v x y z) = sections e ∧
     chunks (set_block e v x y z) = chunks e ∧
     write_sections (set_block e v x y z) = write_sections e) ∧
  (∀ w p v x y z,
     (get_block w (set_block (Editor_init p) v x y z) x y z).2 =
     stored_block chunk_extent region_chunks section_height w
       (path (Editor_init p)) x y z).
Proof.
  split_and!.
  - intros. rewrite get_block_set_block.
    by destruct (get_block w e x y z) as [[w' e'] b].
  - intros. unfold set_block.
    destruct (index_of x y z) as [[[rc cc] yl] idx].
    by destruct (Dict.get (blocks_map e) (rc, cc, yl)).
  - intros. rewrite get_block_set_block.
    unfold get_block, stored_block.
    destruct (index_of x y z) as [[[rc cc] yl] idx]. simpl.
    unfold Section_get_block, section_at. simpl.
    rewrite decide_True by done. simpl.
    rewrite (lookup_alloc (sec_heap w)). reflexivity.
Qed.

(** C8.  A copy with an empty repetition list leaves the world and the
    session (pending-write buffer, caches, staged block entities) exactly
    as the same copy without the repetitions argument. *)
Theorem copy_blocks_empty_repetitions w e source dest size world_source :
  copy_blocks w e source dest size (Some []) world_source =
  copy_blocks w e source dest size None world_source.
Proof. reflexivity. Qed.

(** *** The read path *)

Lemma set_chunks_id e : set_chunks (chunks e) e = e.
Proof. by destruct e. Qed.

(** What [get_section] does: the chunk comes from the chunk cache or, once,
    from the region; the section is a new object holding the chunk's data
    for that level. *)
Lemma get_section_spec w e rc cc yl :
  ∃ c evs es chs,
    get_section w e (rc, cc, yl) =
      (mk_world (sec_heap w ++ [nbt_sections c yl]) (ent_heap w ++ es) (disk w)
                (trace w ++ evs),
       set_chunks chs e, length (sec_heap w)) ∧
    ((Dict.get (chunks e) (rc, cc) = Some c ∧ evs = [] ∧ es = [] ∧ chs = chunks e) ∨
     (Dict.get (chunks e) (rc, cc) = None ∧
      nbt_sections c = cd_sections (disk w (path e) rc cc) ∧
      evs = [EvRegion (path e) rc; EvReadChunk (path e) rc cc] ∧
      es = cd_block_entities (disk w (path e) rc cc) ∧
      chs = Dict.set (chunks e) (rc, cc) c)).
Proof.
  unfold get_section. destruct (Dict.get (chunks e) (rc, cc)) as [c|] eqn:Hc.
  - exists c, [], [], (chunks e). split; [|by left].
    rewrite set_chunks_id, !app_nil_r. by destruct w.
  - exists (mk_chunk (cd_sections (disk w (path e) rc cc))
              (seq (length (ent_heap w))
                   (length (cd_block_entities (disk w (path e) rc cc))))).
    eexists _, _, _. split; [|right; split_and!; [done| |done..]].
    + unfold Region_read_chunk, Region, Chunk_get_section, emit, set_ent_heap,
        set_sec_heap. simpl. rewrite <- app_assoc. reflexivity.
    + reflexivity.
Qed.

Lemma foldl_invariant {A B} (P : A → Prop) (f : A → B → A) (l : list B) (a : A) :
  P a → (∀ a b, P a → P (f a b)) → P (foldl f a l).
Proof. intros Ha Hf. revert a Ha. induction l; simpl; auto. Qed.

Lemma write_calls_app t1 t2 :
  write_calls (t1 ++ t2) = write_calls t1 ++ write_calls t2.
Proof. apply omap_app. Qed.

(** *** Only the commit writes *)

Lemma get_section_write_calls w e sid :
  write_calls (trace (get_section w e sid).1.1) = write_calls (trace w).
Proof.
  destruct sid as [[rc cc] yl].
  destruct (get_section_spec w e rc cc yl) as (c & evs & es & chs & -> & H).
  simpl. rewrite write_calls_app.
  destruct H as [(_ & -> & _)|(_ & _ & -> & _)]; simpl; by rewrite app_nil_r.
Qed.

Lemma get_block_write_calls w e x y z :
  write_calls (trace (get_block w e x y z).1.1) = write_calls (trace w).
Proof.
  unfold get_block.
  destruct (index_of x y z) as [[[rc cc] yl] idx].
  destruct (Dict.mem (sections e) (rc, cc, yl)); [reflexivity|].
  pose proof (get_section_write_calls w e (rc, cc, yl)) as H.
  by destruct (get_section w e (rc, cc, yl)) as [[w' e'] l].
Qed.

Lemma copy_loop_write_calls source dest size rep st :
  write_calls (trace (copy_loop chunk_extent region_chunks section_height
                        source dest size rep st).1.1)
  = write_calls (trace st.1.1).
Proof.
  unfold copy_loop. destruct size as [[wx wy] wz].
  set (P := λ st' : World * Editor * option Editor,
              write_calls (trace st'.1.1) = write_calls (trace st.1.1)).
  apply (foldl_invariant P); [reflexivity|]. intros st1 dx H1.
  apply (foldl_invariant P); [done|]. intros st2 dy H2.
  apply (foldl_invariant P); [done|]. intros st' dz Hst'.
  unfold P in *. rewrite <- Hst'. clear. destruct st' as [[w self] other].
  unfold copy_block. destruct source as [[sx sy] sz], dest as [[tx ty] tz].
  match goal with |- context [get_block ?w ?e ?x ?y ?z] =>
    pose proof (get_block_write_calls w e x y z) as H;
    destruct (get_block w e x y z) as [[w1 src] block] end.
  by destruct (put_source_world self other src).
Qed.

(** The relocation of block entities changes the store of entity objects
    and nothing else of the world. *)
Lemma extract_entities_only_entities source dest size w chs :
  only_entities w (extract_entities chunk_extent region_chunks section_height
                     source dest size w chs).1.
Proof.
  unfold extract_entities.
  set (P := λ st' : World * Dict.t chunk_id (list loc), only_entities w st'.1).
  apply (foldl_invariant P); [done|]. intros st1 item H1.
  apply (foldl_invariant P); [done|]. intros st' en Hst'.
  unfold P in *. destruct st' as [w' ents]. unfold extract_entity.
  destruct source as [[sx sy] sz], dest as [[tx ty] tz].
  destruct (in_area _ _ _ _ _); [|done].
  by destruct_index.
Qed.

Lemma deepcopy_entities_only_entities w d :
  only_entities w (deepcopy_entities w d).1.
Proof.
  unfold deepcopy_entities.
  match goal with |- context [foldl ?f ?a ?l] =>
    assert (only_entities w (foldl f a l).1.1) as H end.
  { apply (foldl_invariant
             (λ st' : World * Dict.t loc loc * Dict.t chunk_id (list loc),
                only_entities w st'.1.1)); [done|].
    intros [[w1 memo] acc] item H1. simpl in *.
    assert (only_entities w (deepcopy_list (w1, memo) item.2).1.1) as H2.
    { unfold deepcopy_list.
      apply (foldl_invariant
               (λ st' : World * Dict.t loc loc * list loc,
                  only_entities w st'.1.1)); [done|].
      intros [[w2 memo2] acc2] en H2. simpl in *. unfold deepcopy_ref.
      by destruct (Dict.get memo2 en). }
    by destruct (deepcopy_list (w1, memo) item.2) as [[w2 memo2] l2]. }
  by destruct (foldl _ _ _) as [[w' memo'] d'].
Qed.

Lemma repeat_entities_only_entities rep w d :
  only_entities w
    (repeat_entities chunk_extent region_chunks section_height rep w d).1.
Proof.
  unfold repeat_entities.
  apply (foldl_invariant
           (λ st' : World * Dict.t chunk_id (list loc), only_entities w st'.1));
    [done|].
  intros [w1 ents] item H1. simpl.
  match goal with |- context [foldl ?f ?a ?l] =>
    assert (only_entities w (foldl f a l).1.1) as H end.
  { apply (foldl_invariant
             (λ st' : World * Dict.t chunk_id (list loc) * chunk_id,
                only_entities w st'.1.1)); [done|].
    intros [[w2 ents2] key] orig H2. unfold repeat_entity.
    apply (foldl_invariant
             (λ st' : World * Dict.t chunk_id (list loc) * chunk_id,
                only_entities w st'.1.1)); [done|].
    intros [[w3 ents3] key3] [[rx ry] rz] H3. simpl.
    try destruct_index. done. }
  by destruct (foldl _ _ _) as [[w' ents'] key'].
Qed.

(** After its reading loop, [copy_blocks] changes the store of entity
    objects and the staged entities, nothing else. *)
Lemma copy_blocks_after_loop w e source dest size rep world_source :
  ∃ other,
    let st := copy_loop chunk_extent region_chunks section_height source dest size
                rep (w, e, other) in
    only_entities st.1.1 (copy_blocks w e source dest size rep world_source).1 ∧
    ∃ ents, (copy_blocks w e source dest size rep world_source).2
            = set_entities ents st.1.2.
Proof.
  unfold copy_blocks.
  exists (if truthy_str world_source
          then Some (Editor_init (default EmptyString world_source)) else None).
  cbv zeta.
  match goal with |- context [copy_loop ?a ?b ?c ?s ?d ?sz ?r ?st] =>
    destruct (copy_loop a b c s d sz r st) as [[w1 self1] other1] end.
  match goal with |- context [extract_entities _ _ _ ?s ?d ?sz ?w ?c] =>
    pose proof (extract_entities_only_entities s d sz w c) as H2;
    destruct (extract_entities _ _ _ s d sz w c) as [w2 ents] end.
  simpl in H2. destruct (truthy_list rep); [|by eauto].
  match goal with |- context [deepcopy_entities ?w ?d] =>
    pose proof (deepcopy_entities_only_entities w d) as H3;
    destruct (deepcopy_entities w d) as [w3 copy_entities] end.
  match goal with |- context [repeat_entities _ _ _ ?r ?w ?d] =>
    pose proof (repeat_entities_only_entities r w d) as H4;
    destruct (repeat_entities _ _ _ r w d) as [w4 ents'] end.
  simpl in *. split; [|by eauto].
  destruct H2 as (? & ? & ?), H3 as (? & ? & ?), H4 as (? & ? & ?).
  unfold only_entities. split_and!; congruence.
Qed.

Lemma copy_blocks_write_calls w e source dest size rep world_source :
  write_calls (trace (copy_blocks w e source dest size rep world_source).1)
  = write_calls (trace w).
Proof.
  destruct (copy_blocks_after_loop w e source dest size rep world_source)
    as (other & (_ & _ & ->) & _).
  apply (copy_loop_write_calls source dest size rep (w, e, other)).
Qed.

(** *** The commit: applying the buffered writes *)

Lemma dict_mem_true {K V} `{EqDecision K} (d : Dict.t K V) k :
  Dict.mem d k = true → ∃ v, Dict.get d k = Some v.
Proof. unfold Dict.mem. destruct (Dict.get d k); [eauto | done]. Qed.

Lemma dict_mem_false {K V} `{EqDecision K} (d : Dict.t K V) k :
  Dict.mem d k = false → Dict.get d k = None.
Proof. unfold Dict.mem. by destruct (Dict.get d k). Qed.

(** The inner loop [for update in updates] changes one Section object, by
    the updates in the order of the list. *)
Lemma set_blocks_fold w l (updates : list (Block * Z)) :
  foldl (λ w update, Section_set_block w l update.1 update.2) w updates =
  set_sec_heap (alter (apply_updates updates) l (sec_heap w)) w.
Proof.
  revert w. induction updates as [|u us IH]; intros w; simpl.
  - unfold apply_updates. simpl. rewrite list_alter_id by done. by destruct w.
  - rewrite IH. unfold Section_set_block, set_sec_heap. simpl. f_equal.
    by rewrite list_alter_alter_eq.
Qed.

(** One iteration of the first loop of [done]: the write-side section of
    the address is the one already in [write_sections] or a new one from
    [get_section]; the updates of the address are applied to it. *)
Lemma done_section_spec w e regions rc cc yl updates :
  ∃ w1 e1 l,
    done_section (w, e, regions) ((rc, cc, yl) : section_id, updates) =
      (set_sec_heap (alter (apply_updates updates) l (sec_heap w1)) w1, e1,
       dict_append regions rc (cc, yl)) ∧
    Dict.get (write_sections e1) (rc, cc, yl) = Some l ∧
    ((Dict.get (write_sections e) (rc, cc, yl) = Some l ∧ w1 = w ∧ e1 = e) ∨
     (Dict.get (write_sections e) (rc, cc, yl) = None ∧
      ∃ e', get_section w e (rc, cc, yl) = (w1, e', l) ∧
            e1 = set_write_sections (Dict.set (write_sections e') (rc, cc, yl) l) e')).
Proof.
  unfold done_section.
  destruct (Dict.mem (write_sections e) (rc, cc, yl)) eqn:Hm.
  - apply dict_mem_true in Hm as [l Hl]. exists w, e, l.
    rewrite Hl. simpl. rewrite set_blocks_fold. split_and!; [done..|by left].
  - apply dict_mem_false in Hm.
    destruct (get_section w e (rc, cc, yl)) as [[w' e'] l] eqn:Hgs.
    exists w', (set_write_sections (Dict.set (write_sections e') (rc, cc, yl) l) e'), l.
    simpl. rewrite dict_get_set_eq. simpl. rewrite set_blocks_fold.
    split_and!; [done..|]. right. split; [done|]. by exists e'.
Qed.

Lemma read_of_mono p sids sids' ev :
  (∀ sid, sid ∈ sids → sid ∈ sids') → read_of p sids ev → read_of p sids' ev.
Proof.
  intros Hsub. destruct ev; simpl; try done;
    intros [-> (cc' & yl' & Hin)]; split; try done; exists cc', yl'; auto.
Qed.

(** The first loop of [done] only reads, and only in regions that have a
    pending write; it groups the addresses by region. *)
Lemma done_sections_trace items w e regions :
  ∃ w' e' evs,
    foldl done_section (w, e, regions) items =
      (w', e',
       foldl (λ regions item, dict_append regions item.1.1.1 (item.1.1.2, item.1.2))
             regions items) ∧
    path e' = path e ∧ blocks_map e' = blocks_map e ∧ entities e' = entities e ∧
    disk w' = disk w ∧ ent_heap w `prefix_of` ent_heap w' ∧
    trace w' = trace w ++ evs ∧ Forall (read_of (path e) (Dict.keys items)) evs.
Proof.
  revert w e regions.
  induction items as [|[sid updates] items IH]; intros w e regions.
  - exists w, e, []. simpl. by rewrite app_nil_r.
  - destruct sid as [[rc cc] yl]. cbn [foldl].
    destruct (done_section_spec w e regions rc cc yl updates)
      as (w1 & e1 & l & -> & _ & Hcase).
    match goal with |- context [foldl done_section (?w2, _, ?r) items] =>
      destruct (IH w2 e1 r) as (w' & e' & evs & -> & Hp & Hb & He & Hd & Hh & Ht & Hev)
    end.
    simpl in Hd, Hh, Ht.
    assert (path e1 = path e ∧ blocks_map e1 = blocks_map e ∧
            entities e1 = entities e ∧ disk w1 = disk w ∧
            ent_heap w `prefix_of` ent_heap w1 ∧
            ∃ evs1, trace w1 = trace w ++ evs1 ∧
                    Forall (read_of (path e) [(rc, cc, yl)]) evs1)
      as (Hp1 & Hb1 & He1 & Hd1 & Hh1 & evs1 & Ht1 & Hev1).
    { destruct Hcase as [(_ & -> & ->)|(_ & e0 & Hgs & ->)].
      - split_and!; [done..|]. exists []. by rewrite app_nil_r.
      - destruct (get_section_spec w e rc cc yl) as (c & evs1 & es & chs & Hgs' & Hc).
        rewrite Hgs' in Hgs. injection Hgs as <- <- <-. simpl.
        split_and!; [done..|by apply prefix_app_r|]. exists evs1. split; [done|].
        destruct Hc as [(_ & -> & _)|(_ & _ & -> & _)]; [constructor|].
        constructor; [|constructor; [|constructor]];
          (split; [done|]); exists cc, yl; by apply list_elem_of_singleton. }
    exists w', e', (evs1 ++ evs).
    split_and!; [done|congruence..|by etrans| |].
    + rewrite Ht, Ht1. by rewrite app_assoc.
    + apply Forall_app. split.
      * eapply Forall_impl; [exact Hev1|]. intros ev. apply read_of_mono.
        intros sid ->%list_elem_of_singleton. simpl. apply elem_of_cons. by left.
      * rewrite Hp1 in Hev. eapply Forall_impl; [exact Hev|]. intros ev.
        apply read_of_mono. intros sid Hsid. simpl. apply elem_of_cons. by right.
Qed.

(** *** The commit: writing the regions *)

Lemma done_chunk_spec e rc w upd cc (ylevels : list Z) :
  ∃ data,
    done_chunk e rc (w, upd) (cc, ylevels) =
    (emit (EvGetChunk (path e) rc cc) w, Dict.set upd cc data).
Proof. unfold done_chunk. simpl. eexists. reflexivity. Qed.

Lemma done_chunks_fold e rc (chunks : Dict.t chunk_coord (list Z)) w upd :
  ∃ upd',
    foldl (done_chunk e rc) (w, upd) chunks =
      (mk_world (sec_heap w) (ent_heap w) (disk w)
                (trace w ++ (EvGetChunk (path e) rc <$> Dict.keys chunks)),
       upd') ∧
    (NoDup (Dict.keys upd ++ Dict.keys chunks) →
     Dict.keys upd' = Dict.keys upd ++ Dict.keys chunks).
Proof.
  revert w upd. induction chunks as [|[cc yls] chunks IH]; intros w upd.
  - exists upd. simpl. rewrite !app_nil_r. split; [by destruct w|done].
  - cbn [foldl]. destruct (done_chunk_spec e rc w upd cc yls) as [data ->].
    destruct (IH (emit (EvGetChunk (path e) rc cc) w) (Dict.set upd cc data))
      as (upd' & -> & Hk).
    exists upd'. split.
    + simpl. by rewrite <- app_assoc.
    + intros Hnd. simpl in Hnd.
      assert (Dict.get upd cc = None) as Hnone.
      { apply dict_get_None_keys. intros Hin.
        apply NoDup_app in Hnd as (_ & Hdisj & _).
        apply (Hdisj cc Hin). apply elem_of_cons. by left. }
      rewrite dict_keys_set_new in Hk by done.
      rewrite Hk; simpl; rewrite <- app_assoc; done.
Qed.

Lemma chunk_levels_NoDup ids : NoDup (Dict.keys (chunk_levels ids)).
Proof. apply dict_group_keys_NoDup. constructor. Qed.

(** One region of the second loop: the region is opened, each touched
    chunk is fetched, and one write persists them all; no object of the
    store changes. *)
Lemma done_region_spec e w rc ids :
  ∃ evs,
    trace (done_region e w (rc, ids)) = trace w ++ evs ∧
    call_of <$> evs = commit_calls (path e) [(rc, ids)] ∧
    sec_heap (done_region e w (rc, ids)) = sec_heap w ∧
    ent_heap (done_region e w (rc, ids)) = ent_heap w.
Proof.
  unfold done_region.
  destruct (done_chunks_fold e rc (chunk_levels ids)
              (Region w (path e) rc) Dict.empty) as (upd & -> & Hk).
  specialize (Hk (chunk_levels_NoDup ids)). simpl in Hk.
  eexists. split_and!; [|..|done|done].
  - simpl. rewrite <- !app_assoc. reflexivity.
  - unfold commit_calls. simpl. rewrite app_nil_r, fmap_app, <- list_fmap_compose.
    simpl. by rewrite Hk.
Qed.

Lemma commit_calls_cons p item regions :
  commit_calls p (item :: regions) = commit_calls p [item] ++ commit_calls p regions.
Proof. unfold commit_calls. simpl. by rewrite app_nil_r. Qed.

Lemma done_flush_spec e regions w :
  ∃ evs,
    trace (done_flush w e regions) = trace w ++ evs ∧
    call_of <$> evs = commit_calls (path e) regions ∧
    sec_heap (done_flush w e regions) = sec_heap w ∧
    ent_heap (done_flush w e regions) = ent_heap w.
Proof.
  unfold done_flush. revert w.
  induction regions as [|[rc ids] regions IH]; intros w.
  - exists []. simpl. by rewrite app_nil_r.
  - cbn [foldl].
    destruct (done_region_spec e w rc ids) as (evs1 & Ht1 & Hc1 & Hs1 & He1).
    destruct (IH (done_region e w (rc, ids))) as (evs & Ht & Hc & Hs & He).
    exists (evs1 ++ evs). split_and!.
    + by rewrite Ht, Ht1, app_assoc.
    + rewrite fmap_app, Hc1, Hc. symmetry. apply commit_calls_cons.
    + congruence.
    + congruence.
Qed.

(** The regions of the commit are the regions of the pending writes, each
    once; the chunks of a region are the chunks of its pending writes. *)
Lemma regions_of_NoDup bm : NoDup (Dict.keys (regions_of bm)).
Proof. apply dict_group_keys_NoDup. constructor. Qed.

Lemma regions_of_keys bm rc :
  rc ∈ Dict.keys (regions_of bm) ↔ ∃ cc yl, (rc, cc, yl) ∈ Dict.keys bm.
Proof.
  unfold regions_of. rewrite dict_group_keys_elem. simpl.
  rewrite elem_of_nil, list_elem_of_fmap. split.
  - intros [[]|([[[rc' cc] yl] us] & -> & Hin)]. exists cc, yl.
    apply list_elem_of_fmap. by exists (rc', cc, yl, us).
  - intros (cc & yl & ([sid us] & Heq & Hin)%list_elem_of_fmap). right.
    simpl in Heq. subst sid. by exists (rc, cc, yl, us).
Qed.

Lemma regions_of_chunks bm rc ids cc :
  (rc, ids) ∈ regions_of bm →
  cc ∈ Dict.keys (chunk_levels ids) ↔ ∃ yl, (rc, cc, yl) ∈ Dict.keys bm.
Proof.
  intros Hin. apply dict_elem_get_Some in Hin; [|apply regions_of_NoDup].
  unfold regions_of in Hin. rewrite dict_group_get in Hin. simpl in Hin.
  match type of Hin with
  | match ?t with _ => _ end = _ =>
      assert (ids = t) as -> by (destruct t; congruence)
  end.
  clear Hin. unfold chunk_levels. rewrite dict_group_keys_elem. simpl.
  rewrite elem_of_nil, <- list_fmap_compose, list_elem_of_fmap. split.
  - intros [[]|([[[rc' cc'] yl] us] & -> & [Hrc Hin]%list_elem_of_filter)].
    simpl in *. subst rc'. exists yl. apply list_elem_of_fmap.
    by exists (rc, cc', yl, us).
  - intros (yl & ([sid us] & Heq & Hin)%list_elem_of_fmap). right.
    simpl in Heq. subst sid. exists (rc, cc, yl, us). split; [done|].
    by apply list_elem_of_filter.
Qed.

Lemma write_calls_reads p sids evs :
  Forall (read_of p sids) evs → write_calls evs = [].
Proof.
  induction 1 as [|ev evs Hev _ IH]; [done|].
  destruct ev; simpl in *; done.
Qed.

Lemma write_calls_commit p regions evs :
  call_of <$> evs = commit_calls p regions →
  write_calls evs =
  (λ item, (p, item.1, Dict.keys (chunk_levels item.2))) <$> regions.
Proof.
  assert (Hw : ∀ t, write_calls t =
            omap (λ c, match c with
                       | CWrite p rc ids => Some (p, rc, ids)
                       | _ => None
                       end) (call_of <$> t)).
  { intros t. unfold write_calls. apply list_omap_ext, Forall2_fmap_r.
    apply Forall_Forall2_diag, Forall_true. by intros []. }
  intros Hc. rewrite Hw, Hc. clear. induction regions as [|[rc ids] regions IH];
    [done|].
  rewrite (commit_calls_cons _ (rc, ids)), omap_app, IH. clear IH.
  unfold commit_calls. simpl. rewrite app_nil_r, omap_app. simpl.
  match goal with |- (?l ++ _) ++ _ = _ => assert (l = []) as -> end; [|done].
  induction (Dict.keys (chunk_levels ids)); done.
Qed.

(** The whole commit. *)
Lemma done_trace w e :
  ∃ reads evs,
    trace (done w e).1 = trace w ++ reads ++ evs ∧
    Forall (read_of (path e) (Dict.keys (blocks_map e))) reads ∧
    call_of <$> evs = commit_calls (path e) (regions_of (blocks_map e)).
Proof.
  unfold done, done_apply.
  destruct (done_sections_trace (blocks_map e) w e Dict.empty)
    as (w1 & e1 & reads & -> & Hp & _ & _ & _ & _ & Ht & Hr).
  destruct (done_flush_spec e1 (regions_of (blocks_map e)) w1)
    as (evs & Ht' & Hc & _).
  exists reads, evs. simpl. fold (regions_of (blocks_map e)).
  rewrite Ht', Ht, Hp in *. by rewrite app_assoc.
Qed.

(** C6.  The commit is the only operation that writes.  [get_block] and
    [copy_blocks] add no write call ([set_block] does not reach the storage
    at all: it is a function of the editor alone).  During [done] the
    calls are: reads in regions that have a pending write, then for each
    such region, once, the opening of the region, the fetch of each of its
    touched chunks and one write with all of them; so there is exactly one
    write per region with a pending write, and no call at all for another
    region. *)
Theorem commit_is_the_sole_writer :
  (∀ w e x y z,
     write_calls (trace (get_block w e x y z).1.1) = write_calls (trace w)) ∧
  (∀ w e source dest size rep world_source,
     write_calls (trace (copy_blocks w e source dest size rep world_source).1)
     = write_calls (trace w)) ∧
  (∀ w e, ∃ reads evs,
     trace (done w e).1 = trace w ++ reads ++ evs ∧
     Forall (read_of (path e) (Dict.keys (blocks_map e))) reads ∧
     call_of <$> evs = commit_calls (path e) (regions_of (blocks_map e)) ∧
     write_calls (trace (done w e).1) =
       write_calls (trace w) ++
       ((λ item, (path e, item.1, Dict.keys (chunk_levels item.2)))
          <$> regions_of (blocks_map e))) ∧
  (∀ bm,
     NoDup (Dict.keys (regions_of bm)) ∧
     (∀ rc, rc ∈ Dict.keys (regions_of bm) ↔
            ∃ cc yl, (rc, cc, yl) ∈ Dict.keys bm) ∧
     (∀ rc ids cc, (rc, ids) ∈ regions_of bm →
        (cc ∈ Dict.keys (chunk_levels ids) ↔ ∃ yl, (rc, cc, yl) ∈ Dict.keys bm))).
Proof.
  split_and!.
  - apply get_block_write_calls.
  - apply copy_blocks_write_calls.
  - intros w e. destruct (done_trace w e) as (reads & evs & Ht & Hr & Hc).
    exists reads, evs. split_and!; [done..|].
    rewrite Ht, !write_calls_app, (write_calls_reads _ _ _ Hr).
    by rewrite (write_calls_commit _ _ _ Hc).
  - intros bm. split_and!.
    + apply regions_of_NoDup.
    + apply regions_of_keys.
    + apply regions_of_chunks.
Qed.

(** C10.  With an empty pending-write buffer the commit does nothing: no
    region is opened, nothing is written and the world and the session are
    unchanged.  And whatever is buffered, a chunk without a buffered block
    write is in no write of the commit, so block entities staged for such
    a chunk are not persisted. *)
Theorem done_without_pending_writes :
  (∀ w e, blocks_map e = Dict.empty → done w e = (w, e)) ∧
  (∀ w e rc cc evs,
     (∀ yl, (rc, cc, yl) ∉ Dict.keys (blocks_map e)) →
     trace (done w e).1 = trace w ++ evs →
     ∀ p chunk_ids, (p, rc, chunk_ids) ∈ write_calls evs → cc ∉ chunk_ids).
Proof.
  split.
  - intros w e He. unfold done, done_apply, done_flush. rewrite He. done.
  - intros w e rc cc evs Hnone Ht p chunk_ids Hin Hcc.
    destruct (done_trace w e) as (reads & evs' & Ht' & Hr & Hc).
    rewrite Ht' in Ht. apply app_inv_head in Ht. subst evs.
    rewrite write_calls_app, (write_calls_reads _ _ _ Hr) in Hin.
    rewrite (write_calls_commit _ _ _ Hc) in Hin. simpl in Hin.
    apply list_elem_of_fmap in Hin as ([rc' ids] & Heq & Hin).
    simpl in Heq. injection Heq as -> -> ->.
    apply (regions_of_chunks _ _ _ cc Hin) in Hcc as [yl Hyl].
    by apply (Hnone yl).
Qed.

(** *** The commit and the store of Section objects *)

Lemma section_at_alter_eq w f l :
  (l < length (sec_heap w))%nat →
  section_at (set_sec_heap (alter f l (sec_heap w)) w) l = f (section_at w l).
Proof.
  intros Hl. unfold section_at, set_sec_heap. cbn [sec_heap].
  rewrite list_lookup_alter_eq.
  destruct (sec_heap w !! l) eqn:E; [done|]. apply lookup_ge_None in E. lia.
Qed.

Lemma section_at_alter_ne w f l l' :
  l ≠ l' → section_at (set_sec_heap (alter f l (sec_heap w)) w) l' = section_at w l'.
Proof.
  intros Hl. unfold section_at, set_sec_heap. cbn [sec_heap].
  by rewrite list_lookup_alter_ne.
Qed.

(** What a read returns is the read view of the address. *)
Lemma get_block_read_view w e x y z :
  (get_block w e x y z).2 =
  let '(rc, cc, yl, idx) := index_of x y z in read_view w e (rc, cc, yl) idx.
Proof.
  unfold get_block, read_view, Dict.mem.
  destruct (index_of x y z) as [[[rc cc] yl] idx].
  destruct (Dict.get (sections e) (rc, cc, yl)) as [l|] eqn:Hs.
  - simpl. by rewrite Hs.
  - destruct (get_section_spec w e rc cc yl) as (c & evs & es & chs & -> & Hc).
    simpl. rewrite dict_get_set_eq. simpl.
    unfold Section_get_block, section_at. simpl. rewrite lookup_alloc. simpl.
    unfold chunk_sections_of.
    by destruct Hc as [(-> & _)|(-> & -> & _)].
Qed.

Lemma Forall_lt_not_elem (l : list nat) (n : nat) :
  Forall (λ x, (x < n)%nat) l → n ∉ l.
Proof.
  intros H Hin. rewrite Forall_forall in H. specialize (H n Hin). lia.
Qed.

(** One iteration of the first loop of [done] on a well-formed session. *)
Lemma done_section_step w e regions rc cc yl updates :
  session_wf w e →
  ∃ w2 e2 l,
    done_section (w, e, regions) ((rc, cc, yl) : section_id, updates) =
      (w2, e2, dict_append regions rc (cc, yl)) ∧
    session_wf w2 e2 ∧
    sections e2 = sections e ∧ blocks_map e2 = blocks_map e ∧
    (∀ rc' cc',
       chunk_sections_of w2 e2 rc' cc' = chunk_sections_of w e rc' cc') ∧
    Dict.get (write_sections e2) (rc, cc, yl) = Some l ∧
    (∀ sid', sid' ≠ (rc, cc, yl) →
       Dict.get (write_sections e2) sid' = Dict.get (write_sections e) sid') ∧
    section_at w2 l = apply_updates updates (write_view w e (rc, cc, yl)) ∧
    (∀ l', l' ≠ l → (l' < length (sec_heap w))%nat →
       section_at w2 l' = section_at w l').
Proof.
  intros (Hbm & Hrd & Hwr & Hnd & Hdisj).
  destruct (done_section_spec w e regions rc cc yl updates)
    as (w1 & e1 & l & -> & Hl & [(Hl0 & -> & ->)|(Hl0 & e' & Hgs & ->)]).
  - (* the write-side section exists already *)
    assert (Hlt : (l < length (sec_heap w))%nat).
    { rewrite Forall_forall in Hwr. apply Hwr. by eapply dict_get_values. }
    eexists _, e, l. split; [reflexivity|].
    split_and!; [|done..| |].
    + unfold session_wf. simpl. by rewrite length_alter.
    + rewrite section_at_alter_eq by done. unfold write_view. by rewrite Hl0.
    + intros l' Hne _. by apply section_at_alter_ne.
  - (* it is derived from the chunk *)
    destruct (get_section_spec w e rc cc yl) as (c & evs & es & chs & Hgs' & Hc).
    rewrite Hgs' in Hgs. injection Hgs as <- <- <-.
    eexists _, _, _. split; [reflexivity|]. simpl.
    assert (Hfresh : length (sec_heap w) ∉ Dict.values (write_sections e))
      by by apply Forall_lt_not_elem.
    assert (Hfresh' : length (sec_heap w) ∉ Dict.values (sections e))
      by by apply Forall_lt_not_elem.
    split_and!; [|done|done| | | | |].
    + unfold session_wf. simpl.
      rewrite length_alter, length_app, dict_values_set_new by done. simpl.
      split_and!; [done| | | |].
      * eapply Forall_impl; [exact Hrd|]. simpl. lia.
      * apply Forall_app. split; [|by constructor; [lia|]].
        eapply Forall_impl; [exact Hwr|]. simpl. lia.
      * apply NoDup_app. split_and!; [done| |apply NoDup_singleton].
        by intros x Hx ->%list_elem_of_singleton.
      * apply Forall_app. split; [done|]. by constructor.
    + intros rc' cc'. unfold chunk_sections_of. simpl.
      destruct Hc as [(_ & _ & _ & ->)|(Hnone & Hdata & _ & _ & ->)]; [done|].
      destruct (decide ((rc, cc) = (rc', cc'))) as [Heq|Hne].
      * injection Heq as <- <-. by rewrite dict_get_set_eq, Hnone, Hdata.
      * by rewrite dict_get_set_ne.
    + apply dict_get_set_eq.
    + intros sid' Hne. by apply dict_get_set_ne.
    + unfold section_at at 1. unfold set_sec_heap. cbn [sec_heap].
      rewrite list_lookup_alter_eq, lookup_alloc. simpl.
      unfold write_view. rewrite Hl0. unfold chunk_sections_of. simpl.
      by destruct Hc as [(-> & _)|(-> & -> & _)].
    + intros l' Hne Hlt. unfold section_at, set_sec_heap. cbn [sec_heap].
      rewrite list_lookup_alter_ne by done. by rewrite lookup_app_l.
Qed.

(** The first loop of [done] on a well-formed session: the read views are
    untouched, and the write view of an address has received the updates
    buffered for it, in their order. *)
Lemma done_sections_views items w e regions :
  session_wf w e → NoDup (Dict.keys items) →
  ∃ w' e' regions',
    foldl done_section (w, e, regions) items = (w', e', regions') ∧
    session_wf w' e' ∧
    sections e' = sections e ∧ blocks_map e' = blocks_map e ∧
    (∀ sid, read_view w' e' sid = read_view w e sid) ∧
    (∀ sid, write_view w' e' sid =
            match Dict.get items sid with
            | Some updates => apply_updates updates (write_view w e sid)
            | None => write_view w e sid
            end) ∧
    (∀ sid, sid ∈ Dict.keys items ∨ is_Some (Dict.get (write_sections e) sid) →
            is_Some (Dict.get (write_sections e') sid)).
Proof.
  revert w e regions.
  induction items as [|[sid updates] items IH]; intros w e regions Hwf Hnd.
  - exists w, e, regions. split_and!; try done.
    intros sid [Hin|?]; [|done]. by apply elem_of_nil in Hin.
  - destruct sid as [[rc cc] yl]. cbn [foldl].
    simpl in Hnd. apply NoDup_cons in Hnd as [Hnotin Hnd].
    destruct (done_section_step w e regions rc cc yl updates Hwf)
      as (w2 & e2 & l & -> & Hwf2 & Hs2 & Hb2 & Hch & Hl & Hoth & Hat & Hframe).
    destruct (IH w2 e2 (dict_append regions rc (cc, yl)) Hwf2 Hnd)
      as (w' & e' & regions' & -> & Hwf' & Hs' & Hb' & Hrv & Hwv & Hsome).
    exists w', e', regions'. split; [done|].
    pose proof Hwf as (_ & Hrd & Hwr & _ & _).
    pose proof Hwf2 as (_ & _ & _ & Hnd2 & Hdisj2).
    split_and!; [done|congruence|congruence| | |].
    + (* read views *)
      intros sid. rewrite Hrv. unfold read_view. rewrite Hs2.
      destruct (Dict.get (sections e) sid) as [lr|] eqn:Hlr; [|by rewrite Hch].
      apply dict_get_values in Hlr as Hin. apply Hframe.
      * intros ->. rewrite Forall_forall in Hdisj2.
        apply (Hdisj2 l); [by eapply dict_get_values|by rewrite Hs2].
      * rewrite Forall_forall in Hrd. by apply Hrd.
    + (* write views *)
      intros sid. rewrite Hwv. simpl.
      destruct (decide (sid = (rc, cc, yl))) as [->|Hne].
      * apply dict_get_None_keys in Hnotin. rewrite Hnotin.
        unfold write_view at 1. by rewrite Hl.
      * assert (write_view w2 e2 sid = write_view w e sid) as ->; [|done].
        unfold write_view. rewrite (Hoth sid Hne).
        destruct (Dict.get (write_sections e) sid) as [l'|] eqn:Hl'; [|by rewrite Hch].
        apply Hframe.
        -- intros ->. apply Hne.
           eapply (dict_values_inj (write_sections e2)); [done| |done].
           by rewrite (Hoth sid Hne).
        -- rewrite Forall_forall in Hwr. apply Hwr. by eapply dict_get_values.
    + intros sid Hsid. apply Hsome.
      destruct (decide (sid = (rc, cc, yl))) as [->|Hne]; [right; by rewrite Hl|].
      rewrite (Hoth sid Hne).
      destruct Hsid as [Hin|?]; [|by right]. left.
      simpl in Hin. apply elem_of_cons in Hin as [?|?]; done.
Qed.

Lemma done_apply_views w e :
  session_wf w e →
  session_wf (done_apply w e).1.1 (done_apply w e).1.2 ∧
  sections (done_apply w e).1.2 = sections e ∧
  (∀ sid, read_view (done_apply w e).1.1 (done_apply w e).1.2 sid = read_view w e sid) ∧
  (∀ sid, write_view (done_apply w e).1.1 (done_apply w e).1.2 sid =
          match Dict.get (blocks_map e) sid with
          | Some updates => apply_updates updates (write_view w e sid)
          | None => write_view w e sid
          end) ∧
  (∀ sid, sid ∈ Dict.keys (blocks_map e) →
          is_Some (Dict.get (write_sections (done_apply w e).1.2) sid)).
Proof.
  intros Hwf. unfold done_apply.
  destruct (done_sections_views (blocks_map e) w e Dict.empty Hwf)
    as (w' & e' & regions' & -> & Hwf' & Hs & _ & Hrv & Hwv & Hsome);
    [by destruct Hwf|].
  simpl. split_and!; try done. intros sid Hin. apply Hsome. by left.
Qed.

Lemma done_sec_heap w e :
  sec_heap (done w e).1 = sec_heap (done_apply w e).1.1.
Proof.
  unfold done. destruct (done_apply w e) as [[w1 e1] regions]. simpl.
  by destruct (done_flush_spec e1 regions w1) as (evs & _ & _ & -> & _).
Qed.

(** C2.  In a well-formed session, the section the commit writes to is
    for no address an object of the read-side section cache, and applying
    the buffered writes changes no read: before the regions are written,
    [get_block] returns at every coordinate what it returned before the
    commit; the sections of the read cache keep their blocks through the
    whole commit.  The session stays well-formed. *)
Theorem write_sections_independent w e (Hwf : session_wf w e) :
  session_wf (done_apply w e).1.1 (done_apply w e).1.2 ∧
  (∀ sid, sid ∈ Dict.keys (blocks_map e) →
     ∃ l, Dict.get (write_sections (done_apply w e).1.2) sid = Some l ∧
          l ∉ Dict.values (sections (done_apply w e).1.2)) ∧
  (∀ x y z,
     (get_block (done_apply w e).1.1 (done_apply w e).1.2 x y z).2 =
     (get_block w e x y z).2) ∧
  (∀ sid l index, Dict.get (sections e) sid = Some l →
     Section_get_block (done w e).1 l index = Section_get_block w l index).
Proof.
  destruct (done_apply_views w e Hwf) as (Hwf' & Hs & Hrv & Hwv & Hsome).
  split_and!; [done| | |].
  - intros sid Hin. destruct (Hsome sid Hin) as [l Hl]. exists l. split; [done|].
    destruct Hwf' as (_ & _ & _ & _ & Hdisj). rewrite Forall_forall in Hdisj.
    apply Hdisj. by eapply dict_get_values.
  - intros x y z. rewrite !get_block_read_view.
    destruct (index_of x y z) as [[[rc cc] yl] idx]. by rewrite Hrv.
  - intros sid l index Hl. specialize (Hrv sid). unfold read_view in Hrv.
    rewrite Hs, Hl in Hrv. unfold Section_get_block, section_at in *.
    by rewrite done_sec_heap, Hrv.
Qed.

(** *** The order of the buffered writes *)

(** Last write wins: applying a list of updates leaves at each index the
    block of the last update for that index, and the old block where there
    is none. *)
Lemma apply_updates_last_write updates s index :
  apply_updates updates s index = default (s index) (last_write updates index).
Proof.
  unfold apply_updates, last_write.
  induction updates as [|u updates IH] using rev_ind; [done|].
  rewrite foldl_app, filter_app. simpl. rewrite filter_cons, filter_nil.
  destruct (decide (index = u.2)) as [->|Hne].
  - rewrite decide_True by done. by rewrite last_snoc.
  - rewrite decide_False by done. by rewrite app_nil_r.
Qed.

(** [set_block] appends to the list of its address and to no other. *)
Lemma set_block_blocks_map e block x y z :
  let '(rc, cc, yl, index) := index_of x y z in
  Dict.get (blocks_map (set_block e block x y z)) (rc, cc, yl) =
    Some (default [] (Dict.get (blocks_map e) (rc, cc, yl)) ++ [(block, index)]) ∧
  ∀ sid, sid ≠ (rc, cc, yl) →
    Dict.get (blocks_map (set_block e block x y z)) sid = Dict.get (blocks_map e) sid.
Proof.
  unfold set_block.
  destruct (index_of x y z) as [[[rc cc] yl] index].
  destruct (Dict.get (blocks_map e) (rc, cc, yl)) as [l|] eqn:Hg; simpl;
    (split; [apply dict_get_set_eq|intros sid Hne; by apply dict_get_set_ne]).
Qed.


(** *** Every session is well-formed *)

Lemma session_wf_mono w w' e :
  session_wf w e → (length (sec_heap w) ≤ length (sec_heap w'))%nat →
  session_wf w' e.
Proof.
  intros (Hbm & Hrd & Hwr & Hnd & Hdisj) Hlen. split_and!; try done.
  - eapply Forall_impl; [exact Hrd|]. simpl. lia.
  - eapply Forall_impl; [exact Hwr|]. simpl. lia.
Qed.

Lemma get_block_sec_heap_length w e x y z :
  (length (sec_heap w) ≤ length (sec_heap (get_block w e x y z).1.1))%nat.
Proof.
  unfold get_block. destruct (index_of x y z) as [[[rc cc] yl] idx].
  destruct (Dict.mem (sections e) (rc, cc, yl)); [done|].
  destruct (get_section_spec w e rc cc yl) as (c & evs & es & chs & -> & _).
  simpl. rewrite length_app. lia.
Qed.

Lemma get_block_wf w e x y z :
  session_wf w e →
  session_wf (get_block w e x y z).1.1 (get_block w e x y z).1.2.
Proof.
  intros Hwf. unfold get_block.
  destruct (index_of x y z) as [[[rc cc] yl] idx].
  destruct (Dict.mem (sections e) (rc, cc, yl)) eqn:Hm; [done|].
  apply dict_mem_false in Hm.
  destruct (get_section_spec w e rc cc yl) as (c & evs & es & chs & -> & _).
  destruct Hwf as (Hbm & Hrd & Hwr & Hnd & Hdisj).
  unfold session_wf. simpl. rewrite length_app, dict_values_set_new by done.
  simpl. split_and!; [done| | |done|].
  - apply Forall_app. split; [|by constructor; [lia|]].
    eapply Forall_impl; [exact Hrd|]. simpl. lia.
  - eapply Forall_impl; [exact Hwr|]. simpl. lia.
  - rewrite Forall_forall in Hdisj, Hwr |- *. intros l Hl.
    rewrite not_elem_of_app, list_elem_of_singleton. split; [by apply Hdisj|].
    specialize (Hwr l Hl). simpl in Hwr. lia.
Qed.

Lemma set_block_wf w e block x y z :
  session_wf w e → session_wf w (set_block e block x y z).
Proof.
  intros (Hbm & Hrd & Hwr & Hnd & Hdisj). unfold set_block.
  destruct (index_of x y z) as [[[rc cc] yl] idx].
  destruct (Dict.get (blocks_map e) (rc, cc, yl));
    (split_and!; [by apply dict_keys_set_NoDup|done..]).
Qed.

Lemma copy_loop_wf source dest size rep w e other :
  session_wf w e →
  let st := copy_loop chunk_extent region_chunks section_height source dest size
              rep (w, e, other) in
  session_wf st.1.1 st.1.2.
Proof.
  intros Hwf. cbv zeta. unfold copy_loop. destruct size as [[wx wy] wz].
  set (P := λ st' : World * Editor * option Editor, session_wf st'.1.1 st'.1.2).
  apply (foldl_invariant P); [done|]. intros st1 dx H1.
  apply (foldl_invariant P); [done|]. intros st2 dy H2.
  apply (foldl_invariant P); [done|]. intros [[w' self] other'] dz Hst'.
  unfold P in *. simpl in Hst'. clear -Hst'.
  unfold copy_block. destruct source as [[sx sy] sz], dest as [[tx ty] tz].
  match goal with |- context [get_block ?w ?e ?x ?y ?z] =>
    pose proof (get_block_sec_heap_length w e x y z) as Hlen;
    pose proof (get_block_wf w e x y z) as Hg;
    destruct (get_block w e x y z) as [[w1 src] block] end.
  simpl in Hlen, Hg.
  assert (session_wf w1 (put_source_world self other' src).1) as Hself.
  { destruct other'; simpl in *; [by eapply session_wf_mono|by apply Hg]. }
  destruct (put_source_world self other' src) as [self1 other1]. simpl in *.
  destruct (truthy_list rep); [|by apply set_block_wf].
  apply (foldl_invariant (session_wf w1)); [done|].
  intros s [[rx ry] rz] Hs. by apply set_block_wf.
Qed.

Lemma copy_blocks_wf w e source dest size rep world_source :
  session_wf w e →
  session_wf (copy_blocks w e source dest size rep world_source).1
             (copy_blocks w e source dest size rep world_source).2.
Proof.
  intros Hwf.
  destruct (copy_blocks_after_loop w e source dest size rep world_source)
    as (other & (Hh & _ & _) & ents & ->).
  pose proof (copy_loop_wf source dest size rep w e other Hwf) as H.
  cbv zeta in *. unfold session_wf in *. simpl. by rewrite Hh.
Qed.

Lemma done_wf w e : session_wf w e → session_wf (done w e).1 (done w e).2.
Proof.
  intros Hwf. destruct (done_apply_views w e Hwf) as (Hwf' & _).
  unfold session_wf. rewrite done_sec_heap.
  unfold done. by destruct (done_apply w e) as [[w1 e1] regions].
Qed.

(** The sessions of an editor are well-formed. *)
Lemma session_session_wf w e :
  session chunk_extent region_chunks section_height w e → session_wf w e.
Proof.
  induction 1.
  - unfold session_wf, Editor_init. simpl. split_and!; constructor.
  - by apply get_block_wf.
  - by apply set_block_wf.
  - by apply copy_blocks_wf.
  - by apply done_wf.
Qed.

(** *** What a copy buffers *)

Local Abbreviation address_of :=
  (address_of chunk_extent region_chunks section_height).
Local Abbreviation copy_block :=
  (copy_block chunk_extent region_chunks section_height).
Local Abbreviation copy_loop :=
  (copy_loop chunk_extent region_chunks section_height).

Lemma foldl_bind {A B C} (f : A → B → A) (g : C → list B) (l : list C) (a : A) :
  foldl f a (l ≫= g) = foldl (λ a c, foldl f a (g c)) a l.
Proof.
  revert a. induction l as [|c l IH]; intros a; [done|].
  rewrite bind_cons, foldl_app. apply IH.
Qed.

Lemma foldl_ext_all {A B} (f g : A → B → A) (l : list B) (a : A) :
  (∀ a b, f a b = g a b) → foldl f a l = foldl g a l.
Proof.
  intros Hfg. revert a. induction l as [|b l IH]; intros a; [done|].
  simpl. by rewrite Hfg, IH.
Qed.

(** The three nested loops visit the offsets of the cuboid in order. *)
Lemma copy_loop_cuboid source dest size rep st :
  copy_loop source dest size rep st =
  foldl (λ st d, copy_block source dest rep st d.1.1 d.1.2 d.2) st (cuboid size).
Proof.
  unfold copy_loop, cuboid. destruct size as [[wx wy] wz]. simpl.
  rewrite foldl_bind. apply foldl_ext_all. intros st1 dx.
  rewrite foldl_bind. apply foldl_ext_all. intros st2 dy.
  rewrite foldl_bind. apply foldl_ext_all. intros st3 dz. done.
Qed.

Lemma pending_at_set_block e block x y z a :
  pending_at (set_block e block x y z) a =
  (pending_at e a + if decide (address_of (x, y, z) = a) then 1 else 0)%nat.
Proof.
  pose proof (set_block_blocks_map e block x y z) as H.
  unfold pending_at, address_of. cbn [fst snd].
  destruct (index_of x y z) as [[[rc cc] yl] index]. destruct H as [Heq Hne].
  destruct a as [sid idx]. cbn [fst snd].
  destruct (decide ((rc, cc, yl) = sid)) as [<-|Hsid].
  - rewrite Heq. cbn [default from_option id].
    rewrite filter_app, length_app, filter_cons, filter_nil.
    cbn [snd]. destruct (decide (index = idx)) as [->|Hidx].
    + by rewrite decide_True.
    + rewrite decide_False by congruence. done.
  - rewrite Hne by done. rewrite decide_False by congruence. lia.
Qed.

Lemma set_blocks_pending block tx ty tz (l : list (Z * Z * Z)) e a :
  pending_at (foldl (λ s '(rx, ry, rz), set_block s block (tx + rx) (ty + ry) (tz + rz))
                    e l) a =
  (pending_at e a +
   length (filter (λ c, address_of c = a)
                  (r ← l; [(tx + r.1.1, ty + r.1.2, tz + r.2)%Z])))%nat.
Proof.
  revert e. induction l as [|[[rx ry] rz] l IH]; intros e.
  - simpl. lia.
  - cbn [foldl]. rewrite IH, pending_at_set_block, bind_cons.
    rewrite filter_app, length_app, filter_cons, filter_nil. cbn [fst snd].
    destruct (decide (address_of (tx + rx, ty + ry, tz + rz) = a)); simpl; lia.
Qed.

(** One iteration of the loops buffers one write per write offset. *)
Lemma copy_block_pending source dest rep w self other dx dy dz a :
  pending_at (copy_block source dest rep (w, self, other) dx dy dz).1.2 a =
  (pending_at self a +
   length (filter (λ c, address_of c = a)
                  (r ← write_offsets rep;
                   [(dest.1.1 + dx + r.1.1, dest.1.2 + dy + r.1.2,
                     dest.2 + dz + r.2)%Z])))%nat.
Proof.
  unfold copy_block.
  destruct source as [[sx sy] sz], dest as [[tx ty] tz]. cbn [fst snd].
  match goal with |- context [get_block ?w ?e ?x ?y ?z] =>
    pose proof (get_block_blocks_map w e x y z) as Hbm;
    destruct (get_block w e x y z) as [[w1 src] block] end.
  simpl in Hbm.
  assert (Hself : ∀ e, blocks_map e = blocks_map self →
                       pending_at e a = pending_at self a).
  { intros e He. unfold pending_at. by rewrite He. }
  assert (Hself1 : pending_at (put_source_world self other src).1 a
                   = pending_at self a).
  { apply Hself. by destruct other. }
  destruct (put_source_world self other src) as [self1 other1].
  cbn [fst snd] in *. unfold write_offsets.
  destruct (truthy_list rep).
  - by rewrite set_blocks_pending, Hself1.
  - rewrite pending_at_set_block, Hself1, bind_cons. simpl mbind.
    rewrite app_nil_r, filter_cons, filter_nil. cbn [fst snd]. rewrite !Z.add_0_r.
    destruct (decide (address_of (tx + dx, ty + dy, tz + dz) = a)); simpl; lia.
Qed.

Lemma copy_loop_pending source dest size rep w self other a :
  pending_at (copy_loop source dest size rep (w, self, other)).1.2 a =
  (pending_at self a +
   length (filter (λ c, address_of c = a) (copy_targets dest size rep)))%nat.
Proof.
  rewrite copy_loop_cuboid. unfold copy_targets.
  revert w self other. induction (cuboid size) as [|d ds IH]; intros w self other.
  - simpl. lia.
  - cbn [foldl].
    pose proof (copy_block_pending source dest rep w self other d.1.1 d.1.2 d.2 a)
      as Hd.
    destruct (copy_block source dest rep (w, self, other) d.1.1 d.1.2 d.2)
      as [[w1 self1] other1].
    rewrite IH, bind_cons, filter_app, length_app. cbn [fst snd] in Hd.
    rewrite Hd. lia.
Qed.

(** The writes a copy buffers: at every address, there is one more pending
    write for each coordinate of [copy_targets] with that address. *)
Lemma copy_blocks_pending w e source dest size rep world_source a :
  pending_at (copy_blocks w e source dest size rep world_source).2 a =
  (pending_at e a +
   length (filter (λ c, address_of c = a) (copy_targets dest size rep)))%nat.
Proof.
  destruct (copy_blocks_after_loop w e source dest size rep world_source)
    as (other & _ & ents & ->).
  cbv zeta. rewrite <- (copy_loop_pending source dest size rep w e other a).
  reflexivity.
Qed.

(** *** What a copy stages *)

Lemma dict_append_unfold {K V} `{EqDecision K} (d : Dict.t K (list V)) k x :
  dict_append d k x =
  match d with
  | [] => [(k, [x])]
  | (k', l') :: d' =>
      if decide (k = k') then (k', l' ++ [x]) :: d' else (k', l') :: dict_append d' k x
  end.
Proof.
  destruct d as [|[k' l'] d']; [done|]. unfold dict_append. simpl.
  destruct (decide (k = k')) as [->|Hne]; simpl.
  - by rewrite ?decide_True.
  - destruct (Dict.get d' k); simpl; by rewrite ?decide_False.
Qed.

Lemma staged_count_cons k (l : list loc) d :
  staged_count ((k, l) :: d) = (length l + staged_count d)%nat.
Proof. done. Qed.

Lemma staged_count_append d k (x : loc) :
  staged_count (dict_append d k x) = S (staged_count d).
Proof.
  induction d as [|[k' l'] d IH]; rewrite dict_append_unfold; [done|].
  destruct (decide (k = k')); rewrite !staged_count_cons.
  - rewrite length_app. simpl. lia.
  - rewrite IH. lia.
Qed.

Lemma staged_count_app (d1 d2 : Dict.t chunk_id (list loc)) :
  staged_count (d1 ++ d2) = (staged_count d1 + staged_count d2)%nat.
Proof. unfold staged_count, Dict.values. by rewrite !fmap_app, sum_list_with_app. Qed.

Lemma deepcopy_list_length st l : length (deepcopy_list st l).2 = length l.
Proof.
  unfold deepcopy_list.
  assert (H : ∀ acc, length (foldl (λ '(st, acc) entity,
                         let '(st', entity') := deepcopy_ref st entity in
                         (st', acc ++ [entity'])) (st, acc) l).2
                     = (length acc + length l)%nat); [|by rewrite H].
  revert st. induction l as [|en l IH]; intros st acc; simpl; [lia|].
  destruct (deepcopy_ref st en) as [st' en']. rewrite IH, length_app. simpl. lia.
Qed.

(** The deep copy of the staged entities has as many entities. *)
Lemma deepcopy_entities_count w d :
  staged_count (deepcopy_entities w d).2 = staged_count d.
Proof.
  unfold deepcopy_entities.
  assert (H : ∀ st acc,
            staged_count (foldl (λ '(st, acc) (item : chunk_id * list loc),
                             let '(st', l') := deepcopy_list st item.2 in
                             (st', acc ++ [(item.1, l')])) (st, acc) d).2
            = (staged_count acc + staged_count d)%nat).
  { induction d as [|[k l] d IH]; intros st acc; simpl.
    - change (staged_count []) with 0%nat. lia.
    - pose proof (deepcopy_list_length st l) as Hl.
      destruct (deepcopy_list st l) as [st' l']. simpl in Hl.
      cbn [fst]. rewrite IH, staged_count_app, !staged_count_cons, Hl.
      change (staged_count []) with 0%nat. lia. }
  specialize (H (w, Dict.empty) []).
  destruct (foldl _ _ d) as [[w' memo] d']. simpl in *. rewrite H.
  by change (staged_count []) with 0%nat.
Qed.

(** Each entity of the copy is staged again, followed by one new entity
    per repetition. *)
Lemma repeat_entity_count rep w ents key orig :
  staged_count (repeat_entity chunk_extent region_chunks section_height rep
                  (w, ents, key) orig).1.2
  = (staged_count ents + (1 + length rep))%nat.
Proof.
  unfold repeat_entity.
  assert (H : ∀ w ents key,
            staged_count
              (foldl (λ '(w, ents, key) '(rx, ry, rz),
                 let '(w, entity) := deepcopy_entity w orig in
                 let x := ent_x (entity_at w entity) + rx in
                 let y := ent_y (entity_at w entity) + ry in
                 let z := ent_z (entity_at w entity) + rz in
                 let '(region_coord, chunk_coord, _, _) := index_of x y z in
                 let key := (region_coord, chunk_coord) in
                 let w := Entity_set_pos w entity x y z in
                 (w, dict_append ents key entity, key))
                (w, ents, key) rep).1.2
            = (staged_count ents + length rep)%nat).
  { clear. induction rep as [|[[rx ry] rz] rep IH]; intros w ents key.
    - simpl. lia.
    - cbn [foldl]. cbv zeta. destruct (deepcopy_entity w orig) as [w1 entity].
      destruct_index. rewrite IH, staged_count_append. simpl. lia. }
  rewrite H, staged_count_append. lia.
Qed.

Lemma repeat_entities_count rep w d :
  staged_count (repeat_entities chunk_extent region_chunks section_height rep w d).2
  = ((1 + length rep) * staged_count d)%nat.
Proof.
  unfold repeat_entities.
  assert (H : ∀ w ents,
            staged_count
              (foldl (λ '(w, ents) (item : chunk_id * list loc),
                 let '(w', ents', _) :=
                   foldl (repeat_entity chunk_extent region_chunks section_height rep)
                         (w, ents, item.1) item.2 in
                 (w', ents')) (w, ents) d).2
            = (staged_count ents + (1 + length rep) * staged_count d)%nat).
  { clear. induction d as [|[k l] d IH]; intros w ents.
    - change (staged_count []) with 0%nat. simpl. lia.
    - cbn [foldl]. cbn [fst snd].
      assert (Hin : ∀ w ents key,
                staged_count
                  (foldl (repeat_entity chunk_extent region_chunks section_height rep)
                         (w, ents, key) l).1.2
                = (staged_count ents + (1 + length rep) * length l)%nat).
      { clear. induction l as [|orig l IH]; intros w ents key.
        - simpl. lia.
        - cbn [foldl].
          pose proof (repeat_entity_count rep w ents key orig) as H1.
          destruct (repeat_entity _ _ _ rep (w, ents, key) orig) as [[w1 ents1] key1].
          simpl in H1. rewrite IH, H1. simpl. lia. }
      specialize (Hin w ents k).
      destruct (foldl _ (w, ents, k) l) as [[w' ents'] key']. simpl in Hin.
      rewrite IH, Hin, staged_count_cons. lia. }
  rewrite H. change (staged_count Dict.empty) with 0%nat. lia.
Qed.

(** *** The reads of a copy do not depend on the repetitions *)

Lemma foldl_rel {A B C} (R : A → B → Prop) (f : A → C → A) (g : B → C → B)
    (l : list C) (a : A) (b : B) :
  R a b → (∀ a b c, R a b → R (f a c) (g b c)) → R (foldl f a l) (foldl g b l).
Proof.
  intros Hab Hstep. revert a b Hab. induction l; simpl; auto.
Qed.

Lemma strip_set_blocks_map m e : strip (set_blocks_map m e) = strip e.
Proof. done. Qed.

Lemma strip_set_block e block x y z : strip (set_block e block x y z) = strip e.
Proof.
  unfold set_block. destruct (index_of x y z) as [[[rc cc] yl] idx].
  by destruct (Dict.get (blocks_map e) (rc, cc, yl)).
Qed.

Lemma get_block_strip w e x y z :
  get_block w e x y z =
  let '(w', s', b) := get_block w (strip e) x y z in
  (w', set_blocks_map (blocks_map e) s', b).
Proof.
  rewrite <- get_block_set_blocks_map. f_equal. by destruct e.
Qed.

(** Two runs of the loops from sessions that agree up to their pending
    writes, with whatever repetitions, read the same and leave the same
    world and the same caches. *)
Lemma copy_block_agree source dest rep1 rep2 st1 st2 dx dy dz :
  copy_states_agree st1 st2 →
  copy_states_agree (copy_block source dest rep1 st1 dx dy dz)
                    (copy_block source dest rep2 st2 dx dy dz).
Proof.
  destruct st1 as [[w self1] other], st2 as [[w' self2] other'].
  intros (Hw & Ho & Hs). simpl in Hw, Ho, Hs. subst w' other'.
  unfold copy_block.
  destruct source as [[sx sy] sz], dest as [[tx ty] tz].
  assert (Hfold : ∀ (l : list (Z * Z * Z)) block e,
            strip (foldl (λ s '(rx, ry, rz),
                     set_block s block (tx + dx + rx) (ty + dy + ry) (tz + dz + rz))
                   e l) = strip e).
  { induction l as [|[[rx ry] rz] l IH]; intros block e; [done|].
    cbn [foldl]. by rewrite IH, strip_set_block. }
  assert (Hsets : ∀ rep block e,
            strip (if truthy_list rep then
                     foldl (λ s '(rx, ry, rz),
                       set_block s block (tx + dx + rx) (ty + dy + ry) (tz + dz + rz))
                       e (default [] rep)
                   else set_block e block (tx + dx) (ty + dy) (tz + dz)) = strip e).
  { intros rep block e. destruct (truthy_list rep);
      [apply Hfold|apply strip_set_block]. }
  destruct other as [o|]; simpl.
  - destruct (get_block w o (sx + dx) (sy + dy) (sz + dz)) as [[w1 src] block].
    unfold copy_states_agree. simpl. by rewrite !Hsets.
  - rewrite (get_block_strip w self1), (get_block_strip w self2), Hs.
    destruct (get_block w (strip self2) (sx + dx) (sy + dy) (sz + dz))
      as [[w1 src] block].
    unfold copy_states_agree. simpl. by rewrite !Hsets.
Qed.

Lemma copy_loop_agree source dest size rep1 rep2 st :
  copy_states_agree (copy_loop source dest size rep1 st)
                    (copy_loop source dest size rep2 st).
Proof.
  rewrite !copy_loop_cuboid. apply foldl_rel; [done|].
  intros st1 st2 d. apply copy_block_agree.
Qed.

(** The entities staged by a copy with repetitions: as many as the deep
    copy and the repetition make of those the copy without repetitions
    stages. *)
Lemma copy_blocks_staged w e source dest size r rs world_source :
  staged_count
    (entities (copy_blocks w e source dest size (Some (r :: rs)) world_source).2)
  = ((1 + length (r :: rs)) *
     staged_count
       (entities (copy_blocks w e source dest size None world_source).2))%nat.
Proof.
  unfold copy_blocks.
  match goal with |- context [copy_loop ?s ?d ?sz (Some (r :: rs)) ?st] =>
    pose proof (copy_loop_agree s d sz (Some (r :: rs)) None st) as (Hw & Ho & Hs);
    destruct (copy_loop s d sz (Some (r :: rs)) st) as [[w1 self1] other1];
    destruct (copy_loop s d sz None st) as [[w1' self1'] other1'] end.
  simpl in Hw, Ho, Hs. subst w1' other1'.
  assert (Hch : chunks (source_world self1 other1)
                = chunks (source_world self1' other1)).
  { destruct other1; [done|]. simpl.
    change (chunks (strip self1) = chunks (strip self1')). by rewrite Hs. }
  rewrite Hch.
  destruct (extract_entities _ _ _ source dest size w1 _) as [w2 ents].
  cbn [truthy_list entities set_entities snd default from_option id].
  match goal with |- context [deepcopy_entities ?w ?d] =>
    pose proof (deepcopy_entities_count w d) as H3;
    destruct (deepcopy_entities w d) as [w3 copy_entities] end.
  match goal with |- context [repeat_entities _ _ _ ?r ?w ?d] =>
    pose proof (repeat_entities_count r w d) as H4;
    destruct (repeat_entities _ _ _ r w d) as [w4 ents'] end.
  simpl in *. by rewrite H4, H3.
Qed.


(** *** What the commit persists *)

Lemma set_sections_fold (f : Z → SectionData) (ylevels : list Z) c yl :
  cd_sections (foldl (λ c ylevel, Chunk_set_section c ylevel (f ylevel)) c ylevels) yl
  = if decide (yl ∈ ylevels) then f yl else cd_sections c yl.
Proof.
  revert c. induction ylevels as [|y ys IH]; intros c.
  - done.
  - cbn [foldl]. rewrite IH. destruct (decide (yl ∈ ys)) as [Hin|Hnin].
    + rewrite decide_True; [done|]. apply elem_of_cons. by right.
    + simpl. destruct (decide (yl = y)) as [->|Hne].
      * rewrite decide_True; [done|]. apply elem_of_cons. by left.
      * rewrite decide_False; [done|]. by intros [?|?]%elem_of_cons.
Qed.

(** The chunk encoded for a touched chunk carries, at each touched level,
    the payload of the write-side section of that level. *)
Lemma done_chunk_sections e rc w upd cc ylevels yl :
  yl ∈ ylevels →
  ∃ data,
    (done_chunk e rc (w, upd) (cc, ylevels)).2 = Dict.set upd cc data ∧
    cd_sections data yl =
      section_at w (default 0%nat (Dict.get (write_sections e) (rc, cc, yl))).
Proof.
  intros Hin. unfold done_chunk, Region_get_chunk. cbn [fst snd].
  eexists. split; [reflexivity|]. unfold Chunk_get_bytes. cbn [cd_sections].
  rewrite (set_sections_fold
             (λ ylevel, Section_get_nbt (emit (EvGetChunk (path e) rc cc) w)
                (default 0%nat (Dict.get (write_sections e) (rc, cc, ylevel))))).
  by rewrite decide_True.
Qed.

Lemma done_chunks_get_other e rc (chunks : Dict.t chunk_coord (list Z)) w upd cc :
  cc ∉ Dict.keys chunks →
  Dict.get (foldl (done_chunk e rc) (w, upd) chunks).2 cc = Dict.get upd cc.
Proof.
  revert w upd. induction chunks as [|[cc0 yls0] chunks IH]; intros w upd Hnin;
    [done|].
  cbn [foldl]. simpl in Hnin. apply not_elem_of_cons in Hnin as [Hne Hnin].
  destruct (done_chunk_spec e rc w upd cc0 yls0) as [data ->].
  rewrite IH by done. by apply dict_get_set_ne.
Qed.

Lemma done_chunks_get e rc (chunks : Dict.t chunk_coord (list Z)) w upd cc ylevels yl :
  NoDup (Dict.keys chunks) → (cc, ylevels) ∈ chunks → yl ∈ ylevels →
  ∃ data,
    Dict.get (foldl (done_chunk e rc) (w, upd) chunks).2 cc = Some data ∧
    cd_sections data yl =
      section_at w (default 0%nat (Dict.get (write_sections e) (rc, cc, yl))).
Proof.
  revert w upd. induction chunks as [|[cc0 yls0] chunks IH]; intros w upd Hnd Hin Hyl.
  - by apply elem_of_nil in Hin.
  - cbn [foldl]. simpl in Hnd. apply NoDup_cons in Hnd as [Hnin Hnd].
    apply elem_of_cons in Hin as [Heq|Hin].
    + injection Heq as <- <-.
      destruct (done_chunk_sections e rc w upd cc ylevels yl Hyl)
        as (data & Hd & Hsec).
      destruct (done_chunk_spec e rc w upd cc ylevels) as [data' Hd'].
      rewrite Hd' in Hd |- *. simpl in Hd. exists data. split; [|done].
      rewrite done_chunks_get_other by done. rewrite Hd. apply dict_get_set_eq.
    + destruct (done_chunk_spec e rc w upd cc0 yls0) as [data' ->].
      destruct (IH (emit (EvGetChunk (path e) rc cc0) w) (Dict.set upd cc0 data')
                  Hnd Hin Hyl) as (data & Hd & Hsec).
      exists data. split; [done|]. by rewrite Hsec.
Qed.

(** After the write of a region, the storage holds, at each touched level
    of each touched chunk, the payload of the write-side section; the
    other regions are as before. *)
Lemma done_region_disk e w rc ids :
  (∀ cc yl, (cc, yl) ∈ ids →
     cd_sections (disk (done_region e w (rc, ids)) (path e) rc cc) yl =
     section_at w (default 0%nat (Dict.get (write_sections e) (rc, cc, yl)))) ∧
  (∀ p rc' cc, rc' ≠ rc →
     disk (done_region e w (rc, ids)) p rc' cc = disk w p rc' cc).
Proof.
  unfold done_region.
  destruct (foldl (done_chunk e rc) (Region w (path e) rc, Dict.empty)
                  (chunk_levels ids)) as [w2 upd] eqn:Hfold.
  split.
  - intros cc yl Hin.
    assert (∃ yls, (cc, yls) ∈ chunk_levels ids ∧ yl ∈ yls) as (yls & Hcc & Hyl).
    { pose proof (dict_group_get (λ item : chunk_coord * Z, item.1)
                    (λ item, item.2) ids Dict.empty cc) as Hg.
      fold (chunk_levels ids) in Hg. simpl in Hg.
      assert (yl ∈ (λ item : chunk_coord * Z, item.2)
                     <$> filter (λ item : chunk_coord * Z, item.1 = cc) ids) as Hyl.
      { apply list_elem_of_fmap. exists (cc, yl). split; [done|].
        by apply list_elem_of_filter. }
      destruct (_ <$> filter _ ids) as [|y ys] eqn:Hf; [by apply elem_of_nil in Hyl|].
      exists (y :: ys). split; [|done]. by apply dict_get_Some_elem. }
    destruct (done_chunks_get e rc (chunk_levels ids) (Region w (path e) rc)
                Dict.empty cc yls yl (chunk_levels_NoDup ids) Hcc Hyl)
      as (data & Hd & Hsec).
    rewrite Hfold in Hd. simpl in Hd.
    unfold Region_write. simpl. rewrite decide_True by done. rewrite Hd. simpl.
    by rewrite Hsec.
  - intros p rc' cc Hne. unfold Region_write. simpl.
    rewrite decide_False by (intros [_ ?]; done).
    destruct (done_chunks_fold e rc (chunk_levels ids) (Region w (path e) rc)
                Dict.empty) as (upd' & Hf & _).
    rewrite Hf in Hfold. by injection Hfold as <- _.
Qed.

Lemma done_flush_disk e regions w rc ids cc yl :
  NoDup (Dict.keys regions) → (rc, ids) ∈ regions → (cc, yl) ∈ ids →
  cd_sections (disk (done_flush w e regions) (path e) rc cc) yl =
  section_at w (default 0%nat (Dict.get (write_sections e) (rc, cc, yl))).
Proof.
  unfold done_flush. revert w.
  induction regions as [|[rc0 ids0] regions IH]; intros w Hnd Hin Hcc.
  - by apply elem_of_nil in Hin.
  - cbn [foldl]. simpl in Hnd. apply NoDup_cons in Hnd as [Hnin Hnd].
    destruct (done_region_spec e w rc0 ids0) as (_ & _ & _ & Hsh & _).
    apply elem_of_cons in Hin as [Heq|Hin].
    + injection Heq as <- <-.
      assert (Hkeep : ∀ w', disk (foldl (done_region e) w' regions) (path e) rc cc
                            = disk w' (path e) rc cc).
      { clear -Hnin. induction regions as [|[rc1 ids1] regions IH]; intros w';
          [done|].
        cbn [foldl]. simpl in Hnin. apply not_elem_of_cons in Hnin as [Hne Hnin].
        rewrite IH by done. by apply done_region_disk. }
      rewrite Hkeep. by apply done_region_disk.
    + rewrite IH by done. unfold section_at. by rewrite Hsh.
Qed.

Lemma regions_of_member bm rc cc yl :
  (rc, cc, yl) ∈ Dict.keys bm →
  ∃ ids, (rc, ids) ∈ regions_of bm ∧ (cc, yl) ∈ ids.
Proof.
  intros ([sid us] & Heq & Hin)%list_elem_of_fmap. simpl in Heq. subst sid.
  pose proof (dict_group_get (λ item : section_id * list (Block * Z), item.1.1.1)
                (λ item, (item.1.1.2, item.1.2)) bm Dict.empty rc) as Hg.
  change (foldl _ Dict.empty bm) with (regions_of bm) in Hg. simpl in Hg.
  match type of Hg with
  | _ = match ?t with _ => _ end =>
      assert ((cc, yl) ∈ t) as Hyl;
      [|destruct t as [|y ys]; [by apply elem_of_nil in Hyl|]]
  end.
  { apply list_elem_of_fmap. exists (rc, cc, yl, us). split; [done|].
    by apply list_elem_of_filter. }
  exists (y :: ys). split; [|done]. by apply dict_get_Some_elem.
Qed.

(** The commit persists, for each address with pending writes, the payload
    of its write-side section. *)
Lemma done_disk w e rc cc yl updates :
  session_wf w e → Dict.get (blocks_map e) (rc, cc, yl) = Some updates →
  cd_sections (disk (done w e).1 (path e) rc cc) yl =
  apply_updates updates (write_view w e (rc, cc, yl)).
Proof.
  intros Hwf Hsid.
  destruct (done_apply_views w e Hwf) as (_ & _ & _ & Hwv & Hsome).
  assert (Hkey : (rc, cc, yl) ∈ Dict.keys (blocks_map e)).
  { apply dict_get_Some_elem in Hsid. apply list_elem_of_fmap.
    by exists (rc, cc, yl, updates). }
  destruct (Hsome _ Hkey) as [l Hl].
  specialize (Hwv (rc, cc, yl)). unfold write_view at 1 in Hwv.
  rewrite Hl, Hsid in Hwv. rewrite <- Hwv.
  destruct (regions_of_member _ _ _ _ Hkey) as (ids & Hids & Hcc).
  unfold done, done_apply in *.
  destruct (done_sections_trace (blocks_map e) w e Dict.empty)
    as (w1 & e1 & evs & Hfold & Hp & _).
  fold (regions_of (blocks_map e)) in Hfold. rewrite Hfold in *. simpl in *.
  rewrite <- Hp.
  rewrite (done_flush_disk e1 _ w1 rc ids cc yl (regions_of_NoDup _) Hids Hcc).
  by rewrite Hl.
Qed.

(** C7.  The writes buffered for an address are kept in a list to which
    [set_block] appends; the commit applies the list of an address to the
    write-side section of that address in the order of the list, so that at
    each index the block is the one of the last write buffered for that
    index (and the block the section had, where no write was buffered);
    this is the block the storage holds after the commit. *)
Theorem buffered_writes_apply_in_order :
  (∀ e block x y z,
     let '(rc, cc, yl, index) := index_of x y z in
     Dict.get (blocks_map (set_block e block x y z)) (rc, cc, yl) =
       Some (default [] (Dict.get (blocks_map e) (rc, cc, yl)) ++ [(block, index)]) ∧
     ∀ sid, sid ≠ (rc, cc, yl) →
       Dict.get (blocks_map (set_block e block x y z)) sid =
       Dict.get (blocks_map e) sid) ∧
  (∀ w e sid updates,
     session_wf w e → Dict.get (blocks_map e) sid = Some updates →
     ∃ l, Dict.get (write_sections (done w e).2) sid = Some l ∧
          Section_get_nbt (done w e).1 l = apply_updates updates (write_view w e sid) ∧
          ∀ index, Section_get_block (done w e).1 l index =
                   default (write_view w e sid index) (last_write updates index)) ∧
  (∀ w e x y z updates,
     session_wf w e →
     Dict.get (blocks_map e) (address_of (x, y, z)).1 = Some updates →
     stored_block chunk_extent region_chunks section_height
       (done w e).1 (path e) x y z =
     default (write_view w e (address_of (x, y, z)).1 (address_of (x, y, z)).2)
             (last_write updates (address_of (x, y, z)).2)).
Proof.
  split_and!; [apply set_block_blocks_map| |].
  - intros w e sid updates Hwf Hsid.
    destruct (done_apply_views w e Hwf) as (_ & _ & _ & Hwv & Hsome).
    destruct (Hsome sid) as [l Hl].
    { apply dict_get_Some_elem in Hsid. apply list_elem_of_fmap.
      by exists (sid, updates). }
    specialize (Hwv sid). unfold write_view at 1 in Hwv. rewrite Hl, Hsid in Hwv.
    assert (Hnbt : Section_get_nbt (done w e).1 l =
                   apply_updates updates (write_view w e sid)).
    { unfold Section_get_nbt, section_at in *. by rewrite done_sec_heap. }
    exists l. split_and!; [|done|].
    + unfold done. by destruct (done_apply w e) as [[w1 e1] regions].
    + intros index. unfold Section_get_block. unfold Section_get_nbt in Hnbt.
      rewrite Hnbt. apply apply_updates_last_write.
  - intros w e x y z updates Hwf. unfold stored_block, address_of. cbn [fst snd].
    destruct (index_of x y z) as [[[rc cc] yl] index]. cbn [fst snd].
    intros Hsid. rewrite (done_disk w e rc cc yl updates Hwf Hsid).
    apply apply_updates_last_write.
Qed.

(** *** The blocks a copy buffers *)

Local Abbreviation writes_at := (writes_at chunk_extent region_chunks section_height).

(** A read leaves every read view as it is. *)
Lemma get_block_read_view_preserved w e x y z sid :
  session_wf w e →
  read_view (get_block w e x y z).1.1 (get_block w e x y z).1.2 sid = read_view w e sid.
Proof.
  intros (_ & Hrd & _). unfold get_block.
  destruct (index_of x y z) as [[[rc cc] yl] idx].
  destruct (Dict.mem (sections e) (rc, cc, yl)) eqn:Hm; [done|].
  apply dict_mem_false in Hm.
  destruct (get_section_spec w e rc cc yl) as (c & evs & es & chs & -> & Hc).
  cbn [fst snd]. unfold read_view. cbn [sections set_sections set_chunks].
  assert (Hch : ∀ rc' cc',
            chunk_sections_of
              (mk_world (sec_heap w ++ [nbt_sections c yl]) (ent_heap w ++ es)
                        (disk w) (trace w ++ evs))
              (set_sections (Dict.set (sections e) (rc, cc, yl) (length (sec_heap w)))
                            (set_chunks chs e)) rc' cc'
            = chunk_sections_of w e rc' cc').
  { intros rc' cc'. unfold chunk_sections_of. simpl.
    destruct Hc as [(_ & _ & _ & ->)|(Hnone & Hdata & _ & _ & ->)]; [done|].
    destruct (decide ((rc, cc) = (rc', cc'))) as [Heq|Hne].
    - injection Heq as <- <-. by rewrite dict_get_set_eq, Hnone, Hdata.
    - by rewrite dict_get_set_ne. }
  destruct (decide ((rc, cc, yl) = sid)) as [<-|Hne].
  - rewrite dict_get_set_eq, Hm. unfold section_at. cbn [sec_heap].
    rewrite lookup_alloc. simpl. unfold chunk_sections_of.
    by destruct Hc as [(-> & _)|(-> & -> & _)].
  - rewrite dict_get_set_ne by done.
    destruct (Dict.get (sections e) sid) as [l|] eqn:Hl; [|by rewrite Hch].
    unfold section_at. cbn [sec_heap]. rewrite lookup_app_l; [done|].
    rewrite Forall_forall in Hrd. apply Hrd. by eapply dict_get_values.
Qed.

Lemma read_view_set_block w e block x y z sid :
  read_view w (set_block e block x y z) sid = read_view w e sid.
Proof.
  unfold set_block. destruct (index_of x y z) as [[[rc cc] yl] idx].
  by destruct (Dict.get (blocks_map e) (rc, cc, yl)).
Qed.

Lemma writes_at_cons sid block c placements :
  writes_at sid ((block, c) :: placements) =
  (if decide ((address_of c).1 = sid) then [(block, (address_of c).2)] else [])
  ++ writes_at sid placements.
Proof.
  unfold writes_at. cbn [omap list_omap fst snd].
  by destruct (decide ((address_of c).1 = sid)).
Qed.

Lemma writes_at_app sid l1 l2 :
  writes_at sid (l1 ++ l2) = writes_at sid l1 ++ writes_at sid l2.
Proof. apply omap_app. Qed.

Lemma pending_set_block e block x y z sid :
  pending (set_block e block x y z) sid
  = pending e sid ++ writes_at sid [(block, (x, y, z))].
Proof.
  pose proof (set_block_blocks_map e block x y z) as H.
  rewrite writes_at_cons. unfold pending, address_of. cbn [fst snd].
  destruct (index_of x y z) as [[[rc cc] yl] index]. destruct H as [Heq Hne].
  cbn [fst snd]. destruct (decide ((rc, cc, yl) = sid)) as [<-|Hsid].
  - rewrite Heq. rewrite decide_True by done. done.
  - rewrite Hne by done. rewrite decide_False by done. by rewrite !app_nil_r.
Qed.

Lemma pending_set_blocks block tx ty tz (l : list (Z * Z * Z)) e sid :
  pending (foldl (λ s '(rx, ry, rz), set_block s block (tx + rx) (ty + ry) (tz + rz))
                 e l) sid
  = pending e sid ++
    writes_at sid ((λ r, (block, (tx + r.1.1, ty + r.1.2, tz + r.2))) <$> l).
Proof.
  revert e. induction l as [|[[rx ry] rz] l IH]; intros e.
  - simpl. by rewrite app_nil_r.
  - cbn [foldl]. rewrite IH, pending_set_block, fmap_cons, <- app_assoc.
    f_equal. rewrite (writes_at_cons _ _ _ (_ <$> l)), writes_at_cons.
    by rewrite app_nil_r.
Qed.

(** One iteration of the loops, from a state whose source session is
    well-formed: the block read is the one of the read view, the read views
    stay, and the writes are appended to the pending lists. *)
Lemma copy_block_placements source dest rep w self other dx dy dz :
  session_wf w (source_world self other) →
  let st := copy_block source dest rep (w, self, other) dx dy dz in
  let block :=
    read_view w (source_world self other)
      (address_of (source.1.1 + dx, source.1.2 + dy, source.2 + dz)).1
      (address_of (source.1.1 + dx, source.1.2 + dy, source.2 + dz)).2 in
  session_wf st.1.1 (source_world st.1.2 st.2) ∧
  (∀ sid, read_view st.1.1 (source_world st.1.2 st.2) sid
          = read_view w (source_world self other) sid) ∧
  (∀ sid, pending st.1.2 sid =
          pending self sid ++
          writes_at sid
            ((λ r, (block, (dest.1.1 + dx + r.1.1, dest.1.2 + dy + r.1.2,
                            dest.2 + dz + r.2))) <$> write_offsets rep)).
Proof.
  intros Hwf. cbv zeta. unfold copy_block.
  destruct source as [[sx sy] sz], dest as [[tx ty] tz]. cbn [fst snd].
  pose proof (get_block_read_view w (source_world self other)
                (sx + dx) (sy + dy) (sz + dz)) as Hblock.
  pose proof (get_block_wf w (source_world self other)
                (sx + dx) (sy + dy) (sz + dz) Hwf) as Hwf1.
  pose proof (λ sid, get_block_read_view_preserved w (source_world self other)
                (sx + dx) (sy + dy) (sz + dz) sid Hwf) as Hrv.
  pose proof (get_block_blocks_map w (source_world self other)
                (sx + dx) (sy + dy) (sz + dz)) as Hbm.
  destruct (get_block w (source_world self other) (sx + dx) (sy + dy) (sz + dz))
    as [[w1 src] block].
  cbn [fst snd] in *.
  assert (Hb : block = read_view w (source_world self other)
                 (address_of (sx + dx, sy + dy, sz + dz)).1
                 (address_of (sx + dx, sy + dy, sz + dz)).2).
  { rewrite Hblock. unfold address_of. cbn [fst snd].
    by destruct (index_of (sx + dx) (sy + dy) (sz + dz)) as [[[rc cc] yl] idx]. }
  rewrite <- Hb. clear Hb Hblock.
  set (sets := λ e : Editor,
         if truthy_list rep then
           foldl (λ s '(rx, ry, rz),
                    set_block s block (tx + dx + rx) (ty + dy + ry) (tz + dz + rz))
                 e (default [] rep)
         else set_block e block (tx + dx) (ty + dy) (tz + dz)).
  assert (Hsets_wf : ∀ w' e, session_wf w' e → session_wf w' (sets e)).
  { intros w' e He. unfold sets. destruct (truthy_list rep); [|by apply set_block_wf].
    apply (foldl_invariant (session_wf w')); [done|].
    intros s [[rx ry] rz] Hs. by apply set_block_wf. }
  assert (Hsets_rv : ∀ w' e sid, read_view w' (sets e) sid = read_view w' e sid).
  { intros w' e sid. unfold sets.
    destruct (truthy_list rep); [|apply read_view_set_block].
    apply (foldl_invariant (λ s, read_view w' s sid = read_view w' e sid)); [done|].
    intros s [[rx ry] rz] Hs. by rewrite read_view_set_block. }
  assert (Hsets_p : ∀ e sid,
            pending (sets e) sid =
            pending e sid ++
            writes_at sid
              ((λ r, (block, (tx + dx + r.1.1, ty + dy + r.1.2, tz + dz + r.2)))
                 <$> write_offsets rep)).
  { intros e sid. unfold sets, write_offsets.
    destruct (truthy_list rep); [apply pending_set_blocks|].
    rewrite pending_set_block. simpl. by rewrite !Z.add_0_r. }
  destruct other as [o|]; cbn [put_source_world source_world default from_option
                                 id fst snd] in *.
  - fold (sets self). split_and!; [done|done|]. intros sid. apply Hsets_p.
  - fold (sets src). split_and!.
    + by apply Hsets_wf.
    + intros sid. by rewrite Hsets_rv.
    + intros sid. rewrite Hsets_p. unfold pending. by rewrite Hbm.
Qed.

Lemma bind_singleton_fmap {A B} (f : A → B) (l : list A) :
  l ≫= (λ x, [f x]) = f <$> l.
Proof.
  induction l as [|x l IH]; [done|]. by rewrite bind_cons, fmap_cons, IH.
Qed.

Lemma copy_cuboid_placements source dest rep (rv : section_id → SectionData)
    (ds : list (Z * Z * Z)) w self other sid :
  session_wf w (source_world self other) →
  (∀ sid, read_view w (source_world self other) sid = rv sid) →
  pending (foldl (λ st d, copy_block source dest rep st d.1.1 d.1.2 d.2)
                 (w, self, other) ds).1.2 sid =
  pending self sid ++
  writes_at sid
    (d ← ds; r ← write_offsets rep;
     [(rv (address_of (source.1.1 + d.1.1, source.1.2 + d.1.2, source.2 + d.2)).1
          (address_of (source.1.1 + d.1.1, source.1.2 + d.1.2, source.2 + d.2)).2,
       (dest.1.1 + d.1.1 + r.1.1, dest.1.2 + d.1.2 + r.1.2, dest.2 + d.2 + r.2))]).
Proof.
  revert w self other. induction ds as [|d ds IH]; intros w self other Hwf Hrv.
  - simpl. by rewrite app_nil_r.
  - cbn [foldl]. rewrite bind_cons, writes_at_app, bind_singleton_fmap.
    destruct (copy_block_placements source dest rep w self other
                d.1.1 d.1.2 d.2 Hwf) as (Hwf1 & Hrv1 & Hp1).
    destruct (copy_block source dest rep (w, self, other) d.1.1 d.1.2 d.2)
      as [[w1 self1] other1].
    cbn [fst snd] in *. rewrite IH; [|done|by intros; rewrite Hrv1].
    by rewrite Hp1, Hrv, <- app_assoc.
Qed.

Lemma session_wf_init w p : session_wf w (Editor_init p).
Proof. unfold session_wf, Editor_init. simpl. split_and!; constructor. Qed.

Lemma copy_placements_ext (f g : Z * Z * Z → Block) source dest size rep :
  (∀ c, f c = g c) →
  copy_placements f source dest size rep = copy_placements g source dest size rep.
Proof.
  intros Hfg. unfold copy_placements.
  induction (cuboid size) as [|d ds IH]; [done|].
  rewrite !bind_cons, IH. f_equal. clear IH.
  induction (write_offsets rep) as [|r rs IHr]; [done|].
  by rewrite !bind_cons, IHr, Hfg.
Qed.

(** The pending lists after a copy: to the list of each section are
    appended, in the order of the loops, the writes of the copy that fall
    into the section, each with the block read from the source. *)
Lemma copy_blocks_placements w e source dest size rep world_source sid :
  session_wf w e →
  pending (copy_blocks w e source dest size rep world_source).2 sid =
  pending e sid ++
  writes_at sid
    (copy_placements
       (λ c, (get_block w (source_session e world_source) c.1.1 c.1.2 c.2).2)
       source dest size rep).
Proof.
  intros Hwf. unfold copy_blocks.
  set (other := if truthy_str world_source
                then Some (Editor_init (default EmptyString world_source))
                else None).
  assert (Hsrc : source_world e other = source_session e world_source).
  { unfold other, source_session. by destruct (truthy_str world_source). }
  assert (Hwfs : session_wf w (source_world e other)).
  { rewrite Hsrc. unfold source_session.
    destruct (truthy_str world_source); [apply session_wf_init|done]. }
  pose proof (copy_cuboid_placements source dest rep
                (read_view w (source_world e other)) (cuboid size) w e other sid
                Hwfs (λ _, eq_refl)) as Hp.
  rewrite <- copy_loop_cuboid in Hp.
  destruct (copy_loop source dest size rep (w, e, other)) as [[w1 self1] other1].
  cbn [fst snd] in Hp.
  destruct (extract_entities _ _ _ source dest size w1 _) as [w2 ents].
  assert (Hgoal : pending self1 sid =
            pending e sid ++
            writes_at sid
              (copy_placements
                 (λ c, (get_block w (source_session e world_source) c.1.1 c.1.2 c.2).2)
                 source dest size rep)).
  { rewrite Hp. do 2 f_equal.
    apply (copy_placements_ext
             (λ c, read_view w (source_world e other) (address_of c).1 (address_of c).2)).
    intros c.
    rewrite Hsrc, get_block_read_view. unfold address_of.
    by destruct (index_of c.1.1 c.1.2 c.2) as [[[rc cc] yl] idx]. }
  destruct (truthy_list rep); [|exact Hgoal].
  destruct (deepcopy_entities w2 _) as [w3 copy_entities].
  destruct (repeat_entities _ _ _ _ w3 copy_entities) as [w4 ents'].
  exact Hgoal.
Qed.

(** X16. What a copy with a non-empty repetition list buffers and stages.
    At every address the number of pending writes grows by the number of
    coordinates [dest + offset + r], over the offsets of the cuboid and
    the repetition offsets [r], that have the address; there are as many of
    these coordinates as offsets times repetitions.  In a well-formed
    session the pending list of every section grows by exactly the writes
    at these coordinates, in the order of the loops, each with the block
    read at the source voxel.  And the copy stages [1 + |rep|] block
    entities for each one that the same copy without repetitions stages. *)
Theorem copy_repetitions_fan_out w e source dest size r rs world_source :
  let rep := r :: rs in
  let e' := (copy_blocks w e source dest size (Some rep) world_source).2 in
  let targets :=
    d ← cuboid size;
    (λ r, (dest.1.1 + d.1.1 + r.1.1, dest.1.2 + d.1.2 + r.1.2, dest.2 + d.2 + r.2))
      <$> rep in
  (∀ a, pending_at e' a =
        (pending_at e a + length (filter (λ c, address_of c = a) targets))%nat) ∧
  length targets = (length (cuboid size) * length rep)%nat ∧
  staged_count (entities e') =
    ((1 + length rep) *
     staged_count (entities (copy_blocks w e source dest size None world_source).2))%nat ∧
  (∀ sid, session_wf w e →
     pending e' sid =
     pending e sid ++
     writes_at sid
       (d ← cuboid size;
        (λ r, ((get_block w (source_session e world_source)
                  (source.1.1 + d.1.1) (source.1.2 + d.1.2) (source.2 + d.2)).2,
               (dest.1.1 + d.1.1 + r.1.1, dest.1.2 + d.1.2 + r.1.2,
                dest.2 + d.2 + r.2))) <$> rep)).
Proof.
  cbv zeta.
  assert (Ht : copy_targets dest size (Some (r :: rs)) =
               d ← cuboid size;
               (λ r, (dest.1.1 + d.1.1 + r.1.1, dest.1.2 + d.1.2 + r.1.2,
                      dest.2 + d.2 + r.2)) <$> (r :: rs)).
  { unfold copy_targets, write_offsets. cbn [truthy_list default from_option id].
    induction (cuboid size) as [|d ds IH]; [done|].
    by rewrite !bind_cons, IH, bind_singleton_fmap. }
  split_and!.
  - intros a. rewrite <- Ht. apply copy_blocks_pending.
  - clear Ht. induction (cuboid size) as [|d ds IH]; [done|].
    rewrite bind_cons, length_app, IH, length_fmap. simpl. lia.
  - apply copy_blocks_staged.
  - intros sid Hwf. rewrite copy_blocks_placements by done. reflexivity.
Qed.

(** *** Reading again *)

Lemma dict_mem_set {K V} `{EqDecision K} (d : Dict.t K V) k v :
  Dict.mem (Dict.set d k v) k = true.
Proof. unfold Dict.mem. by rewrite dict_get_set_eq. Qed.

Lemma set_sections_id e : set_sections (sections e) e = e.
Proof. by destruct e. Qed.

(** What one read does to the session and to the world outside it. *)
Lemma get_block_spec w e x y z :
  let '(rc, cc, yl, _) := index_of x y z in
  ∃ secs chs hp es evs,
    (get_block w e x y z).1 =
      (mk_world (sec_heap w ++ hp) (ent_heap w ++ es) (disk w) (trace w ++ evs),
       set_sections secs (set_chunks chs e)) ∧
    Dict.mem secs (rc, cc, yl) = true ∧
    evs = (if Dict.mem (sections e) (rc, cc, yl) || Dict.mem (chunks e) (rc, cc)
           then []
           else [EvRegion (path e) rc; EvReadChunk (path e) rc cc]) ∧
    (if Dict.mem (sections e) (rc, cc, yl)
     then secs = sections e ∧ chs = chunks e ∧ hp = [] ∧ es = []
     else Dict.mem chs (rc, cc) = true).
Proof.
  unfold get_block. destruct (index_of x y z) as [[[rc cc] yl] idx].
  destruct (Dict.mem (sections e) (rc, cc, yl)) eqn:Hm.
  - exists (sections e), (chunks e), [], [], []. cbn [fst snd orb].
    rewrite !app_nil_r, set_chunks_id, set_sections_id.
    split_and!; [by destruct w|done..].
  - destruct (get_section_spec w e rc cc yl) as (c & evs & es & chs & -> & H).
    eexists (Dict.set (sections e) (rc, cc, yl) (length (sec_heap w))), chs,
      [nbt_sections c yl], es, evs.
    cbn [fst snd orb]. split_and!; [done|apply dict_mem_set| |].
    + destruct H as [(Hc & -> & _)|(Hc & _ & -> & _)]; unfold Dict.mem; by rewrite Hc.
    + destruct H as [(Hc & _ & _ & ->)|(_ & _ & _ & _ & ->)].
      * unfold Dict.mem. by rewrite Hc.
      * apply dict_mem_set.
Qed.

(** X3. A read consults the storage only when neither the section nor its
    chunk is cached, and then by opening the region and reading the chunk,
    once; it never changes what the storage holds, and it leaves the section
    cached.  Of the session it changes the two read caches only. *)
Theorem get_block_storage_calls w e x y z :
  let '(rc, cc, yl, _) := index_of x y z in
  let r := get_block w e x y z in
  trace r.1.1 =
    trace w ++
    (if Dict.mem (sections e) (rc, cc, yl) || Dict.mem (chunks e) (rc, cc)
     then []
     else [EvRegion (path e) rc; EvReadChunk (path e) rc cc]) ∧
  disk r.1.1 = disk w ∧
  Dict.mem (sections r.1.2) (rc, cc, yl) = true ∧
  Dict.mem (sections e) (rc, cc, yl) || Dict.mem (chunks r.1.2) (rc, cc) = true ∧
  path r.1.2 = path e ∧ blocks_map r.1.2 = blocks_map e ∧
  write_sections r.1.2 = write_sections e ∧ entities r.1.2 = entities e.
Proof.
  pose proof (get_block_spec w e x y z) as H.
  destruct (index_of x y z) as [[[rc cc] yl] idx].
  destruct H as (secs & chs & hp & es & evs & Hr & Hs & -> & Hc).
  cbv zeta. destruct (get_block w e x y z) as [[w' e'] b].
  cbn [fst snd] in *. injection Hr as -> ->. cbn.
  split_and!; try done.
  destruct (Dict.mem (sections e) (rc, cc, yl)); [done|]. exact Hc.
Qed.

(** X4. Reads are repeatable.  After a read, a read anywhere in the same
    section changes neither the session nor the world outside it, so it
    makes no storage call; and in a well-formed session no read changes
    what any later read returns. *)
Theorem get_block_repeatable w e x y z (Hwf : session_wf w e) :
  let r := get_block w e x y z in
  (∀ x' y' z',
     (address_of (x', y', z')).1 = (address_of (x, y, z)).1 →
     (get_block r.1.1 r.1.2 x' y' z').1 = r.1) ∧
  (∀ x' y' z', (get_block r.1.1 r.1.2 x' y' z').2 = (get_block w e x' y' z').2).
Proof.
  cbv zeta. split.
  - intros x' y' z' Ha.
    pose proof (get_block_spec w e x y z) as H. revert Ha H.
    unfold address_of. cbn [fst snd].
    destruct (index_of x y z) as [[[rc cc] yl] idx].
    intros Ha (secs & chs & hp & es & evs & Hr & Hs & _).
    destruct (get_block w e x y z) as [[w' e'] b]. cbn [fst snd] in *.
    injection Hr as -> ->.
    unfold get_block. revert Ha.
    destruct (index_of x' y' z') as [[[rc' cc'] yl'] idx']. cbn [fst snd].
    intros [= -> -> ->]. cbn [sections set_sections]. by rewrite Hs.
  - intros x' y' z'. rewrite !get_block_read_view.
    destruct (index_of x' y' z') as [[[rc' cc'] yl'] idx'].
    by rewrite get_block_read_view_preserved.
Qed.

(** *** Copying an empty area *)

Lemma seqZ_nil m len : len <= 0 → seqZ m len = [].
Proof. intros H. unfold seqZ. by replace (Z.to_nat len) with 0%nat by lia. Qed.

Lemma bind_all_nil {A B} (f : A → list B) (l : list A) :
  (∀ a, f a = []) → l ≫= f = [].
Proof. intros Hf. induction l as [|a l IH]; [done|]. by rewrite bind_cons, IH, Hf. Qed.

Lemma cuboid_empty wx wy wz :
  wx <= 0 ∨ wy <= 0 ∨ wz <= 0 → cuboid (wx, wy, wz) = [].
Proof.
  unfold cuboid. cbn [fst snd]. intros [H|[H|H]].
  - by rewrite (seqZ_nil 0 wx).
  - rewrite (seqZ_nil 0 wy) by done. by apply bind_all_nil.
  - rewrite (seqZ_nil 0 wz) by done.
    apply bind_all_nil. intros dx. by apply bind_all_nil.
Qed.

Lemma in_area_empty source wx wy wz x y z :
  wx <= 0 ∨ wy <= 0 ∨ wz <= 0 → in_area source (wx, wy, wz) x y z = false.
Proof.
  intros H. destruct source as [[sx sy] sz]. unfold in_area.
  apply not_true_is_false. rewrite !andb_true_iff, !Z.leb_le, !Z.ltb_lt. lia.
Qed.

Lemma foldl_fixed {A B} (f : A → B → A) (l : list B) (a : A) :
  (∀ b, f a b = a) → foldl f a l = a.
Proof. intros Hf. induction l as [|b l IH]; [done|]. simpl. by rewrite Hf. Qed.

(** The entity pass leaves the world as it is and stages nothing when no
    entity of the scanned chunks lies in the area. *)
Lemma extract_entities_none source dest size w (chs : Dict.t chunk_id Chunk) :
  (∀ x y z, in_area source size x y z = false) →
  extract_entities chunk_extent region_chunks section_height source dest size w chs
  = (w, Dict.empty).
Proof.
  intros Hout. unfold extract_entities.
  apply foldl_fixed. intros item. apply foldl_fixed. intros l.
  unfold extract_entity. destruct source as [[sx sy] sz], dest as [[tx ty] tz].
  by rewrite Hout.
Qed.

(** X5. Copying an area with an extent that is zero or negative reads
    nothing, buffers nothing and leaves the world outside the session as it
    is; the one thing it does is to empty the staged block entities. *)
Theorem copy_blocks_empty_area w e source dest wx wy wz rep world_source :
  wx <= 0 ∨ wy <= 0 ∨ wz <= 0 →
  copy_blocks w e source dest (wx, wy, wz) rep world_source
  = (w, set_entities Dict.empty e).
Proof.
  intros H. unfold copy_blocks.
  rewrite copy_loop_cuboid, cuboid_empty by done. cbn [foldl].
  rewrite extract_entities_none by (intros; by apply in_area_empty).
  by destruct (truthy_list rep).
Qed.

(** *** What a copy reads and what it leaves alone *)

Lemma strip_fields e1 e2 :
  strip e1 = strip e2 →
  path e1 = path e2 ∧ sections e1 = sections e2 ∧ chunks e1 = chunks e2 ∧
  write_sections e1 = write_sections e2 ∧ entities e1 = entities e2.
Proof. unfold strip, set_blocks_map. by intros [= ? ? ? ? ?]. Qed.

Lemma strip_copy_writes rep block tx ty tz e :
  strip (if truthy_list rep then
           foldl (λ s '(rx, ry, rz), set_block s block (tx + rx) (ty + ry) (tz + rz))
                 e (default [] rep)
         else set_block e block tx ty tz) = strip e.
Proof.
  destruct (truthy_list rep); [|apply strip_set_block].
  generalize (default [] rep). intros l. revert e.
  induction l as [|[[rx ry] rz] l IH]; intros e; [done|].
  cbn [foldl]. by rewrite IH, strip_set_block.
Qed.

(** One read, seen from outside: the stores and the trace grow, by events
    of the read path of this session; the session changes in its two read
    caches. *)
Lemma get_block_frame w e x y z :
  ∃ secs chs hp es evs,
    (get_block w e x y z).1 =
      (mk_world (sec_heap w ++ hp) (ent_heap w ++ es) (disk w) (trace w ++ evs),
       set_sections secs (set_chunks chs e)) ∧
    Forall (read_at (path e)) evs.
Proof.
  pose proof (get_block_spec w e x y z) as H.
  destruct (index_of x y z) as [[[rc cc] yl] idx].
  destruct H as (secs & chs & hp & es & evs & Hr & _ & -> & _).
  exists secs, chs, hp, es. eexists. split; [exact Hr|].
  destruct (_ || _); repeat constructor.
Qed.

Lemma copy_block_inv w e other source dest rep st dx dy dz :
  copy_loop_inv w e other st →
  copy_loop_inv w e other (copy_block source dest rep st dx dy dz).
Proof.
  destruct st as [[w' self] other'].
  intros ((evs & Ht & Hevs) & Hd & Hp & Hws & Hsp & Ho). cbn [fst snd] in *.
  unfold copy_block. destruct source as [[sx sy] sz], dest as [[tx ty] tz].
  destruct (get_block_frame w' (source_world self other')
              (sx + dx) (sy + dy) (sz + dz))
    as (secs & chs & hp & es & evs' & Hr & Hevs').
  destruct (get_block w' (source_world self other') (sx + dx) (sy + dy) (sz + dz))
    as [[w1 src] block].
  cbn [fst snd] in Hr. injection Hr as -> ->.
  pose proof (strip_copy_writes rep block (tx + dx) (ty + dy) (tz + dz)
                (put_source_world self other'
                   (set_sections secs (set_chunks chs (source_world self other')))).1)
    as Hs.
  destruct (put_source_world self other' _) as [self1 other1] eqn:Hput.
  cbn [fst snd] in Hs. apply strip_fields in Hs as (Hs1 & Hs2 & Hs3 & Hs4 & _).
  unfold copy_loop_inv. cbn [fst snd trace disk].
  rewrite Hs1, Hs2, Hs3, Hs4. rewrite Hsp in Hevs'.
  split_and!.
  - exists (evs ++ evs'). rewrite Ht, <- app_assoc. split; [done|].
    by apply Forall_app.
  - done.
  - destruct other'; injection Hput as <- <-; done.
  - destruct other'; injection Hput as <- <-; done.
  - destruct other'; injection Hput as <- <-; unfold source_world in *; cbn in *;
      [done|by rewrite Hs1].
  - destruct other as [o|].
    + destruct Ho as ([o' ->] & Ho1 & Ho2). injection Hput as <- <-. eauto.
    + subst other'. by injection Hput as <- <-.
Qed.

Lemma copy_loop_inv_holds w e other source dest size rep :
  copy_loop_inv w e other (copy_loop source dest size rep (w, e, other)).
Proof.
  rewrite copy_loop_cuboid. apply foldl_invariant.
  - unfold copy_loop_inv. cbn [fst snd]. split_and!; try done.
    + exists []. by rewrite app_nil_r.
    + destruct other; eauto.
  - intros st d. apply copy_block_inv.
Qed.

(** [copy_blocks], with the second editor it sets up named. *)
Lemma copy_blocks_after_copy_loop w e source dest size rep world_source :
  let other := if truthy_str world_source
               then Some (Editor_init (default EmptyString world_source))
               else None in
  let st := copy_loop source dest size rep (w, e, other) in
  only_entities st.1.1 (copy_blocks w e source dest size rep world_source).1 ∧
  ∃ ents, (copy_blocks w e source dest size rep world_source).2
          = set_entities ents st.1.2.
Proof.
  unfold copy_blocks. cbv zeta.
  match goal with |- context [copy_loop ?s ?d ?sz ?r ?st] =>
    destruct (copy_loop s d sz r st) as [[w1 self1] other1] end.
  match goal with |- context [extract_entities _ _ _ ?s ?d ?sz ?w ?c] =>
    pose proof (extract_entities_only_entities s d sz w c) as H2;
    destruct (extract_entities _ _ _ s d sz w c) as [w2 ents] end.
  simpl in H2. destruct (truthy_list rep); [|by eauto].
  match goal with |- context [deepcopy_entities ?w ?d] =>
    pose proof (deepcopy_entities_only_entities w d) as H3;
    destruct (deepcopy_entities w d) as [w3 copy_entities] end.
  match goal with |- context [repeat_entities _ _ _ ?r ?w ?d] =>
    pose proof (repeat_entities_only_entities r w d) as H4;
    destruct (repeat_entities _ _ _ r w d) as [w4 ents'] end.
  simpl in *. split; [|by eauto].
  destruct H2 as (? & ? & ?), H3 as (? & ? & ?), H4 as (? & ? & ?).
  unfold only_entities. split_and!; congruence.
Qed.

(** X6. The storage calls of a copy are reads of the world the blocks come
    from, and the storage is left as it is.  The copy never changes the
    region directory and the write-side sections of the session; and when
    the blocks come from another world, it does not change the read caches
    of the session either: the chunks read from the other world are not
    kept. *)
Theorem copy_blocks_reads_source w e source dest size rep world_source :
  let r := copy_blocks w e source dest size rep world_source in
  (∃ evs, trace r.1 = trace w ++ evs ∧
          Forall (read_at (path (source_session e world_source))) evs) ∧
  disk r.1 = disk w ∧
  path r.2 = path e ∧ write_sections r.2 = write_sections e ∧
  (truthy_str world_source = true →
   sections r.2 = sections e ∧ chunks r.2 = chunks e).
Proof.
  cbv zeta.
  destruct (copy_blocks_after_copy_loop w e source dest size rep world_source)
    as ((_ & Hd & Ht) & ents & He).
  pose proof (copy_loop_inv_holds w e
                (if truthy_str world_source
                 then Some (Editor_init (default EmptyString world_source))
                 else None) source dest size rep)
    as ((evs & Hevs & Hr) & Hd' & Hp & Hws & _ & Ho).
  rewrite He, Ht, Hd. cbn [path write_sections sections chunks set_entities].
  split_and!; try done.
  - exists evs. split; [done|]. unfold source_session.
    by destruct (truthy_str world_source).
  - intros Hts. destruct (truthy_str world_source); [|done].
    by destruct Ho as (_ & ? & ?).
Qed.

(** X7. A copy does not read the pending writes: from two sessions that
    differ in their pending-write buffer only, the same copy leaves the
    same world, the same caches and the same staged entities.  So the
    blocks it places are those of the storage and the caches, also where
    [set_block] has been called before. *)
Theorem copy_blocks_ignores_pending w e1 e2 source dest size rep world_source :
  strip e1 = strip e2 →
  (copy_blocks w e1 source dest size rep world_source).1
  = (copy_blocks w e2 source dest size rep world_source).1 ∧
  strip (copy_blocks w e1 source dest size rep world_source).2
  = strip (copy_blocks w e2 source dest size rep world_source).2.
Proof.
  intros He. unfold copy_blocks.
  match goal with |- context [copy_loop ?s ?d ?sz ?r (w, e1, ?o)] =>
    assert (copy_states_agree (copy_loop s d sz r (w, e1, o))
                              (copy_loop s d sz r (w, e2, o))) as (Hw & Ho & Hs);
    [rewrite !copy_loop_cuboid; apply foldl_rel; [done|];
     intros st1 st2 c; apply copy_block_agree|];
    destruct (copy_loop s d sz r (w, e1, o)) as [[w1 self1] other1];
    destruct (copy_loop s d sz r (w, e2, o)) as [[w1' self1'] other1'] end.
  cbn [fst snd] in Hw, Ho, Hs. subst w1' other1'.
  assert (Hch : chunks (source_world self1 other1)
                = chunks (source_world self1' other1)).
  { destruct other1; [done|]. simpl.
    by apply strip_fields in Hs as (_ & _ & ? & _). }
  rewrite Hch.
  destruct (extract_entities _ _ _ source dest size w1 _) as [w2 ents].
  cbn [entities set_entities].
  assert (Hse : ∀ m, strip (set_entities m self1) = strip (set_entities m self1')).
  { intros m. apply strip_fields in Hs as (? & ? & ? & ? & _).
    unfold strip, set_entities, set_blocks_map. cbn. congruence. }
  destruct (truthy_list rep); [|split; [done|apply Hse]].
  destruct (deepcopy_entities w2 ents) as [w3 copy_entities].
  match goal with |- context [repeat_entities _ _ _ ?r ?w ?d] =>
    destruct (repeat_entities _ _ _ r w d) as [w4 ents'] end.
  split; [done|apply Hse].
Qed.

(** *** What the commit leaves in the storage *)

Lemma set_sections_entities (f : Z → SectionData) (ylevels : list Z) c :
  cd_block_entities (foldl (λ c ylevel, Chunk_set_section c ylevel (f ylevel)) c ylevels)
  = cd_block_entities c.
Proof.
  revert c. induction ylevels as [|y ys IH]; intros c; [done|].
  cbn [foldl]. by rewrite IH.
Qed.

(** The chunk encoded for a touched chunk: at the levels that are not
    touched it has the payload the storage holds, and its block entities
    are those of the storage followed by the entities staged for it. *)
Lemma done_chunk_data e rc w upd cc ylevels :
  ∃ data,
    done_chunk e rc (w, upd) (cc, ylevels) =
      (emit (EvGetChunk (path e) rc cc) w, Dict.set upd cc data) ∧
    (∀ yl, yl ∉ ylevels →
       cd_sections data yl = cd_sections (disk w (path e) rc cc) yl) ∧
    cd_block_entities data =
      cd_block_entities (disk w (path e) rc cc) ++
      (entity_at w <$> default [] (Dict.get (entities e) (rc, cc))).
Proof.
  unfold done_chunk, Region_get_chunk. cbn [fst snd].
  eexists. split; [reflexivity|].
  unfold Chunk_get_bytes. cbn [cd_sections cd_block_entities]. split.
  - intros yl Hyl.
    rewrite (set_sections_fold
               (λ ylevel, Section_get_nbt (emit (EvGetChunk (path e) rc cc) w)
                  (default 0%nat (Dict.get (write_sections e) (rc, cc, ylevel))))).
    by rewrite decide_False.
  - rewrite (set_sections_entities
               (λ ylevel, Section_get_nbt (emit (EvGetChunk (path e) rc cc) w)
                  (default 0%nat (Dict.get (write_sections e) (rc, cc, ylevel))))).
    by destruct (Dict.get (entities e) (rc, cc)).
Qed.

Lemma done_chunks_data e rc (chunks : Dict.t chunk_coord (list Z)) w upd cc ylevels :
  NoDup (Dict.keys chunks) → (cc, ylevels) ∈ chunks →
  ∃ data,
    Dict.get (foldl (done_chunk e rc) (w, upd) chunks).2 cc = Some data ∧
    (∀ yl, yl ∉ ylevels →
       cd_sections data yl = cd_sections (disk w (path e) rc cc) yl) ∧
    cd_block_entities data =
      cd_block_entities (disk w (path e) rc cc) ++
      (entity_at w <$> default [] (Dict.get (entities e) (rc, cc))).
Proof.
  revert w upd. induction chunks as [|[cc0 yls0] chunks IH]; intros w upd Hnd Hin.
  - by apply elem_of_nil in Hin.
  - cbn [foldl]. simpl in Hnd. apply NoDup_cons in Hnd as [Hnin Hnd].
    destruct (done_chunk_data e rc w upd cc0 yls0) as (data0 & -> & Hsec0 & Hent0).
    apply elem_of_cons in Hin as [Heq|Hin].
    + injection Heq as <- <-. exists data0. split; [|done].
      rewrite done_chunks_get_other by done. apply dict_get_set_eq.
    + destruct (IH (emit (EvGetChunk (path e) rc cc0) w) (Dict.set upd cc0 data0)
                  Hnd Hin) as (data & Hd & Hsec & Hent).
      exists data. split; [done|]. split; [exact Hsec|exact Hent].
Qed.

Lemma chunk_levels_keys ids cc :
  cc ∈ Dict.keys (chunk_levels ids) ↔ ∃ yl, (cc, yl) ∈ ids.
Proof.
  unfold chunk_levels. rewrite dict_group_keys_elem. split.
  - intros [Hin|Hin]; [by apply elem_of_nil in Hin|].
    apply list_elem_of_fmap in Hin as ([cc' yl] & -> & Hin). by exists yl.
  - intros [yl Hin]. right. apply list_elem_of_fmap. by exists (cc, yl).
Qed.

Lemma chunk_levels_elem ids cc yls yl :
  (cc, yls) ∈ chunk_levels ids → yl ∈ yls ↔ (cc, yl) ∈ ids.
Proof.
  intros Hin. apply (dict_elem_get_Some _ _ _ (chunk_levels_NoDup ids)) in Hin.
  pose proof (dict_group_get (λ item : chunk_coord * Z, item.1)
                (λ item, item.2) ids Dict.empty cc) as Hg.
  change (foldl _ Dict.empty ids) with (chunk_levels ids) in Hg.
  rewrite Hin in Hg. simpl in Hg.
  match type of Hg with
  | _ = match ?t with _ => _ end =>
      assert (yls = t) as -> by (destruct t; [done|by injection Hg])
  end.
  rewrite list_elem_of_fmap. split.
  - intros ([cc' yl'] & -> & [Hcc Hi]%list_elem_of_filter). simpl in Hcc.
    by subst cc'.
  - intros Hi. exists (cc, yl). split; [done|]. by apply list_elem_of_filter.
Qed.

(** The write of one region: the chunks of other regions and worlds, and
    the chunks of the region that are not touched, stay as they are; in a
    touched chunk the levels that are not touched keep their payload, and
    the staged entities come after those the storage has. *)
Lemma done_region_frame e w rc ids p rc' cc :
  (p ≠ path e ∨ rc' ≠ rc ∨ (∀ yl, (cc, yl) ∉ ids) →
   disk (done_region e w (rc, ids)) p rc' cc = disk w p rc' cc) ∧
  (∀ yl, (cc, yl) ∉ ids →
     cd_sections (disk (done_region e w (rc, ids)) p rc' cc) yl
     = cd_sections (disk w p rc' cc) yl) ∧
  (p = path e → rc' = rc → (∃ yl, (cc, yl) ∈ ids) →
   cd_block_entities (disk (done_region e w (rc, ids)) p rc' cc) =
     cd_block_entities (disk w p rc' cc) ++
     (entity_at w <$> default [] (Dict.get (entities e) (rc, cc)))).
Proof.
  unfold done_region.
  destruct (foldl (done_chunk e rc) (Region w (path e) rc, Dict.empty)
                  (chunk_levels ids)) as [w2 upd] eqn:Hfold.
  destruct (done_chunks_fold e rc (chunk_levels ids) (Region w (path e) rc)
              Dict.empty) as (upd' & Hf & _).
  rewrite Hf in Hfold. injection Hfold as <- <-.
  unfold Region_write. cbn [disk emit set_disk Region].
  destruct (decide (p = path e ∧ rc' = rc)) as [[-> ->]|Hne].
  - destruct (decide (cc ∈ Dict.keys (chunk_levels ids))) as [Hin|Hnin].
    + pose proof Hin as ([cc' yls] & Heq & Hel)%list_elem_of_fmap.
      simpl in Heq. subst cc'.
      destruct (done_chunks_data e rc (chunk_levels ids) (Region w (path e) rc)
                  Dict.empty cc yls (chunk_levels_NoDup ids) Hel)
        as (data & Hd & Hsec & Hent).
      rewrite Hf in Hd. cbn [snd] in Hd. rewrite Hd. cbn [default from_option id].
      apply chunk_levels_keys in Hin as [yl0 Hyl0].
      split_and!.
      * intros [?|[?|Hno]]; [done..|]. by destruct (Hno yl0).
      * intros yl Hyl. apply Hsec. by rewrite (chunk_levels_elem ids cc yls yl).
      * intros _ _ _. exact Hent.
    + pose proof (done_chunks_get_other e rc (chunk_levels ids)
                    (Region w (path e) rc) Dict.empty cc Hnin) as Hd.
      rewrite Hf in Hd. cbn [snd] in Hd. rewrite Hd. cbn.
      split_and!; [done..|].
      intros _ _ Hyl. by apply chunk_levels_keys in Hyl.
  - split_and!; [done..|]. intros -> ->. by destruct Hne.
Qed.

Lemma done_region_ent_heap e w item :
  ent_heap (done_region e w item) = ent_heap w.
Proof.
  destruct item as [rc ids].
  by destruct (done_region_spec e w rc ids) as (_ & _ & _ & _ & ?).
Qed.

Lemma done_flush_frame e regions w p rc cc :
  (p ≠ path e ∨ (∀ ids yl, (rc, ids) ∈ regions → (cc, yl) ∉ ids) →
   disk (done_flush w e regions) p rc cc = disk w p rc cc) ∧
  (∀ yl, (∀ ids, (rc, ids) ∈ regions → (cc, yl) ∉ ids) →
     cd_sections (disk (done_flush w e regions) p rc cc) yl
     = cd_sections (disk w p rc cc) yl) ∧
  (NoDup (Dict.keys regions) → p = path e →
   (∃ ids yl, (rc, ids) ∈ regions ∧ (cc, yl) ∈ ids) →
   cd_block_entities (disk (done_flush w e regions) p rc cc) =
     cd_block_entities (disk w p rc cc) ++
     (entity_at w <$> default [] (Dict.get (entities e) (rc, cc)))).
Proof.
  unfold done_flush. revert w.
  induction regions as [|[rc0 ids0] regions IH]; intros w.
  - split_and!; [done..|]. intros _ _ (ids & yl & Hin & _).
    by apply elem_of_nil in Hin.
  - cbn [foldl].
    destruct (IH (done_region e w (rc0, ids0))) as (IHa & IHb & IHc).
    destruct (done_region_frame e w rc0 ids0 p rc cc) as (Ha & Hb & Hc).
    split_and!.
    + intros H. rewrite IHa, Ha; [done| |].
      * destruct H as [?|H]; [by left|]. right.
        destruct (decide (rc = rc0)) as [->|?]; [|by left]. right.
        intros yl. apply (H ids0). apply elem_of_cons. by left.
      * destruct H as [?|H]; [by left|]. right.
        intros ids yl Hin. apply H. apply elem_of_cons. by right.
    + intros yl H. rewrite IHb.
      * destruct (decide (rc = rc0)) as [->|?].
        -- apply Hb. apply H. apply elem_of_cons. by left.
        -- by rewrite Ha by (right; by left).
      * intros ids Hin. apply H. apply elem_of_cons. by right.
    + intros Hnd -> (ids & yl & Hin & Hyl).
      simpl in Hnd. apply NoDup_cons in Hnd as [Hnin Hnd].
      apply elem_of_cons in Hin as [Heq|Hin].
      * injection Heq as -> ->. rewrite IHa.
        -- apply Hc; [done..|]. by exists yl.
        -- right. intros ids' yl' Hin'. exfalso. apply Hnin.
           apply list_elem_of_fmap. by exists (rc0, ids').
      * assert (rc ≠ rc0) as Hne.
        { intros ->. apply Hnin. apply list_elem_of_fmap. by exists (rc0, ids). }
        rewrite IHc; [|done..|by exists ids, yl].
        rewrite Ha by (right; by left).
        unfold entity_at. by rewrite done_region_ent_heap.
Qed.

Lemma regions_of_elem bm rc ids cc yl :
  (rc, ids) ∈ regions_of bm → (cc, yl) ∈ ids → (rc, cc, yl) ∈ Dict.keys bm.
Proof.
  intros Hin Hyl.
  apply (dict_elem_get_Some _ _ _ (regions_of_NoDup bm)) in Hin.
  pose proof (dict_group_get (λ item : section_id * list (Block * Z), item.1.1.1)
                (λ item, (item.1.1.2, item.1.2)) bm Dict.empty rc) as Hg.
  change (foldl _ Dict.empty bm) with (regions_of bm) in Hg.
  rewrite Hin in Hg. simpl in Hg.
  match type of Hg with
  | _ = match ?t with _ => _ end =>
      assert (ids = t) as -> by (destruct t; [done|by injection Hg])
  end.
  apply list_elem_of_fmap in Hyl as ([[[rc' cc'] yl'] us] & [= -> ->] & Hf).
  apply list_elem_of_filter in Hf as [Hrc Hf]. simpl in Hrc. subst rc'.
  apply list_elem_of_fmap. by exists (rc, cc', yl', us).
Qed.

(** The commit, split into its two loops. *)
Lemma done_unfold w e :
  ∃ w1 e1,
    done_apply w e = (w1, e1, regions_of (blocks_map e)) ∧
    done w e = (done_flush w1 e1 (regions_of (blocks_map e)), e1) ∧
    path e1 = path e ∧ blocks_map e1 = blocks_map e ∧ entities e1 = entities e ∧
    disk w1 = disk w.
Proof.
  unfold done, done_apply.
  destruct (done_sections_trace (blocks_map e) w e Dict.empty)
    as (w1 & e1 & evs & Hfold & Hp & Hb & He & Hd & _).
  fold (regions_of (blocks_map e)) in Hfold. rewrite Hfold.
  by exists w1, e1.
Qed.

(** X8. The commit changes the storage only where writes are pending: a
    chunk of another world, or one without a pending write at any of its
    levels, is left as it is, block entities included; and in a chunk that
    is written, the levels without a pending write keep their payload. *)
Theorem done_storage_frame w e :
  (∀ p rc cc,
     p ≠ path e ∨ (∀ yl, (rc, cc, yl) ∉ Dict.keys (blocks_map e)) →
     disk (done w e).1 p rc cc = disk w p rc cc) ∧
  (∀ p rc cc yl,
     (rc, cc, yl) ∉ Dict.keys (blocks_map e) →
     cd_sections (disk (done w e).1 p rc cc) yl = cd_sections (disk w p rc cc) yl).
Proof.
  destruct (done_unfold w e) as (w1 & e1 & _ & -> & Hp & _ & _ & Hd).
  cbn [fst]. split.
  - intros p rc cc H.
    destruct (done_flush_frame e1 (regions_of (blocks_map e)) w1 p rc cc)
      as (Ha & _). rewrite Ha, Hd; [done|].
    rewrite Hp. destruct H as [?|H]; [by left|]. right.
    intros ids yl Hin Hyl. apply (H yl). by eapply regions_of_elem.
  - intros p rc cc yl H.
    destruct (done_flush_frame e1 (regions_of (blocks_map e)) w1 p rc cc)
      as (_ & Hb & _). rewrite Hb, Hd; [done|].
    intros ids Hin Hyl. apply H. by eapply regions_of_elem.
Qed.

(** X9. The block entities staged for a chunk reach the storage with the
    commit when, and only when, a write is pending in the chunk: they are
    then added after the block entities the storage has for the chunk, as
    they are at the commit.  (Where no write is pending in the chunk, the
    chunk is left as it is.) *)
Theorem done_persists_staged_entities w e rc cc :
  ((∃ yl, (rc, cc, yl) ∈ Dict.keys (blocks_map e)) →
   cd_block_entities (disk (done w e).1 (path e) rc cc) =
     cd_block_entities (disk w (path e) rc cc) ++
     (entity_at (done w e).1 <$> default [] (Dict.get (entities e) (rc, cc)))) ∧
  ((∀ yl, (rc, cc, yl) ∉ Dict.keys (blocks_map e)) →
   cd_block_entities (disk (done w e).1 (path e) rc cc) =
     cd_block_entities (disk w (path e) rc cc)).
Proof.
  destruct (done_unfold w e) as (w1 & e1 & _ & -> & Hp & _ & He & Hd).
  cbn [fst].
  destruct (done_flush_frame e1 (regions_of (blocks_map e)) w1 (path e) rc cc)
    as (Ha & _ & Hc).
  split.
  - intros [yl Hyl].
    destruct (regions_of_member _ _ _ _ Hyl) as (ids & Hids & Hcc).
    rewrite Hc; [|apply regions_of_NoDup|done|by exists ids, yl].
    rewrite Hd, He. do 2 f_equal. unfold entity_at.
    destruct (done_flush_spec e1 (regions_of (blocks_map e)) w1)
      as (_ & _ & _ & _ & ->). done.
  - intros H. rewrite Ha, Hd; [done|]. right.
    intros ids yl Hin Hyl. apply (H yl). by eapply regions_of_elem.
Qed.

(** *** Reading after the commit, and committing again *)

Lemma dict_mem_set_mono {K V} `{EqDecision K} (d : Dict.t K V) k k' v :
  Dict.mem d k' = true → Dict.mem (Dict.set d k v) k' = true.
Proof.
  unfold Dict.mem. destruct (decide (k = k')) as [->|Hne].
  - by rewrite dict_get_set_eq.
  - by rewrite dict_get_set_ne.
Qed.

Lemma get_section_chunks w e rc cc yl :
  let e' := (get_section w e (rc, cc, yl)).1.2 in
  write_sections e' = write_sections e ∧ sections e' = sections e ∧
  Dict.mem (chunks e') (rc, cc) = true ∧
  (∀ k, Dict.mem (chunks e) k = true → Dict.mem (chunks e') k = true).
Proof.
  destruct (get_section_spec w e rc cc yl) as (c & evs & es & chs & -> & H).
  cbn. split_and!; [done|done| |].
  - destruct H as [(Hc & _ & _ & ->)|(_ & _ & _ & _ & ->)];
      [unfold Dict.mem; by rewrite Hc|apply dict_mem_set].
  - intros k. destruct H as [(Hc & _ & _ & ->)|(_ & _ & _ & _ & ->)];
      [done|apply dict_mem_set_mono].
Qed.

Lemma write_sections_cached_strip e1 e2 :
  strip e1 = strip e2 → write_sections_cached e1 → write_sections_cached e2.
Proof.
  intros (_ & _ & Hc & Hw & _)%strip_fields. unfold write_sections_cached.
  by rewrite Hc, Hw.
Qed.

Lemma get_block_write_cached w e x y z :
  write_sections_cached e → write_sections_cached (get_block w e x y z).1.2.
Proof.
  unfold get_block. destruct (index_of x y z) as [[[rc cc] yl] idx].
  destruct (Dict.mem (sections e) (rc, cc, yl)); [done|].
  pose proof (get_section_chunks w e rc cc yl) as (Hw & _ & _ & Hmono).
  destruct (get_section w e (rc, cc, yl)) as [[w' e'] l]. cbn [fst snd] in *.
  unfold write_sections_cached. cbn [write_sections chunks set_sections].
  rewrite Hw. intros Hc. eapply Forall_impl; [exact Hc|]. intros sid. apply Hmono.
Qed.

Lemma copy_block_write_cached source dest rep st dx dy dz :
  write_sections_cached st.1.2 →
  write_sections_cached (copy_block source dest rep st dx dy dz).1.2.
Proof.
  destruct st as [[w self] other]. cbn [fst snd]. intros Hc.
  unfold copy_block. destruct source as [[sx sy] sz], dest as [[tx ty] tz].
  pose proof (get_block_write_cached w self (sx + dx) (sy + dy) (sz + dz) Hc) as Hg.
  assert (write_sections_cached
            (put_source_world self other
               (get_block w (source_world self other)
                  (sx + dx) (sy + dy) (sz + dz)).1.2).1) as Hput.
  { by destruct other. }
  destruct (get_block w (source_world self other) (sx + dx) (sy + dy) (sz + dz))
    as [[w1 src] block]. cbn [fst snd] in Hput.
  destruct (put_source_world self other src) as [self1 other1].
  cbn [fst snd] in *.
  eapply write_sections_cached_strip; [|exact Hput].
  symmetry. apply (strip_copy_writes rep block (tx + dx) (ty + dy) (tz + dz)).
Qed.

Lemma copy_blocks_write_cached w e source dest size rep world_source :
  write_sections_cached e →
  write_sections_cached (copy_blocks w e source dest size rep world_source).2.
Proof.
  intros Hc.
  destruct (copy_blocks_after_copy_loop w e source dest size rep world_source)
    as (_ & ents & ->).
  change (write_sections_cached
            (copy_loop source dest size rep
               (w, e,
                if truthy_str world_source
                then Some (Editor_init (default EmptyString world_source))
                else None)).1.2).
  rewrite copy_loop_cuboid.
  apply (foldl_invariant (λ st, write_sections_cached st.1.2)); [done|].
  intros st d. apply copy_block_write_cached.
Qed.

Lemma done_section_write_cached st item :
  write_sections_cached st.1.2 → write_sections_cached (done_section st item).1.2.
Proof.
  destruct st as [[w e] regions], item as [[[rc cc] yl] updates]. cbn [fst snd].
  intros Hc.
  destruct (done_section_spec w e regions rc cc yl updates)
    as (w1 & e1 & l & -> & _ & Hcase). cbn [fst snd].
  destruct Hcase as [(_ & _ & ->)|(Hn & e' & Hgs & ->)]; [done|].
  pose proof (get_section_chunks w e rc cc yl) as (Hw & _ & Hin & Hmono).
  rewrite Hgs in Hw, Hin, Hmono. cbn [fst snd] in Hw, Hin, Hmono.
  unfold write_sections_cached. cbn [write_sections chunks set_write_sections].
  rewrite dict_keys_set_new by (by rewrite Hw).
  apply Forall_app. split.
  - rewrite Hw. eapply Forall_impl; [exact Hc|]. intros sid. apply Hmono.
  - by repeat constructor.
Qed.

Lemma done_write_cached w e :
  write_sections_cached e → write_sections_cached (done w e).2.
Proof.
  intros Hc. unfold done.
  pose proof (foldl_invariant (λ st, write_sections_cached st.1.2) done_section
                (blocks_map e) (w, e, Dict.empty) Hc
                (λ st item, done_section_write_cached st item)) as H.
  fold (done_apply w e) in H.
  by destruct (done_apply w e) as [[w1 e1] regions].
Qed.

Lemma session_write_cached w e :
  session chunk_extent region_chunks section_height w e → write_sections_cached e.
Proof.
  induction 1.
  - constructor.
  - by apply get_block_write_cached.
  - eapply write_sections_cached_strip; [|done]. symmetry. apply strip_set_block.
  - by apply copy_blocks_write_cached.
  - by apply done_write_cached.
Qed.

(** The commit does not change what the session reads. *)
Lemma done_read_view w e sid :
  session_wf w e → write_sections_cached e →
  read_view (done w e).1 (done w e).2 sid = read_view w e sid.
Proof.
  intros Hwf Hc.
  pose proof (done_write_cached w e Hc) as Hc'.
  destruct (done_unfold w e) as (w1 & e1 & Hap & Hdone & Hp & _ & _ & _).
  destruct (done_apply_views w e Hwf) as (_ & Hs & Hrv & _ & Hsome).
  rewrite Hap in Hs, Hrv, Hsome. rewrite Hdone in Hc' |- *. cbn [fst snd] in *.
  rewrite <- (Hrv sid). unfold read_view.
  destruct (done_flush_spec e1 (regions_of (blocks_map e)) w1)
    as (_ & _ & _ & Hsh & _).
  destruct (Dict.get (sections e1) sid) as [l|]; [unfold section_at; by rewrite Hsh|].
  destruct sid as [[rc cc] yl]. unfold chunk_sections_of. cbn [fst snd].
  destruct (Dict.get (chunks e1) (rc, cc)) as [c|] eqn:Hch; [done|].
  destruct (done_flush_frame e1 (regions_of (blocks_map e)) w1 (path e1) rc cc)
    as (Ha & _). rewrite Ha; [done|]. right.
  intros ids yl' Hin Hyl.
  pose proof (regions_of_elem _ _ _ _ _ Hin Hyl) as Hkey.
  apply Hsome in Hkey as [l Hl].
  unfold write_sections_cached in Hc'. rewrite Forall_forall in Hc'.
  specialize (Hc' (rc, cc, yl')). cbn [fst snd] in Hc'. unfold Dict.mem in Hc'.
  rewrite Hch in Hc'. discriminate Hc'.
  apply list_elem_of_fmap. exists (rc, cc, yl', l). split; [done|].
  by apply dict_get_Some_elem.
Qed.

(** X10. A session does not see its own commit.  In every session of an
    editor the write-side sections are objects of their own and come from
    chunks that stay in the chunk cache; and in such a session a read after
    [done] returns, at every coordinate, what it returned before: the
    cached section, or a section derived again from the cached chunk, never
    the blocks just written. *)
Theorem done_invisible_to_get_block :
  (∀ w e, session chunk_extent region_chunks section_height w e →
          session_wf w e ∧ write_sections_cached e) ∧
  (∀ w e x y z,
     session_wf w e → write_sections_cached e →
     (get_block (done w e).1 (done w e).2 x y z).2 = (get_block w e x y z).2).
Proof.
  split.
  - intros w e H. split; [by apply session_session_wf|].
    by apply (session_write_cached w).
  - intros w e x y z Hwf Hc. rewrite !get_block_read_view.
    destruct (index_of x y z) as [[[rc cc] yl] idx].
    by rewrite done_read_view.
Qed.

(** When every address with a pending write has its write-side section,
    the first loop of the commit reads nothing and leaves the session as it
    is. *)
Lemma done_sections_cached items w e regions :
  (∀ sid, sid ∈ Dict.keys items → is_Some (Dict.get (write_sections e) sid)) →
  ∃ w',
    foldl done_section (w, e, regions) items =
      (w', e,
       foldl (λ regions item, dict_append regions item.1.1.1 (item.1.1.2, item.1.2))
             regions items) ∧
    trace w' = trace w ∧ disk w' = disk w ∧ ent_heap w' = ent_heap w.
Proof.
  revert w regions.
  induction items as [|[sid updates] items IH]; intros w regions Hall.
  - by exists w.
  - destruct sid as [[rc cc] yl]. cbn [foldl].
    destruct (done_section_spec w e regions rc cc yl updates)
      as (w1 & e1 & l & -> & _ & Hcase).
    destruct Hcase as [(_ & -> & ->)|(Hn & _)].
    + match goal with |- context [foldl done_section (?w2, _, ?r) items] =>
        destruct (IH w2 r) as (w' & -> & Ht & Hd & Hh) end.
      { intros sid Hin. apply Hall. simpl. apply elem_of_cons. by right. }
      by exists w'.
    + destruct (Hall (rc, cc, yl)) as [l' Hl'].
      { simpl. apply elem_of_cons. by left. }
      congruence.
Qed.

(** X11. The commit keeps the pending writes and the staged entities.  A
    second [done] therefore commits them again: it reads nothing, leaves
    the session as it is, repeats the calls of the second loop of the first
    commit, and leaves every stored block of the world as the first commit
    left it. *)
Theorem done_again w e (Hwf : session_wf w e) :
  let r := done w e in
  blocks_map r.2 = blocks_map e ∧ entities r.2 = entities e ∧
  (done r.1 r.2).2 = r.2 ∧
  (∃ evs, trace (done r.1 r.2).1 = trace r.1 ++ evs ∧
          call_of <$> evs = commit_calls (path e) (regions_of (blocks_map e))) ∧
  (∀ rc cc yl index,
     cd_sections (disk (done r.1 r.2).1 (path e) rc cc) yl index
     = cd_sections (disk r.1 (path e) rc cc) yl index).
Proof.
  cbv zeta.
  pose proof (done_wf w e Hwf) as Hwf2.
  pose proof (done_disk w e) as Hdisk1.
  destruct (done_unfold w e) as (w1 & e1 & Hap & Hdone & Hp & Hb & He & Hd).
  destruct (done_apply_views w e Hwf) as (_ & _ & _ & Hwv & Hsome).
  rewrite Hap in Hwv, Hsome. rewrite Hdone in Hwf2, Hdisk1 |- *.
  cbn [fst snd] in *.
  set (w2 := done_flush w1 e1 (regions_of (blocks_map e))) in *.
  pose proof (done_disk w2 e1) as Hdisk2.
  destruct (done_unfold w2 e1) as (w3 & e3 & Hap2 & Hdone2 & _ & _ & _ & Hd3).
  destruct (done_sections_cached (blocks_map e1) w2 e1 Dict.empty)
    as (w3' & Hfold & Ht3 & _).
  { intros sid Hin. apply Hsome. by rewrite <- Hb. }
  unfold done_apply in Hap2. rewrite Hfold in Hap2. injection Hap2 as <- <-.
  rewrite Hdone2. cbn [fst snd]. rewrite Hb in *.
  split_and!; [done..| |].
  - destruct (done_flush_spec e1 (regions_of (blocks_map e)) w3')
      as (evs & Ht & Hcalls & _).
    exists evs. by rewrite Ht, Ht3, <- Hp.
  - intros rc cc yl index. rewrite Hdone2 in Hdisk2. cbn [fst] in Hdisk2.
    destruct (Dict.get (blocks_map e) (rc, cc, yl)) as [updates|] eqn:Hg.
    + rewrite <- Hp at 1. rewrite (Hdisk2 rc cc yl updates) by (done || by rewrite Hb).
      rewrite (Hdisk1 rc cc yl updates) by done.
      assert (write_view w2 e1 (rc, cc, yl)
              = apply_updates updates (write_view w e (rc, cc, yl))) as ->.
      { specialize (Hwv (rc, cc, yl)). rewrite Hg in Hwv. rewrite <- Hwv.
        unfold write_view. destruct (Hsome (rc, cc, yl)) as [l ->].
        { apply list_elem_of_fmap. exists (rc, cc, yl, updates). split; [done|].
          by apply dict_get_Some_elem. }
        unfold section_at, w2.
        by destruct (done_flush_spec e1 (regions_of (blocks_map e)) w1)
          as (_ & _ & _ & -> & _). }
      rewrite !apply_updates_last_write.
      by destruct (last_write updates index).
    + apply dict_get_None_keys in Hg.
      destruct (done_flush_frame e1 (regions_of (blocks_map e)) w3' (path e) rc cc)
        as (_ & Hfr & _).
      rewrite Hfr, Hd3; [done|].
      intros ids Hin Hyl. apply Hg. by eapply regions_of_elem.
Qed.

(** *** The entity pass of a copy *)

Local Abbreviation entity_chunk :=
  (entity_chunk chunk_extent region_chunks section_height).
Local Abbreviation extract_entity :=
  (extract_entity chunk_extent region_chunks section_height).

Lemma Entity_set_pos_eq w l x y z :
  (l < length (ent_heap w))%nat →
  entity_at (Entity_set_pos w l x y z) l =
  mk_entity x y z (ent_id (entity_at w l)) (ent_payload (entity_at w l)).
Proof.
  intros Hl. unfold entity_at, Entity_set_pos, set_ent_heap. cbn [ent_heap].
  rewrite list_lookup_alter_eq.
  destruct (ent_heap w !! l) eqn:E; [done|]. apply lookup_ge_None in E. lia.
Qed.

Lemma Entity_set_pos_ne w l l' x y z :
  l ≠ l' → entity_at (Entity_set_pos w l x y z) l' = entity_at w l'.
Proof.
  intros Hl. unfold entity_at, Entity_set_pos, set_ent_heap. cbn [ent_heap].
  by rewrite list_lookup_alter_ne.
Qed.

Lemma Entity_set_pos_length w l x y z :
  length (ent_heap (Entity_set_pos w l x y z)) = length (ent_heap w).
Proof. unfold Entity_set_pos, set_ent_heap. cbn [ent_heap]. apply length_alter. Qed.

Lemma extract_entity_unfold source dest size w ents l :
  extract_entity source dest size (w, ents) l =
  if entity_in_area source size (entity_at w l) then
    (Entity_set_pos w l
       (ent_x (entity_moved source dest (entity_at w l)))
       (ent_y (entity_moved source dest (entity_at w l)))
       (ent_z (entity_moved source dest (entity_at w l))),
     dict_append ents (entity_chunk (entity_moved source dest (entity_at w l))) l)
  else (w, ents).
Proof.
  unfold extract_entity, entity_in_area, entity_moved, entity_chunk, address_of.
  destruct source as [[sx sy] sz], dest as [[tx ty] tz].
  cbn [fst snd ent_x ent_y ent_z].
  destruct (in_area _ _ _ _ _); [|done]. by destruct_index.
Qed.

Lemma filter_ext_elem {A} (P Q : A → Prop) `{∀ x, Decision (P x)}
    `{∀ x, Decision (Q x)} (l : list A) :
  (∀ x, x ∈ l → P x ↔ Q x) → filter P l = filter Q l.
Proof.
  induction l as [|a l IH]; intros HPQ; [done|].
  rewrite !filter_cons. rewrite IH.
  - assert (P a ↔ Q a) as Ha by (apply HPQ, elem_of_cons; by left).
    destruct (decide (P a)) as [HP|HP], (decide (Q a)) as [HQ|HQ]; tauto || done.
  - intros x Hx. apply HPQ. apply elem_of_cons. by right.
Qed.

Lemma extract_entities_fold source dest size (ls : list nat) w ents :
  NoDup ls → Forall (λ l, (l < length (ent_heap w))%nat) ls →
  let r := foldl (extract_entity source dest size) (w, ents) ls in
  length (ent_heap r.1) = length (ent_heap w) ∧
  (∀ l, entity_at r.1 l =
        if decide (l ∈ ls ∧ entity_in_area source size (entity_at w l) = true)
        then entity_moved source dest (entity_at w l) else entity_at w l) ∧
  (∀ key, default [] (Dict.get r.2 key) =
          default [] (Dict.get ents key) ++
          filter (λ l, entity_in_area source size (entity_at w l) = true ∧
                       entity_chunk (entity_moved source dest (entity_at w l)) = key)
                 ls) ∧
  (NoDup (Dict.keys ents) → NoDup (Dict.keys r.2)).
Proof.
  cbv zeta. revert w ents.
  induction ls as [|l ls IH]; intros w ents Hnd Hlt.
  - cbn [foldl fst snd].
    split_and!; [done| |intros key; by rewrite filter_nil, app_nil_r|done].
    intros l. rewrite decide_False; [done|]. intros [Hl _]. by apply elem_of_nil in Hl.
  - apply NoDup_cons in Hnd as [Hnin Hnd].
    apply Forall_cons in Hlt as [Hl Hlt].
    cbn [foldl]. rewrite extract_entity_unfold.
    destruct (entity_in_area source size (entity_at w l)) eqn:Hhit.
    + set (en := entity_moved source dest (entity_at w l)).
      set (w1 := Entity_set_pos w l (ent_x en) (ent_y en) (ent_z en)).
      assert (Hlen : length (ent_heap w1) = length (ent_heap w))
        by apply Entity_set_pos_length.
      assert (Hsame : ∀ l', l' ∈ ls → entity_at w1 l' = entity_at w l').
      { intros l' Hl'. apply Entity_set_pos_ne. by intros ->. }
      destruct (IH w1 (dict_append ents (entity_chunk en) l) Hnd)
        as (IH1 & IH2 & IH3 & IH4); [by rewrite Hlen|].
      split_and!.
      * by rewrite IH1.
      * intros l0. rewrite IH2. destruct (decide (l0 = l)) as [->|Hne].
        -- rewrite decide_False by (by intros [? _]).
           rewrite decide_True by (split; [apply elem_of_cons; by left|done]).
           unfold w1. by rewrite Entity_set_pos_eq.
        -- assert (entity_at w1 l0 = entity_at w l0) as ->
             by (apply Entity_set_pos_ne; congruence).
           destruct (decide (l0 ∈ ls ∧ _)) as [[H1 H2]|Hno].
           ++ rewrite decide_True; [done|]. split; [apply elem_of_cons; by right|done].
           ++ rewrite decide_False; [done|]. intros [[?|?]%elem_of_cons ?]; [done|].
              by apply Hno.
      * intros key. rewrite IH3, filter_cons.
        rewrite (filter_ext_elem _
                   (λ l', entity_in_area source size (entity_at w l') = true ∧
                          entity_chunk (entity_moved source dest (entity_at w l')) = key)
                   ls) by (intros l' Hl'; by rewrite Hsame).
        fold en. destruct (decide (entity_chunk en = key)) as [<-|Hk].
        -- rewrite decide_True by done. rewrite dict_get_append_eq. simpl.
           by rewrite <- app_assoc.
        -- rewrite decide_False by (by intros [_ ?]).
           by rewrite dict_get_append_ne.
      * intros Hk. apply IH4. by apply dict_append_keys_NoDup.
    + destruct (IH w ents Hnd Hlt) as (IH1 & IH2 & IH3 & IH4).
      split_and!; [done| | |done].
      * intros l0. rewrite IH2.
        destruct (decide (l0 ∈ ls ∧ _)) as [[H1 H2]|Hno].
        -- rewrite decide_True; [done|]. split; [apply elem_of_cons; by right|done].
        -- rewrite decide_False; [done|].
           intros [[->|?]%elem_of_cons H2]; [congruence|]. by apply Hno.
      * intros key. rewrite IH3, filter_cons.
        rewrite decide_False; [done|]. intros [? _]. congruence.
Qed.

(** X12. The entity pass of a copy, over a chunk cache whose entity
    objects are distinct objects of the store: every cached entity that lies
    in the source area is moved by the shift from source to destination,
    where it is, keeping its kind and its other tags; every other entity
    object is untouched; and the entities staged under a chunk are the
    moved ones whose new position lies in that chunk, in the order of the
    cache. *)
Theorem extract_entities_spec source dest size w chs :
  NoDup (cached_entities chs) →
  Forall (λ l, (l < length (ent_heap w))%nat) (cached_entities chs) →
  let r := extract_entities chunk_extent region_chunks section_height
             source dest size w chs in
  (∀ l, entity_at r.1 l =
        if decide (l ∈ cached_entities chs ∧
                   entity_in_area source size (entity_at w l) = true)
        then entity_moved source dest (entity_at w l) else entity_at w l) ∧
  (∀ key, default [] (Dict.get r.2 key) =
          filter (λ l, entity_in_area source size (entity_at w l) = true ∧
                       entity_chunk (entity_moved source dest (entity_at w l)) = key)
                 (cached_entities chs)) ∧
  NoDup (Dict.keys r.2) ∧
  only_entities w r.1.
Proof.
  intros Hnd Hlt. cbv zeta.
  pose proof (extract_entities_only_entities source dest size w chs) as Honly.
  unfold extract_entities in *.
  rewrite <- (foldl_bind (extract_entity source dest size)
                (λ item : chunk_id * Chunk, nbt_block_entities item.2)) in *.
  fold (cached_entities chs) in *.
  destruct (extract_entities_fold source dest size (cached_entities chs) w
              Dict.empty Hnd Hlt) as (_ & H2 & H3 & H4).
  split_and!; [done|exact H3| |done]. apply H4. constructor.
Qed.

(** *** Cache or storage *)

(** X13. Where a read takes its block from.  When neither the section nor
    its chunk is cached, the block is the one the storage holds; when one
    of them is cached, the block does not depend on the storage at all:
    the caches are never checked against it. *)
Theorem get_block_cache_or_storage w e x y z :
  let '(rc, cc, yl, _) := index_of x y z in
  (Dict.mem (sections e) (rc, cc, yl) = false →
   Dict.mem (chunks e) (rc, cc) = false →
   (get_block w e x y z).2 =
   stored_block chunk_extent region_chunks section_height w (path e) x y z) ∧
  (Dict.mem (sections e) (rc, cc, yl) || Dict.mem (chunks e) (rc, cc) = true →
   ∀ d, (get_block (set_disk d w) e x y z).2 = (get_block w e x y z).2).
Proof.
  pose proof (get_block_read_view w e x y z) as Hr.
  pose proof (λ d, get_block_read_view (set_disk d w) e x y z) as Hd.
  unfold stored_block.
  destruct (index_of x y z) as [[[rc cc] yl] idx].
  unfold read_view, chunk_sections_of, Dict.mem in *. cbn [fst snd] in *.
  split.
  - intros Hs Hc. rewrite Hr.
    destruct (Dict.get (sections e) (rc, cc, yl)); [done|].
    by destruct (Dict.get (chunks e) (rc, cc)).
  - intros Hm d. rewrite Hr, Hd.
    destruct (Dict.get (sections e) (rc, cc, yl)); [done|].
    by destruct (Dict.get (chunks e) (rc, cc)).
Qed.

(** *** The number of writes a copy buffers *)

Lemma dict_append_total {K V} `{EqDecision K} (d : Dict.t K (list V)) k x :
  sum_list (length <$> Dict.values (dict_append d k x))
  = S (sum_list (length <$> Dict.values d)).
Proof.
  assert (Hc : ∀ k' (l' : list V) (d' : Dict.t K (list V)),
            sum_list (length <$> Dict.values ((k', l') :: d'))
            = (length l' + sum_list (length <$> Dict.values d'))%nat) by done.
  induction d as [|[k' l'] d IH]; rewrite dict_append_unfold; [done|].
  destruct (decide (k = k')) as [->|Hne]; rewrite !Hc.
  - rewrite length_app. simpl. lia.
  - rewrite IH. lia.
Qed.

Lemma set_block_total e block x y z :
  pending_total (set_block e block x y z) = S (pending_total e).
Proof.
  unfold pending_total. rewrite <- (dict_append_total (blocks_map e)
    (address_of (x, y, z)).1 (block, (address_of (x, y, z)).2)).
  unfold set_block, address_of, dict_append. cbn [fst snd].
  destruct (index_of x y z) as [[[rc cc] yl] idx]. cbn [fst snd].
  by destruct (Dict.get (blocks_map e) (rc, cc, yl)).
Qed.

Lemma copy_block_total source dest rep st dx dy dz :
  pending_total (copy_block source dest rep st dx dy dz).1.2
  = (pending_total st.1.2 + length (write_offsets rep))%nat.
Proof.
  destruct st as [[w self] other]. cbn [fst snd].
  unfold copy_block. destruct source as [[sx sy] sz], dest as [[tx ty] tz].
  pose proof (get_block_blocks_map w self (sx + dx) (sy + dy) (sz + dz)) as Hb.
  assert (pending_total
            (put_source_world self other
               (get_block w (source_world self other)
                  (sx + dx) (sy + dy) (sz + dz)).1.2).1
          = pending_total self) as Hput.
  { destruct other; [done|]. unfold pending_total. cbn. by rewrite Hb. }
  destruct (get_block w (source_world self other) (sx + dx) (sy + dy) (sz + dz))
    as [[w1 src] block]. cbn [fst snd] in Hput.
  destruct (put_source_world self other src) as [self1 other1].
  cbn [fst snd] in *. rewrite <- Hput. clear.
  unfold write_offsets. destruct (truthy_list rep).
  - generalize (default [] rep). intros l.
    induction l as [|[[rx ry] rz] l IH] using rev_ind; [simpl; lia|].
    rewrite foldl_app, length_app. cbn [foldl]. rewrite set_block_total, IH.
    simpl. lia.
  - rewrite set_block_total. simpl. lia.
Qed.

Lemma cuboid_length wx wy wz :
  length (cuboid (wx, wy, wz)) = (Z.to_nat wx * Z.to_nat wy * Z.to_nat wz)%nat.
Proof.
  assert (Hb : ∀ {A B} (f : A → list B) (l : list A) n,
            (∀ a, length (f a) = n) → length (l ≫= f) = (length l * n)%nat).
  { intros A B f l n Hf. induction l as [|a l IH]; [done|].
    rewrite bind_cons, length_app, IH, Hf. simpl. lia. }
  unfold cuboid. cbn [fst snd].
  rewrite (Hb _ _ _ _ (Z.to_nat wy * Z.to_nat wz)%nat).
  - rewrite length_seqZ. lia.
  - intros dx. rewrite (Hb _ _ _ _ (Z.to_nat wz)); [by rewrite length_seqZ|].
    intros dy. rewrite (Hb _ _ _ _ 1%nat); [|done]. rewrite length_seqZ. lia.
Qed.

(** X14. The number of writes a copy buffers: one for each block of the
    area and each write offset, whatever is pending already and whether or
    not two of them fall on the same coordinate; an extent that is not
    positive counts as zero. *)
Theorem copy_blocks_write_count w e source dest wx wy wz rep world_source :
  pending_total (copy_blocks w e source dest (wx, wy, wz) rep world_source).2
  = (pending_total e +
     Z.to_nat wx * Z.to_nat wy * Z.to_nat wz * length (write_offsets rep))%nat.
Proof.
  destruct (copy_blocks_after_copy_loop w e source dest (wx, wy, wz) rep world_source)
    as (_ & ents & ->).
  change (pending_total (set_entities ents ?e)) with (pending_total e).
  rewrite <- cuboid_length, copy_loop_cuboid.
  generalize (cuboid (wx, wy, wz)). intros ds.
  induction ds as [|d ds IH] using rev_ind; [simpl; lia|].
  rewrite foldl_app, length_app. cbn [foldl].
  rewrite copy_block_total, IH. simpl. lia.
Qed.

(** *** The repetition pass of a copy *)

Local Abbreviation repeat_copy :=
  (repeat_copy chunk_extent region_chunks section_height).
Local Abbreviation repeat_entity :=
  (repeat_entity chunk_extent region_chunks section_height).
Local Abbreviation repetition_inv :=
  (repetition_inv chunk_extent region_chunks section_height).

Lemma repeat_entity_unfold rep w ents key orig :
  repeat_entity rep (w, ents, key) orig =
  foldl (repeat_copy orig) (w, dict_append ents key orig, key) rep.
Proof.
  unfold repeat_entity. apply foldl_ext_all.
  by intros [[w' ents'] key'] [[rx ry] rz].
Qed.

Lemma alter_alloc {A} (f : A → A) (h : list A) (a : A) :
  alter f (length h) (h ++ [a]) = h ++ [f a].
Proof. induction h as [|b h IH]; [done|]. simpl. f_equal. apply IH. Qed.

Lemma entity_at_old h news w l :
  ent_heap w = h ++ news → (l < length h)%nat →
  entity_at w l = default no_entity (h !! l).
Proof. intros Hh Hl. unfold entity_at. by rewrite Hh, lookup_app_l. Qed.

(** One repetition of one entity: a new object, the entity displaced by
    the offset, staged under the chunk it lies in. *)
Lemma repeat_copy_spec orig w ents key r :
  let en := entity_shifted r (entity_at w orig) in
  ∃ w',
    repeat_copy orig (w, ents, key) r =
      (w', dict_append ents (entity_chunk en) (length (ent_heap w)), entity_chunk en) ∧
    ent_heap w' = ent_heap w ++ [en].
Proof.
  cbv zeta. unfold repeat_copy, deepcopy_entity. destruct r as [[rx ry] rz].
  assert (Ha : entity_at (set_ent_heap (ent_heap w ++ [entity_at w orig]) w)
                         (length (ent_heap w)) = entity_at w orig).
  { unfold entity_at at 1. cbn [ent_heap set_ent_heap]. by rewrite lookup_alloc. }
  rewrite Ha.
  unfold entity_chunk, address_of, entity_shifted. cbn [fst snd ent_x ent_y ent_z].
  destruct_index. cbn [fst snd]. eexists. split; [reflexivity|].
  unfold Entity_set_pos. cbn [ent_heap set_ent_heap]. by rewrite alter_alloc.
Qed.

Lemma repetition_inv_copy h news w ents key orig r :
  (orig < length h)%nat → repetition_inv h news w ents →
  let st := repeat_copy orig (w, ents, key) r in
  repetition_inv h (news ++ [entity_shifted r (default no_entity (h !! orig))])
                 st.1.1 st.1.2.
Proof.
  intros Ho [Hh Hst]. cbv zeta.
  destruct (repeat_copy_spec orig w ents key r) as (w' & -> & Hh').
  cbn [fst snd]. rewrite (entity_at_old h news w orig Hh Ho) in *.
  set (en := entity_shifted r (default no_entity (h !! orig))) in *.
  split; [by rewrite Hh', Hh, <- app_assoc|].
  assert (Hnew : entity_at w' (length (ent_heap w)) = en).
  { unfold entity_at. by rewrite Hh', lookup_alloc. }
  assert (Hold : ∀ l, (l < length (ent_heap w))%nat → entity_at w' l = entity_at w l).
  { intros l Hl. unfold entity_at. by rewrite Hh', lookup_app_l. }
  assert (Hlen : length (ent_heap w') = S (length (ent_heap w))).
  { rewrite Hh', length_app. simpl. lia. }
  intros k l Hl Hge. rewrite Hlen.
  destruct (decide (entity_chunk en = k)) as [<-|Hk].
  - rewrite dict_get_append_eq in Hl. simpl in Hl.
    apply elem_of_app in Hl as [Hl|Hl%list_elem_of_singleton].
    + destruct (Hst _ _ Hl Hge) as [Hlt Hc]. split; [lia|]. by rewrite Hold.
    + subst l. split; [lia|]. by rewrite Hnew.
  - rewrite dict_get_append_ne in Hl by done.
    destruct (Hst _ _ Hl Hge) as [Hlt Hc]. split; [lia|]. by rewrite Hold.
Qed.

Lemma repetition_inv_entity h news rep w ents key orig :
  (orig < length h)%nat → repetition_inv h news w ents →
  let st := repeat_entity rep (w, ents, key) orig in
  repetition_inv h
    (news ++ ((λ r, entity_shifted r (default no_entity (h !! orig))) <$> rep))
    st.1.1 st.1.2.
Proof.
  intros Ho Hinv. cbv zeta. rewrite repeat_entity_unfold.
  assert (Hinv' : repetition_inv h news w (dict_append ents key orig)).
  { destruct Hinv as [Hh Hst]. split; [done|]. intros k l Hl Hge.
    destruct (decide (key = k)) as [<-|Hk].
    - rewrite dict_get_append_eq in Hl. simpl in Hl.
      apply elem_of_app in Hl as [Hl|Hl%list_elem_of_singleton]; [by apply Hst|lia].
    - rewrite dict_get_append_ne in Hl by done. by apply Hst. }
  clear Hinv. set (ents0 := dict_append ents key orig) in *. clearbody ents0.
  revert news w ents0 key Hinv'.
  induction rep as [|r rep IH]; intros news w ents' key' Hinv.
  - cbn [foldl fmap list_fmap fst snd]. by rewrite app_nil_r.
  - cbn [foldl]. rewrite fmap_cons, cons_middle, app_assoc.
    pose proof (repetition_inv_copy h news w ents' key' orig r Ho Hinv) as H1.
    cbv zeta in H1.
    destruct (repeat_copy orig (w, ents', key') r) as [[w1 ents1] key1].
    by apply IH.
Qed.

Lemma repetition_inv_entities h news rep (origs : list nat) w ents key :
  Forall (λ l, (l < length h)%nat) origs → repetition_inv h news w ents →
  let st := foldl (repeat_entity rep) (w, ents, key) origs in
  repetition_inv h
    (news ++ (l ← origs;
              (λ r, entity_shifted r (default no_entity (h !! l))) <$> rep))
    st.1.1 st.1.2.
Proof.
  cbv zeta. revert news w ents key.
  induction origs as [|orig origs IH]; intros news w ents key Hlt Hinv.
  - cbn [foldl fst snd]. by rewrite app_nil_r.
  - apply Forall_cons in Hlt as [Ho Hlt]. cbn [foldl].
    rewrite bind_cons, app_assoc.
    pose proof (repetition_inv_entity h news rep w ents key orig Ho Hinv) as H1.
    cbv zeta in H1.
    destruct (repeat_entity rep (w, ents, key) orig) as [[w1 ents1] key1].
    by apply IH.
Qed.

(** X15. The repetition pass of a copy works on new objects.  For every
    staged entity and every repetition offset, in this order, it adds one
    object to the store: the entity displaced by the offset; the objects
    that were there keep their place and their tags.  Each new object is
    staged under the chunk it lies in. *)
Theorem repeat_entities_spec rep w d :
  Forall (λ l, (l < length (ent_heap w))%nat) (staged_entities d) →
  let r := repeat_entities chunk_extent region_chunks section_height rep w d in
  ent_heap r.1 =
    ent_heap w ++
    (l ← staged_entities d; (λ o, entity_shifted o (entity_at w l)) <$> rep) ∧
  (∀ key l, l ∈ default [] (Dict.get r.2 key) → (length (ent_heap w) ≤ l)%nat →
     (l < length (ent_heap r.1))%nat ∧ entity_chunk (entity_at r.1 l) = key).
Proof.
  intros Hlt. cbv zeta. unfold repeat_entities.
  assert (H : ∀ news w' ents,
            Forall (λ l, (l < length (ent_heap w))%nat) (staged_entities d) →
            repetition_inv (ent_heap w) news w' ents →
            let st := foldl (λ '(w, ents) (item : chunk_id * list loc),
                        let '(w', ents', _) :=
                          foldl (repeat_entity rep) (w, ents, item.1) item.2 in
                        (w', ents')) (w', ents) d in
            repetition_inv (ent_heap w)
              (news ++ (l ← staged_entities d;
                        (λ o, entity_shifted o (default no_entity (ent_heap w !! l)))
                          <$> rep))
              st.1 st.2).
  { clear Hlt. generalize (ent_heap w). intros h. cbv zeta.
    induction d as [|[k origs] d IH]; intros news w' ents Hlt Hinv.
    - cbn [foldl fst snd]. unfold staged_entities. simpl. by rewrite app_nil_r.
    - unfold staged_entities in Hlt |- *. rewrite bind_cons in Hlt |- *.
      cbn [snd] in Hlt |- *. apply Forall_app in Hlt as [Hlt1 Hlt2].
      cbn [foldl fst snd].
      pose proof (repetition_inv_entities h news rep origs w' ents k Hlt1 Hinv) as H1.
      cbv zeta in H1.
      destruct (foldl (repeat_entity rep) (w', ents, k) origs) as [[w1 ents1] key1].
      cbn [fst snd] in H1. rewrite bind_app, app_assoc.
      by apply IH. }
  specialize (H [] w Dict.empty Hlt). cbv zeta in H. rewrite !app_nil_l in H.
  destruct H as [Hh Hst].
  { split; [by rewrite app_nil_r|]. intros key l Hl. by apply elem_of_nil in Hl. }
  split; [exact Hh|]. exact Hst.
Qed.

End editor_facts.

(** ** The small world *)

(** C1 on the small world.  With a repetition list the block loop of a
    copy leaves out the write at the base destination, which the entity
    loop of the same copy keeps.  The chest at (5, 10, 5) copied to
    (100, 10, 5) with the repetition [(16, 0, 0)]: a single write is
    buffered, at (116, 10, 5), none at (100, 10, 5), one write for the voxel
    and not [1 + 1]; the copy without repetitions does write (100, 10, 5);
    and two block entities are staged, the base record at (100, 10, 5) and
    the repeated one at (116, 10, 5).  With the repetition [(1, 0, 0)] and
    the commit, the storage holds the chest at (101, 10, 5), still stone at
    (100, 10, 5), and in that chunk the block entity of the chest at
    (100, 10, 5) as well as the one at (101, 10, 5). *)
Theorem copy_repetitions_skip_base :
  let near := Example.copy_chest_repeated_near in
  let w' := (done near.1 near.2).1 in
  pending_at Example.copy_chest_repeated.2 (address_of 16 32 16 (100, 10, 5))
    = 0%nat ∧
  pending_at Example.copy_chest_repeated.2 (address_of 16 32 16 (116, 10, 5))
    = 1%nat ∧
  pending_total Example.copy_chest_repeated.2 = 1%nat ∧
  pending_total Example.copy_chest_repeated.2 ≠ (1 + length [(16, 0, 0)])%nat ∧
  pending_at Example.copy_chest.2 (address_of 16 32 16 (100, 10, 5)) = 1%nat ∧
  (λ item : chunk_id * list loc,
     (item.1, entity_at Example.copy_chest_repeated.1 <$> item.2))
    <$> entities Example.copy_chest_repeated.2
  = [(((0, 0), (6, 0)), [mk_entity 100 10 5 "chest" "gold"]);
     (((0, 0), (7, 0)), [mk_entity 116 10 5 "chest" "gold"])] ∧
  pending_total near.2 = 1%nat ∧
  stored_block 16 32 16 w' (path Example.editor) 100 10 5 = "stone"%string ∧
  stored_block 16 32 16 w' (path Example.editor) 101 10 5 = "chest"%string ∧
  cd_block_entities (disk w' (path Example.editor) (0, 0) (6, 0))
  = [mk_entity 100 10 5 "chest" "gold"; mk_entity 101 10 5 "chest" "gold"].
Proof. vm_compute. by split_and!. Qed.

(** C3 on the small world.  The copy of the chest changes the source: the
    block entity of the source chunk, read at (5, 10, 5), is afterwards at
    (100, 10, 5) in the chunk cache, and it is this very object that is
    staged for the destination chunk; a second copy of the same cuboid
    finds no block entity any more. *)
Theorem copy_blocks_moves_source_entity :
  let w' := Example.copy_chest.1 in
  let e' := Example.copy_chest.2 in
  cd_block_entities (Example.disk (path Example.editor) (0, 0) (0, 0))
    = [mk_entity 5 10 5 "chest" "gold"] ∧
  nbt_block_entities <$> Dict.get (chunks e') ((0, 0), (0, 0)) = Some [0%nat] ∧
  entity_at w' 0 = mk_entity 100 10 5 "chest" "gold" ∧
  Dict.get (entities e') ((0, 0), (6, 0)) = Some [0%nat] ∧
  entities (copy_blocks 16 32 16 w' e' (5, 10, 5) (200, 10, 5) (1, 1, 1) None None).2
    = [].
Proof. vm_compute. by split_and!. Qed.

(** C4 on the small world.  The chest copied, its block entity is staged
    for the destination chunk; a further copy, of a stone block elsewhere,
    leaves no staged block entity, while the write of the chest is still
    pending; the commit then writes the destination chunk without the
    block entity, which a commit right after the first copy writes.
    Besides, with two chests in one chunk and a repetition, the base
    relocation of the second chest, at (101, 10, 5) in chunk (6, 0), is
    staged under chunk (7, 0), the key the repetition of the first chest
    left in the variable [key]. *)
Theorem copy_blocks_resets_staged_entities :
  (λ item : chunk_id * list loc,
     (item.1, entity_at Example.copy_two_chests_repeated.1 <$> item.2))
    <$> entities Example.copy_two_chests_repeated.2
  = [(((0, 0), (6, 0)), [mk_entity 100 10 5 "chest" "gold"]);
     (((0, 0), (7, 0)), [mk_entity 116 10 5 "chest" "gold";
                         mk_entity 101 10 5 "chest" "iron";
                         mk_entity 117 10 5 "chest" "iron"])] ∧
  entities Example.copy_chest.2 = [(((0, 0), (6, 0)), [0%nat])] ∧
  entities Example.copy_chest_then_stone.2 = [] ∧
  Dict.get (blocks_map Example.copy_chest_then_stone.2) ((0, 0), (6, 0), 0)
    = Some [("chest"%string, 2644)] ∧
  cd_block_entities
    (disk (done Example.copy_chest_then_stone.1 Example.copy_chest_then_stone.2).1
          "world/region" (0, 0) (6, 0)) = [] ∧
  cd_block_entities
    (disk (done Example.copy_chest.1 Example.copy_chest.2).1
          "world/region" (0, 0) (6, 0)) = [mk_entity 100 10 5 "chest" "gold"].
Proof. vm_compute. by split_and!. Qed.

(** The copy of the chest with one repetition, in the well-formed session
    of the small world: the one pending write of the section of
    (116, 10, 5) is the chest read at (5, 10, 5). *)
Lemma copy_repetitions_fan_out_witness :
  session_wf Example.world Example.editor ∧
  pending Example.copy_chest_repeated.2 ((0, 0), (7, 0), 0)
    = [("chest"%string, 2644)].
Proof.
  assert (Hwf : session_wf Example.world Example.editor).
  { apply (bool_decide_unpack _). vm_compute. exact I. }
  split; [exact Hwf|].
  destruct (copy_repetitions_fan_out 16 32 16 Example.world Example.editor
              (5, 10, 5) (100, 10, 5) (1, 1, 1) (16, 0, 0) [] None)
    as (_ & _ & _ & H).
  etrans; [apply (H _ Hwf)|]. vm_compute. reflexivity.
Defined.

(** The indexer with the extents of the small world, at a coordinate with
    negative [x] and [z]. *)
Lemma address_round_trip_witness :
  (0 < 16 ∧ 0 < 32 ∧ 0 < 16) ∧
  tools.id_index_to_block 16 32 16 (tools.block_to_id_index 16 32 16 (-1) 70 (-513))
    = (-1, 70, -513).
Proof.
  split; [lia|].
  apply (address_round_trip 16 32 16); lia.
Defined.

(** The session after the copy of the chest is well-formed, and its commit
    leaves the reads as they are. *)
Lemma write_sections_independent_witness :
  session_wf Example.copy_chest.1 Example.copy_chest.2 ∧
  (get_block 16 32 16
     (done_apply Example.copy_chest.1 Example.copy_chest.2).1.1
     (done_apply Example.copy_chest.1 Example.copy_chest.2).1.2 100 10 5).2
  = (get_block 16 32 16 Example.copy_chest.1 Example.copy_chest.2 100 10 5).2.
Proof.
  assert (Hwf : session_wf Example.copy_chest.1 Example.copy_chest.2).
  { apply (bool_decide_unpack _). vm_compute. exact I. }
  split; [exact Hwf|].
  apply (write_sections_independent 16 32 16 _ _ Hwf).
Defined.

(** The commit after the copy of the chest: the write-side section of the
    destination holds the chest at the index of (100, 10, 5). *)
Lemma buffered_writes_apply_in_order_witness :
  session_wf Example.copy_chest.1 Example.copy_chest.2 ∧
  Dict.get (blocks_map Example.copy_chest.2) ((0, 0), (6, 0), 0)
    = Some [("chest"%string, 2644)] ∧
  ∃ l,
    Dict.get (write_sections (done Example.copy_chest.1 Example.copy_chest.2).2)
             ((0, 0), (6, 0), 0) = Some l ∧
    Section_get_block (done Example.copy_chest.1 Example.copy_chest.2).1 l 2644
      = "chest"%string.
Proof.
  assert (Hwf : session_wf Example.copy_chest.1 Example.copy_chest.2).
  { apply (bool_decide_unpack _). vm_compute. exact I. }
  assert (Hbm : Dict.get (blocks_map Example.copy_chest.2) ((0, 0), (6, 0), 0)
                = Some [("chest"%string, 2644)]) by reflexivity.
  split_and!; [exact Hwf|exact Hbm|].
  destruct (proj1 (proj2 (buffered_writes_apply_in_order 16 32 16)) _ _ _ _ Hwf Hbm)
    as (l & Hl & _ & Hlast).
  exists l. split; [exact Hl|]. rewrite Hlast. reflexivity.
Defined.

(** The commit of a new session does nothing. *)
Lemma done_without_pending_writes_witness :
  blocks_map Example.editor = Dict.empty ∧
  done Example.world Example.editor = (Example.world, Example.editor).
Proof.
  split; [reflexivity|].
  apply (proj1 done_without_pending_writes). reflexivity.
Defined.

(** The region of the pending write of the copied chest, with its chunk. *)
Lemma commit_is_the_sole_writer_witness :
  ((0, 0), [((6, 0), 0)]) ∈ regions_of (blocks_map Example.copy_chest.2) ∧
  ((6, 0) ∈ Dict.keys (chunk_levels [((6, 0), 0)]) ↔
   ∃ yl, ((0, 0), (6, 0), yl) ∈ Dict.keys (blocks_map Example.copy_chest.2)).
Proof.
  assert (Hin : ((0, 0), [((6, 0), 0)]) ∈ regions_of (blocks_map Example.copy_chest.2)).
  { vm_compute. apply elem_of_cons. by left. }
  split; [exact Hin|].
  destruct (commit_is_the_sole_writer 16 32 16) as (_ & _ & _ & H).
  destruct (H (blocks_map Example.copy_chest.2)) as (_ & _ & Hch).
  apply (Hch _ _ _ Hin).
Defined.

(** The other properties, on the small world. *)

Lemma set_verbosity_levels_witness : 2 <= 5 ∧ set_verbosity 5 = Some DEBUG.
Proof.
  split; [lia|].
  apply (proj1 (proj2 (set_verbosity_levels 5))). left. lia.
Defined.

Lemma get_block_repeatable_witness :
  session_wf Example.world Example.editor ∧
  (address_of 16 32 16 (6, 10, 5)).1 = (address_of 16 32 16 (5, 10, 5)).1 ∧
  (get_block 16 32 16
     (get_block 16 32 16 Example.world Example.editor 5 10 5).1.1
     (get_block 16 32 16 Example.world Example.editor 5 10 5).1.2 6 10 5).1
  = (get_block 16 32 16 Example.world Example.editor 5 10 5).1.
Proof.
  assert (Hwf : session_wf Example.world Example.editor).
  { apply (bool_decide_unpack _). vm_compute. exact I. }
  assert (Ha : (address_of 16 32 16 (6, 10, 5)).1 = (address_of 16 32 16 (5, 10, 5)).1)
    by reflexivity.
  split_and!; [exact Hwf|exact Ha|].
  apply (proj1 (get_block_repeatable 16 32 16 _ _ 5 10 5 Hwf) 6 10 5 Ha).
Defined.

Lemma copy_blocks_empty_area_witness :
  (0 <= 0 ∨ 1 <= 0 ∨ 1 <= 0) ∧
  copy_blocks 16 32 16 Example.world Example.editor (5, 10, 5) (100, 10, 5) (0, 1, 1)
    None None
  = (Example.world, set_entities Dict.empty Example.editor).
Proof.
  assert (H : 0 <= 0 ∨ 1 <= 0 ∨ 1 <= 0) by (left; lia).
  split; [exact H|].
  apply (copy_blocks_empty_area 16 32 16 _ _ _ _ 0 1 1 _ _ H).
Defined.

Lemma copy_blocks_reads_source_witness :
  truthy_str (Some "other"%string) = true ∧
  chunks (copy_blocks 16 32 16 Example.world Example.editor (5, 10, 5) (100, 10, 5)
            (1, 1, 1) None (Some "other"%string)).2
  = chunks Example.editor.
Proof.
  split; [reflexivity|].
  destruct (copy_blocks_reads_source 16 32 16 Example.world Example.editor
              (5, 10, 5) (100, 10, 5) (1, 1, 1) None (Some "other"%string))
    as (_ & _ & _ & _ & H).
  apply H. reflexivity.
Defined.

Lemma copy_blocks_ignores_pending_witness :
  strip (set_block 16 32 16 Example.editor "gold" 5 10 5) = strip Example.editor ∧
  (copy_blocks 16 32 16 Example.world
     (set_block 16 32 16 Example.editor "gold" 5 10 5)
     (5, 10, 5) (100, 10, 5) (1, 1, 1) None None).1
  = (copy_blocks 16 32 16 Example.world Example.editor
       (5, 10, 5) (100, 10, 5) (1, 1, 1) None None).1.
Proof.
  assert (H : strip (set_block 16 32 16 Example.editor "gold" 5 10 5)
              = strip Example.editor) by reflexivity.
  split; [exact H|].
  apply (copy_blocks_ignores_pending 16 32 16 _ _ _ _ _ _ _ _ H).
Defined.

Lemma done_storage_frame_witness :
  (((0, 0), (0, 0), 1) ∉ Dict.keys (blocks_map Example.copy_chest.2)) ∧
  cd_sections (disk (done Example.copy_chest.1 Example.copy_chest.2).1
                 (path Example.copy_chest.2) (0, 0) (0, 0)) 1
  = cd_sections (disk Example.copy_chest.1 (path Example.copy_chest.2) (0, 0) (0, 0)) 1.
Proof.
  assert (H : ((0, 0), (0, 0), 1) ∉ Dict.keys (blocks_map Example.copy_chest.2)).
  { apply (bool_decide_unpack _). vm_compute. exact I. }
  split; [exact H|].
  apply (proj2 (done_storage_frame Example.copy_chest.1 Example.copy_chest.2) _ _ _ _ H).
Defined.

Lemma done_persists_staged_entities_witness :
  (∃ yl, ((0, 0), (6, 0), yl) ∈ Dict.keys (blocks_map Example.copy_chest.2)) ∧
  cd_block_entities (disk (done Example.copy_chest.1 Example.copy_chest.2).1
                       (path Example.copy_chest.2) (0, 0) (6, 0))
  = cd_block_entities (disk Example.copy_chest.1 (path Example.copy_chest.2)
                         (0, 0) (6, 0)) ++
    (entity_at (done Example.copy_chest.1 Example.copy_chest.2).1
       <$> default [] (Dict.get (entities Example.copy_chest.2) ((0, 0), (6, 0)))).
Proof.
  assert (H : ∃ yl, ((0, 0), (6, 0), yl) ∈ Dict.keys (blocks_map Example.copy_chest.2)).
  { exists 0. apply (bool_decide_unpack _). vm_compute. exact I. }
  split; [exact H|].
  apply (proj1 (done_persists_staged_entities
                  Example.copy_chest.1 Example.copy_chest.2 (0, 0) (6, 0)) H).
Defined.

Lemma done_invisible_to_get_block_witness :
  session_wf Example.copy_chest.1 Example.copy_chest.2 ∧
  write_sections_cached Example.copy_chest.2 ∧
  (get_block 16 32 16 (done Example.copy_chest.1 Example.copy_chest.2).1
     (done Example.copy_chest.1 Example.copy_chest.2).2 100 10 5).2
  = (get_block 16 32 16 Example.copy_chest.1 Example.copy_chest.2 100 10 5).2.
Proof.
  assert (Hwf : session_wf Example.copy_chest.1 Example.copy_chest.2).
  { apply (bool_decide_unpack _). vm_compute. exact I. }
  assert (Hc : write_sections_cached Example.copy_chest.2).
  { apply (bool_decide_unpack _). vm_compute. exact I. }
  split_and!; [exact Hwf|exact Hc|].
  apply (proj2 (done_invisible_to_get_block 16 32 16) _ _ 100 10 5 Hwf Hc).
Defined.

Lemma done_again_witness :
  session_wf Example.copy_chest.1 Example.copy_chest.2 ∧
  (done (done Example.copy_chest.1 Example.copy_chest.2).1
        (done Example.copy_chest.1 Example.copy_chest.2).2).2
  = (done Example.copy_chest.1 Example.copy_chest.2).2.
Proof.
  assert (Hwf : session_wf Example.copy_chest.1 Example.copy_chest.2).
  { apply (bool_decide_unpack _). vm_compute. exact I. }
  split; [exact Hwf|].
  apply (done_again _ _ Hwf).
Defined.

Lemma extract_entities_spec_witness :
  NoDup (cached_entities
           (chunks (get_block 16 32 16 Example.world Example.editor 5 10 5).1.2)) ∧
  Forall (λ l, (l < length (ent_heap
                  (get_block 16 32 16 Example.world Example.editor 5 10 5).1.1))%nat)
         (cached_entities
            (chunks (get_block 16 32 16 Example.world Example.editor 5 10 5).1.2)) ∧
  default []
    (Dict.get
       (extract_entities 16 32 16 (5, 10, 5) (100, 10, 5) (1, 1, 1)
          (get_block 16 32 16 Example.world Example.editor 5 10 5).1.1
          (chunks (get_block 16 32 16 Example.world Example.editor 5 10 5).1.2)).2
       ((0, 0), (6, 0)))
  = [0%nat].
Proof.
  assert (Hnd : NoDup (cached_entities
             (chunks (get_block 16 32 16 Example.world Example.editor 5 10 5).1.2))).
  { apply (bool_decide_unpack _). vm_compute. exact I. }
  assert (Hlt : Forall (λ l, (l < length (ent_heap
                  (get_block 16 32 16 Example.world Example.editor 5 10 5).1.1))%nat)
         (cached_entities
            (chunks (get_block 16 32 16 Example.world Example.editor 5 10 5).1.2))).
  { apply (bool_decide_unpack _). vm_compute. exact I. }
  split_and!; [exact Hnd|exact Hlt|].
  destruct (extract_entities_spec 16 32 16 (5, 10, 5) (100, 10, 5) (1, 1, 1) _ _
              Hnd Hlt) as (_ & H & _).
  etrans; [apply H|]. vm_compute. reflexivity.
Defined.

Lemma get_block_cache_or_storage_witness :
  Dict.mem (sections Example.editor) ((0, 0), (0, 0), 0) = false ∧
  Dict.mem (chunks Example.editor) ((0, 0), (0, 0)) = false ∧
  (get_block 16 32 16 Example.world Example.editor 5 10 5).2
  = stored_block 16 32 16 Example.world (path Example.editor) 5 10 5.
Proof.
  split_and!; [reflexivity|reflexivity|].
  exact (proj1 (get_block_cache_or_storage 16 32 16
                  Example.world Example.editor 5 10 5) eq_refl eq_refl).
Defined.

Lemma repeat_entities_spec_witness :
  Forall (λ l, (l < length (ent_heap Example.copy_chest.1))%nat)
         (staged_entities (entities Example.copy_chest.2)) ∧
  ent_heap (repeat_entities 16 32 16 [(16, 0, 0)] Example.copy_chest.1
              (entities Example.copy_chest.2)).1
  = ent_heap Example.copy_chest.1 ++ [mk_entity 116 10 5 "chest" "gold"].
Proof.
  assert (Hlt : Forall (λ l, (l < length (ent_heap Example.copy_chest.1))%nat)
                  (staged_entities (entities Example.copy_chest.2))).
  { apply (bool_decide_unpack _). vm_compute. exact I. }
  split; [exact Hlt|].
  etrans; [apply (repeat_entities_spec 16 32 16 _ _ _ Hlt)|].
  vm_compute. reflexivity.
Defined.
